(** * desc.world.ts: from a textual description to residues, sockets and balls

    A shallow embedding of [src/xlink/src/components/desc.world.ts]:
    the class [DescWorld] with its two public methods [addPeptide] and
    [addCrossLinks], the records [Residue], [Socket] and [Ball], and the
    parts of the environment the methods touch (the [Map] of peptides, the
    list of balls, the shared scratch matrices of [constants.ts], the
    identifier generator and the [ThreeInterface] collaborator).

    Layout of the file:
    - the model: JavaScript numbers as an interface, with IEEE 754
      binary64 (what the engine computes) as instance, and the same
      doubles carrying the real number they stand for while no operation
      has rounded;
      strings, [split], the digit-run regular expression, [parseInt];
      [Vector3] and [Matrix4] with the three.js methods the class calls;
      the state of a [DescWorld] and the two methods;
    - the vocabulary of the properties: what a run sends to the
      collaborator, the invariant, sample environments;
    - the properties, chain layout first, cross-links next, references
      last, then their instances at the sample environments;
    - further properties: identifiers, constructor fields, what the
      shared scratch matrices hold, the clauses and endpoints of a
      specification string, and their instances. *)

From Stdlib Require Import ZArith QArith Qcanon Lia Ascii.
From Stdlib Require Import Floats.SpecFloat.
From stdpp Require Import base option list strings pretty gmap.

Set Default Proof Using "Type".

(** ** JavaScript numbers

    The arithmetic of the class is written once, over the operations of a
    JavaScript [number].  [nlit] is an integer literal or an array index
    used as a number; [nltb] and [neqb] are [<] and [===] on numbers. *)

Class Number (num : Type) := {
  nadd : num -> num -> num;
  nsub : num -> num -> num;
  nmul : num -> num -> num;
  ndiv : num -> num -> num;
  nlit : nat -> num;
  nltb : num -> num -> bool;
  neqb : num -> num -> bool
}.

(** The members of the global [Math] object the code reaches.  [Math.cos]
    and [Math.sin] are implementation-approximated in ECMAScript, so they
    are taken as given. *)
Class Math (num : Type) := {
  Math_cos : num -> num;
  Math_sin : num -> num;
  Math_PI : num
}.

Declare Scope num_scope.
Delimit Scope num_scope with num.
Infix "+" := nadd : num_scope.
Infix "-" := nsub : num_scope.
Infix "*" := nmul : num_scope.
Infix "/" := ndiv : num_scope.

(** *** IEEE 754 binary64, the numbers of the engine

    [spec_float] instantiated at precision 53 and maximal exponent 1024 is
    the double format; the operations round to nearest, ties to even. *)

Module B64.

Definition prec : Z := 53.
Definition emax : Z := 1024.

Definition add : spec_float -> spec_float -> spec_float := SFadd prec emax.
Definition sub : spec_float -> spec_float -> spec_float := SFsub prec emax.
Definition mul : spec_float -> spec_float -> spec_float := SFmul prec emax.
Definition div : spec_float -> spec_float -> spec_float := SFdiv prec emax.

(** The double nearest to [m * 2^e]. *)
Definition of_Z_exp (m e : Z) : spec_float := binary_normalize prec emax m e false.

Definition of_nat (n : nat) : spec_float := of_Z_exp (Z.of_nat n) 0.

Definition infinity : spec_float := S754_infinity false.
Definition nan : spec_float := S754_nan.

(** The real number a double stands for, a rational: none for an infinity
    and for NaN. *)
Definition value (x : spec_float) : option Qc :=
  match x with
  | S754_zero _ => Some (Q2Qc 0)
  | S754_finite s m e =>
      Some (Q2Qc (inject_Z (cond_Zopp s (Zpos m)) * Qpower (2 # 1) e))
  | _ => None
  end.

(** [Math.PI] is the double 884279719003555 * 2^-48. *)
Definition PI : spec_float := of_Z_exp 884279719003555 (-48).

#[global] Instance number : Number spec_float :=
  {| nadd := add; nsub := sub; nmul := mul; ndiv := div;
     nlit := of_nat; nltb := SFltb; neqb := SFeqb |}.

End B64.

(** *** Doubles that know whether they are exact

    The same arithmetic of doubles, each double with the real number it
    is meant to be, as long as no operation has rounded or overflowed: an
    operation keeps the number when the double it returns stands for
    exactly the result on the numbers of its operands, and loses it
    otherwise, for good.  The first component is the double the engine
    computes, whatever the second. *)

Module Checked.

(** A natural number as a rational. *)
Definition of_nat (n : nat) : Qc := Q2Qc (inject_Z (Z.of_nat n)).

Definition t : Type := spec_float * option Qc.

(** A double taken as it is: it is exactly what it stands for. *)
Definition lift (x : spec_float) : t := (x, B64.value x).

Definition same (v : option Qc) (q : Qc) : bool :=
  match v with
  | Some q' => Qeq_bool q' q
  | None => false
  end.

Definition op2 (f : spec_float -> spec_float -> spec_float) (g : Qc -> Qc -> Qc)
    (a b : t) : t :=
  let r := f a.1 b.1 in
  (r, match a.2, b.2 with
      | Some qa, Some qb =>
          if same (B64.value r) (g qa qb) then Some (g qa qb) else None
      | _, _ => None
      end).

Definition lit (n : nat) : t :=
  let r := B64.of_nat n in
  (r, if same (B64.value r) (of_nat n) then Some (of_nat n) else None).

Definition number : Number t :=
  {| nadd := op2 B64.add Qcplus; nsub := op2 B64.sub Qcminus;
     nmul := op2 B64.mul Qcmult; ndiv := op2 B64.div Qcdiv;
     nlit := lit;
     nltb := fun a b => SFltb a.1 b.1; neqb := fun a b => SFeqb a.1 b.1 |}.

End Checked.

(** ** Strings

    A JavaScript string is modelled by a [string] of 8-bit characters: the
    grammar of cross-links and the sequences of residue symbols are ASCII. *)

Open Scope string_scope.
Open Scope list_scope.

Definition is_digit (c : ascii) : bool :=
  (48 <=? nat_of_ascii c)%nat && (nat_of_ascii c <=? 57)%nat.

Definition is_alpha (c : ascii) : bool :=
  ((65 <=? nat_of_ascii c)%nat && (nat_of_ascii c <=? 90)%nat)
  || ((97 <=? nat_of_ascii c)%nat && (nat_of_ascii c <=? 122)%nat).

(** [s.split(sep)] for a one-character separator.  The result is never
    empty, so it is a head and a tail: [(split sep s).1] is element [0] of
    the JavaScript array and [(split sep s).2 !! 0] is element [1],
    [None] standing for [undefined]. *)
Fixpoint split (sep : ascii) (s : string) : string * list string :=
  match s with
  | EmptyString => (EmptyString, [])
  | String c s' =>
      let (h, t) := split sep s' in
      if Ascii.eqb c sep then (EmptyString, h :: t) else (String c h, t)
  end.

(** [s.split('')]: the characters of [s], each as a string of length one. *)
Fixpoint split_chars (s : string) : list string :=
  match s with
  | EmptyString => []
  | String c s' => String c EmptyString :: split_chars s'
  end.

Fixpoint take_while (p : ascii -> bool) (s : string) : string :=
  match s with
  | EmptyString => EmptyString
  | String c s' => if p c then String c (take_while p s') else EmptyString
  end.

Fixpoint drop_while (p : ascii -> bool) (s : string) : string :=
  match s with
  | EmptyString => EmptyString
  | String c s' => if p c then drop_while p s' else s
  end.

(** [s.match(/(\d+)/)]: [None] is [null], [Some d] is element [0] of the
    match, the first maximal run of digits of [s]. *)
Definition match_digits (s : string) : option string :=
  match take_while is_digit (drop_while (fun c => negb (is_digit c)) s) with
  | EmptyString => None
  | d => Some d
  end.

(** [parseInt(d)] for a run of digits [d].  [parseInt] rounds to a double
    from 2^53 on; the result is only used as an array index, and an array
    has fewer than 2^32 elements, so the exact value decides the same
    lookups. *)
Definition digit_value (c : ascii) : N := N.of_nat (nat_of_ascii c - 48).

Fixpoint parseInt_from (acc : N) (d : string) : N :=
  match d with
  | EmptyString => acc
  | String c d' => parseInt_from (acc * 10 + digit_value c) d'
  end.

Definition parseInt (d : string) : N := parseInt_from 0 d.

(** [a[i]] for an array [a] and an index [i] that is a natural number,
    [None] standing for [undefined]. *)
Fixpoint index_N {A : Type} (a : list A) (i : N) : option A :=
  match a with
  | [] => None
  | x :: a' => if (i =? 0)%N then Some x else index_N a' (N.pred i)
  end.

(** ** three.js: [Vector3] and [Matrix4] *)

Section Geometry.

Context {num : Type} {NumOps : Number num} {MathObj : Math num}.

Record Vector3 := mkVector3 { vx : num; vy : num; vz : num }.

(** [v.clone().setX(x)]: a fresh vector, so no sharing with [v]. *)
Definition clone_setX (v : Vector3) (x : num) : Vector3 :=
  {| vx := x; vy := vy v; vz := vz v |}.

(** The sixteen entries, named as in the arguments of [Matrix4.set]:
    [nRC] is row R, column C, stored at [elements[4*(C-1) + (R-1)]]. *)
Record Matrix4 := mkMatrix4 {
  n11 : num; n12 : num; n13 : num; n14 : num;
  n21 : num; n22 : num; n23 : num; n24 : num;
  n31 : num; n32 : num; n33 : num; n34 : num;
  n41 : num; n42 : num; n43 : num; n44 : num
}.

(** [m.setPosition(v)] writes [elements[12..14]]. *)
Definition setPosition (m : Matrix4) (v : Vector3) : Matrix4 :=
  {| n11 := n11 m; n12 := n12 m; n13 := n13 m; n14 := vx v;
     n21 := n21 m; n22 := n22 m; n23 := n23 m; n24 := vy v;
     n31 := n31 m; n32 := n32 m; n33 := n33 m; n34 := vz v;
     n41 := n41 m; n42 := n42 m; n43 := n43 m; n44 := n44 m |}.

(** The translation a matrix carries, read as
    [Vector3.setFromMatrixPosition] reads it. *)
Definition position (m : Matrix4) : Vector3 :=
  {| vx := n14 m; vy := n24 m; vz := n34 m |}.

(** [m.makeRotationAxis(axis, angle)] overwrites every entry. *)
Definition makeRotationAxis (axis : Vector3) (angle : num) : Matrix4 :=
  let c := Math_cos angle in
  let s := Math_sin angle in
  let t := (nlit 1 - c)%num in
  let x := vx axis in
  let y := vy axis in
  let z := vz axis in
  let tx := (t * x)%num in
  let ty := (t * y)%num in
  {| n11 := (tx * x + c)%num; n12 := (tx * y - s * z)%num;
     n13 := (tx * z + s * y)%num; n14 := nlit 0;
     n21 := (tx * y + s * z)%num; n22 := (ty * y + c)%num;
     n23 := (ty * z - s * x)%num; n24 := nlit 0;
     n31 := (tx * z - s * y)%num; n32 := (ty * z + s * x)%num;
     n33 := (t * z * z + c)%num; n34 := nlit 0;
     n41 := nlit 0; n42 := nlit 0; n43 := nlit 0; n44 := nlit 1 |}.

(** [this.multiplyMatrices(a, b)]: the product a.b, every entry of
    [this] overwritten after [a] and [b] have been read. *)
Definition multiplyMatrices (a b : Matrix4) : Matrix4 :=
  let row (a1 a2 a3 a4 b1 b2 b3 b4 : num) : num :=
    (a1 * b1 + a2 * b2 + a3 * b3 + a4 * b4)%num in
  {| n11 := row (n11 a) (n12 a) (n13 a) (n14 a) (n11 b) (n21 b) (n31 b) (n41 b);
     n12 := row (n11 a) (n12 a) (n13 a) (n14 a) (n12 b) (n22 b) (n32 b) (n42 b);
     n13 := row (n11 a) (n12 a) (n13 a) (n14 a) (n13 b) (n23 b) (n33 b) (n43 b);
     n14 := row (n11 a) (n12 a) (n13 a) (n14 a) (n14 b) (n24 b) (n34 b) (n44 b);
     n21 := row (n21 a) (n22 a) (n23 a) (n24 a) (n11 b) (n21 b) (n31 b) (n41 b);
     n22 := row (n21 a) (n22 a) (n23 a) (n24 a) (n12 b) (n22 b) (n32 b) (n42 b);
     n23 := row (n21 a) (n22 a) (n23 a) (n24 a) (n13 b) (n23 b) (n33 b) (n43 b);
     n24 := row (n21 a) (n22 a) (n23 a) (n24 a) (n14 b) (n24 b) (n34 b) (n44 b);
     n31 := row (n31 a) (n32 a) (n33 a) (n34 a) (n11 b) (n21 b) (n31 b) (n41 b);
     n32 := row (n31 a) (n32 a) (n33 a) (n34 a) (n12 b) (n22 b) (n32 b) (n42 b);
     n33 := row (n31 a) (n32 a) (n33 a) (n34 a) (n13 b) (n23 b) (n33 b) (n43 b);
     n34 := row (n31 a) (n32 a) (n33 a) (n34 a) (n14 b) (n24 b) (n34 b) (n44 b);
     n41 := row (n41 a) (n42 a) (n43 a) (n44 a) (n11 b) (n21 b) (n31 b) (n41 b);
     n42 := row (n41 a) (n42 a) (n43 a) (n44 a) (n12 b) (n22 b) (n32 b) (n42 b);
     n43 := row (n41 a) (n42 a) (n43 a) (n44 a) (n13 b) (n23 b) (n33 b) (n43 b);
     n44 := row (n41 a) (n42 a) (n43 a) (n44 a) (n14 b) (n24 b) (n34 b) (n44 b) |}.

End Geometry.

Arguments Vector3 : clear implicits.
Arguments Matrix4 : clear implicits.

(** ** What the class imports

    [constants.ts], [common.ts] and the [nanoid] package are not part of
    the file under study; the class is verified against any values of
    them.  [nanoid k] is the identifier returned by call number [k] of
    [nanoid(8)]: the generator is random, so nothing is assumed of it, not
    even that two calls differ.  [getAlphaOnly] is a function from strings
    to strings.  The scratch matrices of [constants.ts] are three distinct
    mutable objects and live in the state below. *)

Class Imports (num : Type) := {
  residueRadius : num;
  socketRadius : num;
  socketLength : num;
  ballRadius : num;
  normalVecZ : Vector3 num;
  getAlphaOnly : string -> string;
  nanoid : nat -> string
}.

(** Modelled from the spec: [getAlphaOnly] of [common.ts], which is not
    among the sources.  The spec describes the expected symbol as the
    alphabetic prefix of the token ("Extract the expected symbol
    (alphabetic prefix of token ...)"). *)
Definition getAlphaOnly_spec (token : string) : string := take_while is_alpha token.

(** ** The records of the class *)

(** The three module-level scratch matrices.  A [Socket] or a [Ball] does
    not hold a matrix of its own: its [matrix] field is a reference to one
    of these shared objects. *)
Inductive MatrixRef := tempMatrix1 | tempMatrix2 | tempMultiMatrix1.

(** How a statement ends: normally with a value, by a [return] of the
    enclosing callback, or with a [TypeError] on its way out. *)
Inductive Flow (A : Type) :=
| Next (a : A)
| Return
| Throw.
Arguments Next {A} a.
Arguments Return {A}.
Arguments Throw {A}.

(** How a method call ends. *)
Inductive Completion := Normal | Thrown.

Section Model.

Context {num : Type}.

Record Residue := mkResidue {
  residue_id : string;
  residue_name : string;
  residue_radius : num;
  residue_pos : Vector3 num
}.

Record Socket := mkSocket {
  socket_id : string;
  socket_residueId : string;
  socket_radius : num;
  socket_length : num;
  socket_matrix : MatrixRef;
  socket_isBond : bool
}.

Record Ball := mkBall {
  ball_id : string;
  ball_socket1Id : string;
  ball_socket2Id : string;
  ball_radius : num;
  ball_matrix : MatrixRef
}.

(** [class Peptide extends Array<Residue>] *)
Definition Peptide : Type := list Residue.

(** The contents of the scratch matrices. *)
Record Temps := mkTemps {
  at_tempMatrix1 : Matrix4 num;
  at_tempMatrix2 : Matrix4 num;
  at_tempMultiMatrix1 : Matrix4 num
}.

Definition deref (t : Temps) (r : MatrixRef) : Matrix4 num :=
  match r with
  | tempMatrix1 => at_tempMatrix1 t
  | tempMatrix2 => at_tempMatrix2 t
  | tempMultiMatrix1 => at_tempMultiMatrix1 t
  end.

Definition assign (t : Temps) (r : MatrixRef) (m : Matrix4 num) : Temps :=
  match r with
  | tempMatrix1 => mkTemps m (at_tempMatrix2 t) (at_tempMultiMatrix1 t)
  | tempMatrix2 => mkTemps (at_tempMatrix1 t) m (at_tempMultiMatrix1 t)
  | tempMultiMatrix1 => mkTemps (at_tempMatrix1 t) (at_tempMatrix2 t) m
  end.

(** A call received by the [ThreeInterface] collaborator.  A socket or a
    ball arrives with a reference to a scratch matrix; the event records
    next to it what that matrix holds at the moment of the call. *)
Inductive Event :=
| AddResidue (r : Residue)
| AddSocket (s : Socket) (m : Matrix4 num)
| AddBall (b : Ball) (m : Matrix4 num).

(** The state a [DescWorld] works on: its two private fields, the calls
    its collaborator has received (oldest first), the scratch matrices and
    the number of identifiers drawn so far. *)
Record DescWorld := mkDescWorld {
  peptides : gmap string Peptide;
  balls : list Ball;
  threeWorld : list Event;
  temps : Temps;
  idCalls : nat
}.

(** [new DescWorld(threeWorld)] *)
Definition DescWorld_new (t : Temps) : DescWorld :=
  {| peptides := ∅; balls := []; threeWorld := []; temps := t; idCalls := 0 |}.

(** *** Statements: state, [return] and exceptions *)

Definition M (A : Type) : Type := DescWorld -> Flow A * DescWorld.

Definition ret {A} (a : A) : M A := fun w => (Next a, w).

Definition bind {A B} (c : M A) (k : A -> M B) : M B :=
  fun w =>
    match c w with
    | (Next a, w') => k a w'
    | (Return, w') => (Return, w')
    | (Throw, w') => (Throw, w')
    end.

Definition return_ {A} : M A := fun w => (Return, w).
Definition throw {A} : M A := fun w => (Throw, w).
Definition get : M DescWorld := fun w => (Next w, w).
Definition modify (f : DescWorld -> DescWorld) : M unit := fun w => (Next tt, f w).

End Model.

Arguments Residue : clear implicits.
Arguments Socket : clear implicits.
Arguments Ball : clear implicits.
Arguments Peptide : clear implicits.
Arguments Temps : clear implicits.
Arguments Event : clear implicits.
Arguments DescWorld : clear implicits.
Arguments M : clear implicits.

Notation "'let*' x ':=' c 'in' k" := (bind c (fun x => k))
  (at level 10, x name, c at level 100, k at level 200).

(** ** The methods of [DescWorld] *)

Section Methods.

Context {num : Type} {NumOps : Number num} {MathObj : Math num} {Imp : Imports num}.

(** [this.newID()], that is [nanoid(8)] *)
Definition newID : M num string :=
  fun w =>
    (Next (nanoid (idCalls w)),
     mkDescWorld (peptides w) (balls w) (threeWorld w) (temps w) (S (idCalls w))).

(** The three registrations of [ThreeInterface]. *)
Definition register (e : Event num) : M num unit :=
  modify (fun w =>
    mkDescWorld (peptides w) (balls w) (threeWorld w ++ [e]) (temps w) (idCalls w)).

Definition threeWorld_addResidue (r : Residue num) : M num unit :=
  register (AddResidue r).

Definition threeWorld_addSocket (s : Socket num) : M num unit :=
  let* w := get in register (AddSocket s (deref (temps w) (socket_matrix s))).

Definition threeWorld_addBall (b : Ball num) : M num unit :=
  let* w := get in register (AddBall b (deref (temps w) (ball_matrix b))).

(** [this.peptides.set(name, peptide)] *)
Definition peptides_set (name : string) (p : Peptide num) : M num unit :=
  modify (fun w =>
    mkDescWorld (<[name := p]> (peptides w)) (balls w) (threeWorld w) (temps w) (idCalls w)).

(** [peptide.push(residue)], [peptide] being the array stored under
    [name] in [this.peptides]: the array object is shared between the
    local variable and the map, so the push shows in the map. *)
Definition peptide_push (name : string) (r : Residue num) : M num unit :=
  modify (fun w =>
    mkDescWorld (alter (fun p => p ++ [r]) name (peptides w))
                (balls w) (threeWorld w) (temps w) (idCalls w)).

(** [this.balls.push(ball)] *)
Definition balls_push (b : Ball num) : M num unit :=
  modify (fun w =>
    mkDescWorld (peptides w) (balls w ++ [b]) (threeWorld w) (temps w) (idCalls w)).

(** Methods of [Matrix4] on a scratch matrix: each mutates the object
    and returns [this]. *)
Definition store (r : MatrixRef) (m : Matrix4 num) : M num unit :=
  modify (fun w =>
    mkDescWorld (peptides w) (balls w) (threeWorld w) (assign (temps w) r m) (idCalls w)).

Definition Matrix4_setPosition (this : MatrixRef) (v : Vector3 num) : M num MatrixRef :=
  let* w := get in
  let* _ := store this (setPosition (deref (temps w) this) v) in
  ret this.

Definition Matrix4_makeRotationAxis (this : MatrixRef) (axis : Vector3 num) (angle : num)
  : M num MatrixRef :=
  let* _ := store this (makeRotationAxis axis angle) in
  ret this.

Definition Matrix4_multiplyMatrices (this a b : MatrixRef) : M num MatrixRef :=
  let* w := get in
  let* _ := store this (multiplyMatrices (deref (temps w) a) (deref (temps w) b)) in
  ret this.

(** The socket transform of [addPeptide]: the argument
    [tempMultiMatrix1.multiplyMatrices(tempMatrix1.setPosition(
    startPos.clone().setX(x)), tempMatrix2.makeRotationAxis(normalVecZ,
    Math.PI / 2))]. *)
Definition socket_transform (startPos : Vector3 num) (x : num) : M num MatrixRef :=
  let* a := Matrix4_setPosition tempMatrix1 (clone_setX startPos x) in
  let* b := Matrix4_makeRotationAxis tempMatrix2 normalVecZ (Math_PI / nlit 2)%num in
  Matrix4_multiplyMatrices tempMultiMatrix1 a b.

(** The four coordinates [addPeptide] computes: [residueX] for the
    residue of index [i], and [socket1X], [socket2X] and [ballX] for the
    connection that follows [prevResidue]. *)
Definition residueX (startPos : Vector3 num) (i : nat) : num :=
  (vx startPos + (socketLength + residueRadius + ballRadius) * nlit 2 * nlit i)%num.

Definition socket1X (prevResidue : Residue num) : num :=
  (vx (residue_pos prevResidue) + residueRadius + socketLength / nlit 2)%num.

Definition socket2X (socket1X : num) : num :=
  (socket1X + socketLength + ballRadius * nlit 2)%num.

Definition ballX (socket1X : num) : num :=
  (socket1X + socketLength / nlit 2 + ballRadius)%num.

(** The callback of [sequence.split('').forEach((c, i) => ...)] in
    [addPeptide].  [prevResidue] is the variable of the enclosing method
    the callback reads and assigns; its new value is the result. *)
Definition addPeptide_callback (name : string) (startPos : Vector3 num)
    (prevResidue : option (Residue num)) (c : string) (i : nat)
  : M num (option (Residue num)) :=
  let residueX := residueX startPos i in
  let* id := newID in
  let residue := mkResidue id c residueRadius (clone_setX startPos residueX) in
  let* _ := threeWorld_addResidue residue in
  let* _ := peptide_push name residue in
  let* _ :=
    match prevResidue with
    | Some prevResidue =>
        let socket1X := socket1X prevResidue in
        let* id1 := newID in
        let* m1 := socket_transform startPos socket1X in
        let socket1 :=
          mkSocket id1 (residue_id prevResidue) socketRadius socketLength m1 false in
        let* _ := threeWorld_addSocket socket1 in
        let socket2X := socket2X socket1X in
        let* id2 := newID in
        let* m2 := socket_transform startPos socket2X in
        let socket2 :=
          mkSocket id2 (residue_id residue) socketRadius socketLength m2 false in
        let* _ := threeWorld_addSocket socket2 in
        let ballX := ballX socket1X in
        let* id3 := newID in
        let* m3 := Matrix4_setPosition tempMatrix1 (clone_setX startPos ballX) in
        let ball := mkBall id3 (socket_id socket1) (socket_id socket2) ballRadius m3 in
        let* _ := threeWorld_addBall ball in
        balls_push ball
    | None => ret tt
    end in
  ret (Some residue).

(** [forEach] with the index, the loop variable threaded through. *)
Fixpoint addPeptide_forEach (name : string) (startPos : Vector3 num)
    (prevResidue : option (Residue num)) (cs : list string) (i : nat) : M num unit :=
  match cs with
  | [] => ret tt
  | c :: cs' =>
      let* prevResidue' := addPeptide_callback name startPos prevResidue c i in
      addPeptide_forEach name startPos prevResidue' cs' (S i)
  end.

(** How a method call ends, from the flow of its body. *)
Definition run (body : M num unit) (w : DescWorld num) : Completion * DescWorld num :=
  match body w with
  | (Throw, w') => (Thrown, w')
  | (_, w') => (Normal, w')
  end.

(** [addPeptide(name, sequence, startPos)] *)
Definition addPeptide (name sequence : string) (startPos : Vector3 num)
  : DescWorld num -> Completion * DescWorld num :=
  run (let* _ := peptides_set name [] in
       addPeptide_forEach name startPos None (split_chars sequence) 0).

(** [this.peptides.get(chain)?.[acidNum - 1]]: [undefined] when the
    chain is not in the map, and when [acidNum - 1] is not an index of
    the array ([-1] for [acidNum = 0], or too large). *)
Definition residue_at (w : DescWorld num) (chain : string) (acidNum : N)
  : option (Residue num) :=
  match peptides w !! chain with
  | None => None
  | Some peptide => if (acidNum =? 0)%N then None else index_N peptide (acidNum - 1)
  end.

(** One endpoint of a cross-link, lines 116-121 for [acids[0]] and lines
    122-127 for [acids[1]], which differ in the names of the variables
    only.  [acid] is [None] when [acids[i]] is [undefined], and then
    [.split] throws.  A missing [acidLocs[1]] makes [.match] throw at the
    latest; a token without a digit makes [match] return [null], and
    [null[0]] throws.  [acidChar !== residue?.name] holds when [residue]
    is [undefined], a string never being [undefined]. *)
Definition resolve (acid : option string) : M num (Residue num) :=
  match acid with
  | None => throw
  | Some acid =>
      let acidLocs := split ":" acid in
      let chain := acidLocs.1 in
      match acidLocs.2 !! 0%nat with
      | None => throw
      | Some token =>
          let acidChar := getAlphaOnly token in
          match match_digits token with
          | None => throw
          | Some digits =>
              let acidNum := parseInt digits in
              let* w := get in
              match residue_at w chain acidNum with
              | None => return_
              | Some residue =>
                  if String.eqb acidChar (residue_name residue)
                  then ret residue else return_
              end
          end
      end
  end.

(** The callback of [crossLinks.forEach(crossLink => ...)]. *)
Definition addCrossLinks_callback (crossLink : string) : M num unit :=
  let acids := split "-" crossLink in
  let* residue1 := resolve (Some acids.1) in
  let* residue2 := resolve (acids.2 !! 0%nat) in
  let* id1 := newID in
  let socket1 :=
    mkSocket id1 (residue_id residue1) socketRadius socketLength tempMatrix1 false in
  let* _ := threeWorld_addSocket socket1 in
  let* id2 := newID in
  let socket2 :=
    mkSocket id2 (residue_id residue2) socketRadius socketLength tempMatrix1 false in
  let* _ := threeWorld_addSocket socket2 in
  let* id3 := newID in
  let ball := mkBall id3 (socket_id socket1) (socket_id socket2) ballRadius tempMatrix1 in
  let* _ := threeWorld_addBall ball in
  balls_push ball.

(** [array.forEach(callback)]: a [return] ends one call of the callback,
    an exception ends the loop. *)
Fixpoint forEach {A : Type} (callback : A -> M num unit) (array : list A) : M num unit :=
  match array with
  | [] => ret tt
  | x :: array' =>
      fun w =>
        match callback x w with
        | (Throw, w') => (Throw, w')
        | (_, w') => forEach callback array' w'
        end
  end.

(** [addCrossLinks(crossLinkStr)] *)
Definition addCrossLinks (crossLinkStr : string)
  : DescWorld num -> Completion * DescWorld num :=
  let crossLinks := split ";" crossLinkStr in
  run (forEach addCrossLinks_callback (crossLinks.1 :: crossLinks.2)).

End Methods.

(** ** Sample environments *)

Module Sample.

(** [Math.cos(Math.PI / 2)] and [Math.sin(Math.PI / 2)] as V8 computes
    them: 6.123233995736766e-17 and 1. *)
Definition cos (_ : spec_float) : spec_float := B64.of_Z_exp 4967757600021511 (-106).
Definition sin (_ : spec_float) : spec_float := B64.of_nat 1.

#[export] Instance math : Math spec_float :=
  {| Math_cos := cos; Math_sin := sin; Math_PI := B64.PI |}.

Definition identity : Matrix4 spec_float :=
  let o := B64.of_nat 0 in
  let i := B64.of_nat 1 in
  mkMatrix4 i o o o  o i o o  o o i o  o o o i.

Definition temps0 : Temps spec_float := mkTemps identity identity identity.

(** Identifiers "id0", "id1", ... in the order of the calls. *)
Definition ids (k : nat) : string := "id" +:+ pretty k.

(** Radii and lengths of 1, 1/4, 1 and 1/2. *)
#[export] Instance imports : Imports spec_float :=
  {| residueRadius := B64.of_nat 1;
     socketRadius := B64.of_Z_exp 1 (-2);
     socketLength := B64.of_nat 1;
     ballRadius := B64.of_Z_exp 1 (-1);
     normalVecZ := mkVector3 (B64.of_nat 0) (B64.of_nat 0) (B64.of_nat 1);
     getAlphaOnly := getAlphaOnly_spec;
     nanoid := ids |}.

Definition origin : Vector3 spec_float :=
  mkVector3 (B64.of_nat 0) (B64.of_nat 0) (B64.of_nat 0).

Definition w0 : DescWorld spec_float := DescWorld_new temps0.

(** [addPeptide("P1", "AG", origin)] on a new world. *)
Definition w1 : DescWorld spec_float := (addPeptide "P1" "AG" origin w0).2.

End Sample.

(** * The vocabulary of the properties *)

(** ** Strings *)

(** Every character of [s] satisfies [p]. *)
Fixpoint forall_chars (p : ascii -> bool) (s : string) : bool :=
  match s with
  | EmptyString => true
  | String c s' => p c && forall_chars p s'
  end.

(** [sep] does not occur in [s]. *)
Definition free_of (sep : ascii) (s : string) : bool :=
  forall_chars (fun c => negb (Ascii.eqb c sep)) s.

Definition all_digits (s : string) : bool := forall_chars is_digit s.

(** None of the three separators of the grammar occurs in [s]. *)
Definition separator_free (s : string) : bool :=
  free_of ";" s && free_of "-" s && free_of ":" s.

(** ** Calls, connections, invariants *)

Section Vocabulary.

Context {num : Type} {NumOps : Number num} {MathObj : Math num} {Imp : Imports num}.

(** The residues, the sockets and the balls among the calls [evs], in the
    order of the calls. *)
Definition residues_of (evs : list (Event num)) : list (Residue num) :=
  omap (fun e => match e with AddResidue r => Some r | _ => None end) evs.

Definition sockets_of (evs : list (Event num)) : list (Socket num) :=
  omap (fun e => match e with AddSocket s _ => Some s | _ => None end) evs.

Definition balls_of (evs : list (Event num)) : list (Ball num) :=
  omap (fun e => match e with AddBall b _ => Some b | _ => None end) evs.

(** The rotation every socket of a chain gets. *)
Definition quarter_turn : Matrix4 num :=
  makeRotationAxis normalVecZ (Math_PI / nlit 2)%num.

(** [emitted startPos prevResidue i cs evs]: [evs] is what the loop of
    [addPeptide] sends to the collaborator for the symbols [cs], the first
    of which has index [i], when it starts with [prevResidue].  The
    identifiers and the previous contents [t] of [tempMatrix1] are
    whatever they are. *)
Inductive emitted (startPos : Vector3 num)
  : option (Residue num) -> nat -> list string -> list (Event num) -> Prop :=
| emitted_done prevResidue i :
    emitted startPos prevResidue i [] []
| emitted_first c cs i id evs :
    emitted startPos
      (Some (mkResidue id c residueRadius (clone_setX startPos (residueX startPos i))))
      (S i) cs evs ->
    emitted startPos None i (c :: cs)
      (AddResidue (mkResidue id c residueRadius (clone_setX startPos (residueX startPos i)))
       :: evs)
| emitted_link prevResidue c cs i id id1 id2 id3 t1 t2 t3 evs :
    emitted startPos
      (Some (mkResidue id c residueRadius (clone_setX startPos (residueX startPos i))))
      (S i) cs evs ->
    emitted startPos (Some prevResidue) i (c :: cs)
      (AddResidue (mkResidue id c residueRadius (clone_setX startPos (residueX startPos i)))
       :: AddSocket
            (mkSocket id1 (residue_id prevResidue) socketRadius socketLength
               tempMultiMatrix1 false)
            (multiplyMatrices
               (setPosition t1 (clone_setX startPos (socket1X prevResidue)))
               quarter_turn)
       :: AddSocket
            (mkSocket id2 id socketRadius socketLength tempMultiMatrix1 false)
            (multiplyMatrices
               (setPosition t2 (clone_setX startPos (socket2X (socket1X prevResidue))))
               quarter_turn)
       :: AddBall
            (mkBall id3 id1 id2 ballRadius tempMatrix1)
            (setPosition t3 (clone_setX startPos (ballX (socket1X prevResidue))))
       :: evs).

(** Number of connections the loop makes for [n] symbols. *)
Definition links (prevResidue : option (Residue num)) (n : nat) : nat :=
  match prevResidue with Some _ => n | None => n - 1 end.

(** The three calls of one connection of [addPeptide] between
    [prevResidue] and [residue]: socket 1 on the previous residue, socket 2
    on the current one, and the ball.  [t1], [t2] and [t3] are the contents
    of [tempMatrix1] before each [setPosition]. *)
Definition connection (startPos : Vector3 num) (prevResidue residue : Residue num)
    (id1 id2 id3 : string) (t1 t2 t3 : Matrix4 num) : list (Event num) :=
  [ AddSocket
      (mkSocket id1 (residue_id prevResidue) socketRadius socketLength
         tempMultiMatrix1 false)
      (multiplyMatrices
         (setPosition t1 (clone_setX startPos (socket1X prevResidue))) quarter_turn);
    AddSocket
      (mkSocket id2 (residue_id residue) socketRadius socketLength
         tempMultiMatrix1 false)
      (multiplyMatrices
         (setPosition t2 (clone_setX startPos (socket2X (socket1X prevResidue))))
         quarter_turn);
    AddBall
      (mkBall id3 id1 id2 ballRadius tempMatrix1)
      (setPosition t3 (clone_setX startPos (ballX (socket1X prevResidue)))) ].

(** The residues of a run, after the one it started with, if any. *)
Definition with_prev (prevResidue : option (Residue num)) (rs : list (Residue num))
  : list (Residue num) :=
  match prevResidue with Some p => p :: rs | None => rs end.

(** What a clause whose two endpoints resolve to [residue1] and
    [residue2] sends to the collaborator: two sockets and a ball, all three
    with a reference to [tempMatrix1], whatever it holds. *)
Definition cross_link_events (w : DescWorld num) (residue1 residue2 : Residue num)
  : list (Event num) :=
  let k := idCalls w in
  let m := at_tempMatrix1 (temps w) in
  [ AddSocket
      (mkSocket (nanoid k) (residue_id residue1) socketRadius socketLength
         tempMatrix1 false) m;
    AddSocket
      (mkSocket (nanoid (S k)) (residue_id residue2) socketRadius socketLength
         tempMatrix1 false) m;
    AddBall
      (mkBall (nanoid (S (S k))) (nanoid k) (nanoid (S k)) ballRadius tempMatrix1) m ].

(** The state after that clause. *)
Definition cross_linked (w : DescWorld num) (residue1 residue2 : Residue num)
  : DescWorld num :=
  mkDescWorld (peptides w)
    (balls w ++ balls_of (cross_link_events w residue1 residue2))
    (threeWorld w ++ cross_link_events w residue1 residue2)
    (temps w) (S (S (S (idCalls w)))).

(** Chain [chain] exists and has, at the 1-based index [k], the residue
    [r], whose symbol is [x]. *)
Definition has_symbol (w : DescWorld num) (chain : string) (k : N) (x : ascii)
    (r : Residue num) : Prop :=
  exists p, peptides w !! chain = Some p
            /\ (1 <= k)%N /\ p !! (N.to_nat k - 1)%nat = Some r
            /\ residue_name r = String x EmptyString.

(** What must hold of an event when it reaches the collaborator, [pre]
    being the calls received before it: a socket names a residue that has
    been created; a ball names the two sockets created right before it. *)
Definition linked_at (pre : list (Event num)) (e : Event num) : Prop :=
  match e with
  | AddResidue _ => True
  | AddSocket s _ =>
      exists r, r ∈ residues_of pre /\ socket_residueId s = residue_id r
  | AddBall b _ =>
      exists pre' s1 m1 s2 m2,
        pre = pre' ++ [AddSocket s1 m1; AddSocket s2 m2]
        /\ ball_socket1Id b = socket_id s1
        /\ ball_socket2Id b = socket_id s2
  end.

(** It holds of every event of the log, at the time of the event. *)
Definition well_linked (log : list (Event num)) : Prop :=
  forall pre e post, log = pre ++ e :: post -> linked_at pre e.

(** The invariant of a [DescWorld]. *)
Record Inv (w : DescWorld num) : Prop := mkInv {
  inv_log : well_linked (threeWorld w);
  inv_balls : balls w = balls_of (threeWorld w);
  inv_peptides :
    forall chain p r, peptides w !! chain = Some p -> r ∈ p ->
      r ∈ residues_of (threeWorld w)
}.

(** The states a [DescWorld] goes through: a new one, then any calls of
    the two methods.  A call of [addCrossLinks] that throws leaves a state
    too.  Between two calls nothing else writes the scratch matrices here;
    [reachable_shared] below lets the rest of the program write them. *)
Inductive reachable (t : Temps num) : DescWorld num -> Prop :=
| reachable_new : reachable t (DescWorld_new t)
| reachable_addPeptide w name sequence startPos :
    reachable t w -> reachable t (addPeptide name sequence startPos w).2
| reachable_addCrossLinks w crossLinkStr :
    reachable t w -> reachable t (addCrossLinks crossLinkStr w).2.

(** The state after [addPeptide("P1", "AG", s1)] and
    [addPeptide("P2", "GA", s2)] on a new [DescWorld]. *)
Definition two_chains (t : Temps num) (s1 s2 : Vector3 num) : DescWorld num :=
  (addPeptide "P2" "GA" s2 (addPeptide "P1" "AG" s1 (DescWorld_new t)).2).2.

End Vocabulary.

(** The x-coordinates of the residues of a chain, and the x-coordinate a
    call of the collaborator carries. *)
Definition chain_xs {num : Type} (w : DescWorld num) (name : string) : list num :=
  (fun r => vx (residue_pos r)) <$> default [] (peptides w !! name).

Definition event_x {num : Type} (e : Event num) : num :=
  match e with
  | AddResidue r => vx (residue_pos r)
  | AddSocket _ m => vx (position m)
  | AddBall _ m => vx (position m)
  end.

(** ** The layout in checked doubles *)

Section CheckedVocabulary.

Context {MathObj : Math spec_float} {Imp : Imports spec_float}.

#[local] Existing Instance Checked.number.

(** [Math.cos] and [Math.sin] return the double they return: it is taken
    as it is. *)
Definition checked_math : Math Checked.t :=
  {| Math_cos := fun a => Checked.lift (Math_cos a.1);
     Math_sin := fun a => Checked.lift (Math_sin a.1);
     Math_PI := Checked.lift Math_PI |}.

Definition lift_vector (v : Vector3 spec_float) : Vector3 Checked.t :=
  mkVector3 (Checked.lift (vx v)) (Checked.lift (vy v)) (Checked.lift (vz v)).

Definition lift_matrix (m : Matrix4 spec_float) : Matrix4 Checked.t :=
  let l := Checked.lift in
  mkMatrix4 (l (n11 m)) (l (n12 m)) (l (n13 m)) (l (n14 m))
            (l (n21 m)) (l (n22 m)) (l (n23 m)) (l (n24 m))
            (l (n31 m)) (l (n32 m)) (l (n33 m)) (l (n34 m))
            (l (n41 m)) (l (n42 m)) (l (n43 m)) (l (n44 m)).

Definition checked_imports : Imports Checked.t :=
  {| residueRadius := Checked.lift residueRadius;
     socketRadius := Checked.lift socketRadius;
     socketLength := Checked.lift socketLength;
     ballRadius := Checked.lift ballRadius;
     normalVecZ := lift_vector normalVecZ;
     getAlphaOnly := getAlphaOnly;
     nanoid := nanoid |}.

#[local] Existing Instance checked_math.
#[local] Existing Instance checked_imports.

(** The numbers three doubles stand for. *)
Definition value_vector (v : Vector3 spec_float) : option (Vector3 Qc) :=
  match B64.value (vx v), B64.value (vy v), B64.value (vz v) with
  | Some x, Some y, Some z => Some (mkVector3 x y z)
  | _, _, _ => None
  end.

(** The numbers of a checked vector, when the three of them are exact. *)
Definition exact_vector (v : Vector3 Checked.t) : option (Vector3 Qc) :=
  match (vx v).2, (vy v).2, (vz v).2 with
  | Some x, Some y, Some z => Some (mkVector3 x y z)
  | _, _, _ => None
  end.

(** [residueX] for the index [i], computed by the formula of the code in
    checked doubles: [Some q] when none of its operations rounds or
    overflows, [q] being the result. *)
Definition exact_residueX (startPos : Vector3 spec_float) (i : nat) : option Qc :=
  (residueX (lift_vector startPos) i).2.

(** The connection after the residue of index [j], by the code of
    [addPeptide] in checked doubles: the residue, [socket1X], the
    translation of the transform of a socket positioned at [x] ([t] being
    what [tempMatrix1] holds), and from them the two sockets and
    [ballX]. *)
Definition checked_prev (startPos : Vector3 spec_float) (j : nat) : Residue Checked.t :=
  mkResidue "" "" residueRadius
    (clone_setX (lift_vector startPos) (residueX (lift_vector startPos) j)).

Definition checked_socket1X (startPos : Vector3 spec_float) (j : nat) : Checked.t :=
  socket1X (checked_prev startPos j).

Definition checked_socket (t : Matrix4 spec_float) (startPos : Vector3 spec_float)
    (x : Checked.t) : Vector3 Checked.t :=
  position
    (multiplyMatrices (setPosition (lift_matrix t) (clone_setX (lift_vector startPos) x))
       quarter_turn).

Definition exact_socket1 (t : Matrix4 spec_float) (startPos : Vector3 spec_float)
    (j : nat) : option (Vector3 Qc) :=
  exact_vector (checked_socket t startPos (checked_socket1X startPos j)).

Definition exact_socket2 (t : Matrix4 spec_float) (startPos : Vector3 spec_float)
    (j : nat) : option (Vector3 Qc) :=
  exact_vector (checked_socket t startPos (socket2X (checked_socket1X startPos j))).

Definition exact_ballX (startPos : Vector3 spec_float) (j : nat) : option Qc :=
  (ballX (checked_socket1X startPos j)).2.

End CheckedVocabulary.

(** ** Identifiers, fields and scratch matrices *)

(** The clauses of a specification string: [crossLinkStr.split(";")] as
    a list. *)
Definition clauses (crossLinkStr : string) : list string :=
  (split ";" crossLinkStr).1 :: (split ";" crossLinkStr).2.

(** A string of [k] zeros. *)
Fixpoint zeros (k : nat) : string :=
  match k with
  | O => EmptyString
  | S k' => String "0" (zeros k')
  end.

(** [s] is empty or starts with a character that is not a digit. *)
Definition no_leading_digit (s : string) : bool :=
  match s with
  | EmptyString => true
  | String c _ => negb (is_digit c)
  end.

Section FurtherVocabulary.

Context {num : Type} {NumOps : Number num} {MathObj : Math num} {Imp : Imports num}.

(** The identifier of the primitive a call carries, and its transform. *)
Definition event_id (e : Event num) : string :=
  match e with
  | AddResidue r => residue_id r
  | AddSocket s _ => socket_id s
  | AddBall b _ => ball_id b
  end.

Definition event_matrix (e : Event num) : option (Matrix4 num) :=
  match e with
  | AddResidue _ => None
  | AddSocket _ m => Some m
  | AddBall _ m => Some m
  end.

(** The fields the constructors are always called with: the radii and the
    length of [constants.ts], [isBond] left at its default, a symbol of one
    character, and a reference to a scratch matrix. *)
Definition as_constructed (e : Event num) : Prop :=
  match e with
  | AddResidue r =>
      residue_radius r = residueRadius /\ String.length (residue_name r) = 1
  | AddSocket s _ =>
      socket_radius s = socketRadius /\ socket_length s = socketLength
      /\ socket_isBond s = false
      /\ (socket_matrix s = tempMultiMatrix1 \/ socket_matrix s = tempMatrix1)
  | AddBall b _ =>
      ball_radius b = ballRadius /\ ball_matrix b = tempMatrix1
  end.

(** A second invariant of a [DescWorld], [t0] being the scratch matrices
    it was created with: one identifier is drawn per call of the
    collaborator, in the order of the calls; the primitives are as
    constructed; sockets come two to a ball; [tempMatrix1] has only ever
    been given positions. *)
Record LogInv (t0 : Temps num) (w : DescWorld num) : Prop := mkLogInv {
  li_calls : idCalls w = length (threeWorld w);
  li_ids : forall k e, threeWorld w !! k = Some e -> event_id e = nanoid k;
  li_fields : forall e, e ∈ threeWorld w -> as_constructed e;
  li_pairs : length (sockets_of (threeWorld w)) = 2 * length (balls_of (threeWorld w));
  li_temp1 :
    forall v, setPosition (at_tempMatrix1 (temps w)) v = setPosition (at_tempMatrix1 t0) v
}.

(** The transforms the balls were sent with, in the order of the calls. *)
Definition ball_transforms (evs : list (Event num)) : list (Matrix4 num) :=
  omap (fun e => match e with AddBall _ m => Some m | _ => None end) evs.

(** A third invariant: [tempMatrix1] holds what the last ball was sent
    with, or what it held at first when no ball has been sent; and every
    ball was sent with the first contents of [tempMatrix1] moved to some
    position. *)
Record TransformInv (t0 : Temps num) (w : DescWorld num) : Prop := mkTransformInv {
  ti_last :
    at_tempMatrix1 (temps w)
    = default (at_tempMatrix1 t0) (last (ball_transforms (threeWorld w)));
  ti_balls :
    forall m, m ∈ ball_transforms (threeWorld w) ->
      forall v, setPosition m v = setPosition (at_tempMatrix1 t0) v
}.

(** What [addCrossLinks] may do to a state [w]: nothing to the registry
    and to the scratch matrices, and to the collaborator only further
    calls [evs], none of them a residue, each with the contents of
    [tempMatrix1]. *)
Definition cross_links_added (w w' : DescWorld num) (evs : list (Event num)) : Prop :=
  peptides w' = peptides w
  /\ temps w' = temps w
  /\ threeWorld w' = threeWorld w ++ evs
  /\ balls w' = balls w ++ balls_of evs
  /\ idCalls w' = idCalls w + length evs
  /\ residues_of evs = []
  /\ length (sockets_of evs) = 2 * length (balls_of evs)
  /\ forall e, e ∈ evs -> event_matrix e = Some (at_tempMatrix1 (temps w)).

(** The transforms the sockets that reference [tempMultiMatrix1], those
    of [addPeptide], were sent with, in the order of the calls. *)
Definition chain_socket_transforms (evs : list (Event num)) : list (Matrix4 num) :=
  omap (fun e =>
          match e with
          | AddSocket s m =>
              match socket_matrix s with tempMultiMatrix1 => Some m | _ => None end
          | _ => None
          end) evs.

(** [emitted_from t0 startPos prevResidue i cs evs]: as [emitted], for
    a loop that starts with [tempMatrix1] holding [t0] up to its position.
    [setPosition] overwrites the position and nothing else, so every
    socket and every ball of the loop is positioned on [t0]. *)
Inductive emitted_from (t0 : Matrix4 num) (startPos : Vector3 num)
  : option (Residue num) -> nat -> list string -> list (Event num) -> Prop :=
| emitted_from_done prevResidue i :
    emitted_from t0 startPos prevResidue i [] []
| emitted_from_first c cs i id evs :
    emitted_from t0 startPos
      (Some (mkResidue id c residueRadius (clone_setX startPos (residueX startPos i))))
      (S i) cs evs ->
    emitted_from t0 startPos None i (c :: cs)
      (AddResidue (mkResidue id c residueRadius (clone_setX startPos (residueX startPos i)))
       :: evs)
| emitted_from_link prevResidue c cs i id id1 id2 id3 evs :
    emitted_from t0 startPos
      (Some (mkResidue id c residueRadius (clone_setX startPos (residueX startPos i))))
      (S i) cs evs ->
    emitted_from t0 startPos (Some prevResidue) i (c :: cs)
      (AddResidue (mkResidue id c residueRadius (clone_setX startPos (residueX startPos i)))
       :: connection startPos prevResidue
            (mkResidue id c residueRadius (clone_setX startPos (residueX startPos i)))
            id1 id2 id3 t0 t0 t0
       ++ evs).

(** The states a [DescWorld] goes through in a program that has more in
    it: the three scratch matrices are objects of the module
    [constants.ts], which any other [DescWorld] and any other importer of
    that module may write between two calls of this one. *)
Inductive reachable_shared (t : Temps num) : DescWorld num -> Prop :=
| shared_new : reachable_shared t (DescWorld_new t)
| shared_addPeptide w name sequence startPos :
    reachable_shared t w -> reachable_shared t (addPeptide name sequence startPos w).2
| shared_addCrossLinks w crossLinkStr :
    reachable_shared t w -> reachable_shared t (addCrossLinks crossLinkStr w).2
| shared_written w t' :
    reachable_shared t w ->
    reachable_shared t
      (mkDescWorld (peptides w) (balls w) (threeWorld w) t' (idCalls w)).

(** The endpoint [chain:token] resolves to the residue [r] in [w]: the
    token has a digit run, the registry has [r] at its index, and
    [getAlphaOnly] of the token is the symbol of [r]. *)
Definition endpoint_resolves (w : DescWorld num) (chain token : string)
    (r : Residue num) : Prop :=
  exists d, match_digits token = Some d
            /\ residue_at w chain (parseInt d) = Some r
            /\ getAlphaOnly token = residue_name r.

End FurtherVocabulary.

(** ** Classes of doubles *)

(** A double that is a number, not an infinity and not NaN. *)
Definition is_finite (x : spec_float) : bool :=
  match x with
  | S754_zero _ | S754_finite _ _ _ => true
  | _ => false
  end.

Definition is_nan (x : spec_float) : bool :=
  match x with S754_nan => true | _ => false end.

(** * Properties *)

(** ** Strings *)

Lemma split_chars_length (s : string) : length (split_chars s) = String.length s.
Proof. induction s as [|c s IH]; simpl; [reflexivity | now rewrite IH]. Qed.

Lemma split_chars_lookup (s : string) (i : nat) :
  split_chars s !! i = (fun c => String c EmptyString) <$> String.get i s.
Proof.
  revert i. induction s as [|c s IH]; intros [|i]; simpl; try reflexivity.
  apply IH.
Qed.

Lemma index_N_lookup {A : Type} (a : list A) (i : N) : index_N a i = a !! N.to_nat i.
Proof.
  revert i. induction a as [|x a IH]; intros i; simpl.
  - reflexivity.
  - destruct (N.eqb_spec i 0) as [->|Hi]; [reflexivity|].
    rewrite IH. replace (N.to_nat i) with (S (N.to_nat (N.pred i))) by lia.
    reflexivity.
Qed.

(** ** The calls one run of [addPeptide] makes *)

Section Trace.

Context {num : Type} {NumOps : Number num} {MathObj : Math num} {Imp : Imports num}.

Lemma residues_of_cons (e : Event num) (evs : list (Event num)) :
  residues_of (e :: evs)
  = match e with AddResidue r => r :: residues_of evs | _ => residues_of evs end.
Proof. now destruct e. Qed.

Lemma sockets_of_cons (e : Event num) (evs : list (Event num)) :
  sockets_of (e :: evs)
  = match e with AddSocket s _ => s :: sockets_of evs | _ => sockets_of evs end.
Proof. now destruct e. Qed.

Lemma balls_of_cons (e : Event num) (evs : list (Event num)) :
  balls_of (e :: evs)
  = match e with AddBall b _ => b :: balls_of evs | _ => balls_of evs end.
Proof. now destruct e. Qed.

Lemma residues_of_app (evs1 evs2 : list (Event num)) :
  residues_of (evs1 ++ evs2) = residues_of evs1 ++ residues_of evs2.
Proof. apply omap_app. Qed.

Lemma sockets_of_app (evs1 evs2 : list (Event num)) :
  sockets_of (evs1 ++ evs2) = sockets_of evs1 ++ sockets_of evs2.
Proof. apply omap_app. Qed.

Lemma balls_of_app (evs1 evs2 : list (Event num)) :
  balls_of (evs1 ++ evs2) = balls_of evs1 ++ balls_of evs2.
Proof. apply omap_app. Qed.

Lemma alter_push_app (name : string) (r : Residue num) (rs : list (Residue num))
    (m : gmap string (Peptide num)) :
  alter (fun p => p ++ rs) name (alter (fun p => p ++ [r]) name m)
  = alter (fun p => p ++ r :: rs) name m.
Proof.
  rewrite alter_alter_eq. apply alter_ext. intros p _. simpl.
  now rewrite <- app_assoc.
Qed.

(** The callback on the first symbol of a sequence. *)
Lemma addPeptide_callback_first (name : string) (startPos : Vector3 num)
    (c : string) (i : nat) (w : DescWorld num) :
  let residue :=
    mkResidue (nanoid (idCalls w)) c residueRadius
      (clone_setX startPos (residueX startPos i)) in
  addPeptide_callback name startPos None c i w
  = (Next (Some residue),
     mkDescWorld (alter (fun p => p ++ [residue]) name (peptides w)) (balls w)
       (threeWorld w ++ [AddResidue residue]) (temps w) (S (idCalls w))).
Proof. reflexivity. Qed.

(** The callback on a later symbol: a residue, two sockets and a ball. *)
Lemma addPeptide_callback_link (name : string) (startPos : Vector3 num)
    (prevResidue : Residue num) (c : string) (i : nat) (w : DescWorld num) :
  let k := idCalls w in
  let residue :=
    mkResidue (nanoid k) c residueRadius (clone_setX startPos (residueX startPos i)) in
  let socket1 :=
    mkSocket (nanoid (S k)) (residue_id prevResidue) socketRadius socketLength
      tempMultiMatrix1 false in
  let socket2 :=
    mkSocket (nanoid (S (S k))) (nanoid k) socketRadius socketLength
      tempMultiMatrix1 false in
  let ball := mkBall (nanoid (S (S (S k)))) (nanoid (S k)) (nanoid (S (S k)))
                ballRadius tempMatrix1 in
  let p1 := setPosition (at_tempMatrix1 (temps w))
              (clone_setX startPos (socket1X prevResidue)) in
  let p2 := setPosition p1 (clone_setX startPos (socket2X (socket1X prevResidue))) in
  let p3 := setPosition p2 (clone_setX startPos (ballX (socket1X prevResidue))) in
  addPeptide_callback name startPos (Some prevResidue) c i w
  = (Next (Some residue),
     mkDescWorld (alter (fun p => p ++ [residue]) name (peptides w))
       (balls w ++ [ball])
       ((((threeWorld w ++ [AddResidue residue])
          ++ [AddSocket socket1 (multiplyMatrices p1 quarter_turn)])
         ++ [AddSocket socket2 (multiplyMatrices p2 quarter_turn)])
        ++ [AddBall ball p3])
       (mkTemps p3 quarter_turn (multiplyMatrices p2 quarter_turn))
       (S (S (S (S k))))).
Proof. reflexivity. Qed.

Lemma addPeptide_forEach_trace (name : string) (startPos : Vector3 num) (cs : list string) :
  forall prevResidue i w, exists evs t n,
    addPeptide_forEach name startPos prevResidue cs i w
    = (Next tt,
       mkDescWorld (alter (fun p => p ++ residues_of evs) name (peptides w))
                   (balls w ++ balls_of evs) (threeWorld w ++ evs) t (idCalls w + n))
    /\ emitted startPos prevResidue i cs evs.
Proof.
  induction cs as [|c cs IH]; intros prevResidue i w.
  - exists [], (temps w), 0. split; [|constructor].
    destruct w as [ps bs tw t k]. simpl. unfold ret. do 2 f_equal.
    + symmetry. apply alter_id. intros p _. apply app_nil_r.
    + symmetry. apply app_nil_r.
    + symmetry. apply app_nil_r.
    + lia.
  - cbn [addPeptide_forEach]. unfold bind at 1.
    destruct prevResidue as [prevResidue|].
    + rewrite addPeptide_callback_link. cbv zeta.
      match goal with |- context [addPeptide_forEach _ _ ?p _ _ ?w'] =>
        destruct (IH p (S i) w') as (evs & t & n & -> & Hem) end.
      cbn [peptides balls threeWorld temps idCalls].
      eexists (_ :: _ :: _ :: _ :: evs), t, (4 + n). split.
      * f_equal. f_equal.
        3: now rewrite <- !app_assoc.
        -- apply alter_push_app.
        -- now rewrite <- app_assoc.
        -- lia.
      * now constructor.
    + rewrite addPeptide_callback_first. cbv zeta.
      match goal with |- context [addPeptide_forEach _ _ ?p _ _ ?w'] =>
        destruct (IH p (S i) w') as (evs & t & n & -> & Hem) end.
      cbn [peptides balls threeWorld temps idCalls].
      eexists (_ :: evs), t, (1 + n). split.
      * f_equal. f_equal.
        3: now rewrite <- !app_assoc.
        -- apply alter_push_app.
        -- reflexivity.
        -- lia.
      * now constructor.
Qed.

(** The whole method: it ends normally, stores the residues it has
    created under [name], and appends to the ball list and to the calls of
    the collaborator. *)
Lemma addPeptide_trace (name sequence : string) (startPos : Vector3 num)
    (w : DescWorld num) :
  exists evs t n,
    addPeptide name sequence startPos w
    = (Normal,
       mkDescWorld (<[name := residues_of evs]> (peptides w))
                   (balls w ++ balls_of evs) (threeWorld w ++ evs) t (idCalls w + n))
    /\ emitted startPos None 0 (split_chars sequence) evs.
Proof.
  unfold addPeptide, run, bind at 1. unfold peptides_set, modify.
  match goal with |- context [addPeptide_forEach _ _ ?p _ _ ?w'] =>
    destruct (addPeptide_forEach_trace name startPos (split_chars sequence) p 0 w')
      as (evs & t & n & -> & Hem) end.
  cbn [peptides balls threeWorld temps idCalls].
  exists evs, t, n. split; [|exact Hem].
  now rewrite alter_insert_eq.
Qed.

Lemma emitted_counts startPos prevResidue i cs evs :
  emitted startPos prevResidue i cs evs ->
  length (residues_of evs) = length cs
  /\ length (sockets_of evs) = 2 * links prevResidue (length cs)
  /\ length (balls_of evs) = links prevResidue (length cs)
  /\ length evs = length cs + 3 * links prevResidue (length cs).
Proof.
  induction 1 as [| c cs i id evs _ IH | p c cs i id id1 id2 id3 t1 t2 t3 evs _ IH];
    rewrite ?residues_of_cons, ?sockets_of_cons, ?balls_of_cons;
    cbn [length links] in *.
  - destruct prevResidue; auto.
  - destruct IH as (-> & -> & -> & ->). repeat split; lia.
  - destruct IH as (-> & -> & -> & ->). repeat split; lia.
Qed.

Lemma emitted_names startPos prevResidue i cs evs :
  emitted startPos prevResidue i cs evs -> residue_name <$> residues_of evs = cs.
Proof.
  induction 1 as [| c cs i id evs _ IH | p c cs i id id1 id2 id3 t1 t2 t3 evs _ IH];
    rewrite ?residues_of_cons, ?fmap_cons; cbn [residue_name].
  - reflexivity.
  - now rewrite IH.
  - now rewrite IH.
Qed.

Lemma emitted_residue startPos prevResidue i cs evs :
  emitted startPos prevResidue i cs evs ->
  forall j r, residues_of evs !! j = Some r ->
    residue_radius r = residueRadius
    /\ residue_pos r = clone_setX startPos (residueX startPos (i + j)).
Proof.
  induction 1 as [| c cs i id evs _ IH | p c cs i id id1 id2 id3 t1 t2 t3 evs _ IH];
    intros j r; rewrite ?residues_of_cons.
  - intros Hj. discriminate Hj.
  - destruct j as [|j]; cbn [lookup list_lookup].
    + intros [= <-]. rewrite Nat.add_0_r. now split.
    + intros Hj. rewrite <- Nat.add_succ_comm. now apply IH.
  - destruct j as [|j]; cbn [lookup list_lookup].
    + intros [= <-]. rewrite Nat.add_0_r. now split.
    + intros Hj. rewrite <- Nat.add_succ_comm. now apply IH.
Qed.

(** The sockets of a chain all refer to the one scratch matrix
    [tempMultiMatrix1] and the balls to [tempMatrix1]: a socket or a ball
    has the transform it was given only until the next one is made. *)
Lemma emitted_matrix_refs startPos prevResidue i cs evs :
  emitted startPos prevResidue i cs evs ->
  (forall s, s ∈ sockets_of evs -> socket_matrix s = tempMultiMatrix1)
  /\ (forall b, b ∈ balls_of evs -> ball_matrix b = tempMatrix1).
Proof.
  induction 1 as [| c cs i id evs _ IH | p c cs i id id1 id2 id3 t1 t2 t3 evs _ IH];
    rewrite ?sockets_of_cons, ?balls_of_cons.
  - split; intros x Hx; inversion Hx.
  - exact IH.
  - destruct IH as [IHs IHb]. split.
    + intros s Hs. rewrite !elem_of_cons in Hs.
      destruct Hs as [-> | [-> | Hs]]; [reflexivity | reflexivity | now apply IHs].
    + intros b Hb. rewrite elem_of_cons in Hb.
      destruct Hb as [-> | Hb]; [reflexivity | now apply IHb].
Qed.

End Trace.

(** ** C3: how many primitives [addPeptide] makes *)

Section Counts.

Context {num : Type} {NumOps : Number num} {MathObj : Math num} {Imp : Imports num}.

(** C3.  For a sequence of [n] symbols [addPeptide] ends normally, sends
    the collaborator a list of calls with exactly [n] residues,
    [2 * (n - 1)] sockets and [n - 1] balls, stores a chain of [n]
    residues under the name and pushes [n - 1] balls on its list.  The
    subtraction is that of the naturals: for [n = 0] there are no
    residues, no sockets and no balls. *)
Theorem addPeptide_counts (name sequence : string) (startPos : Vector3 num)
    (w : DescWorld num) :
  let n := String.length sequence in
  exists w' evs chain,
    addPeptide name sequence startPos w = (Normal, w')
    /\ threeWorld w' = threeWorld w ++ evs
    /\ length (residues_of evs) = n
    /\ length (sockets_of evs) = 2 * (n - 1)
    /\ length (balls_of evs) = n - 1
    /\ length evs = n + 2 * (n - 1) + (n - 1)
    /\ peptides w' !! name = Some chain /\ length chain = n
    /\ length (balls w') = length (balls w) + (n - 1).
Proof.
  intros n.
  destruct (addPeptide_trace name sequence startPos w) as (evs & t & k & Heq & Hem).
  destruct (emitted_counts _ _ _ _ _ Hem) as (Hr & Hs & Hb & He).
  rewrite split_chars_length in Hr, Hs, Hb, He. cbn [links] in Hs, Hb, He.
  fold n in Hr, Hs, Hb, He.
  eexists _, evs, (residues_of evs). split; [exact Heq|].
  cbn [threeWorld peptides balls].
  repeat split; try assumption.
  - lia.
  - apply lookup_insert_eq.
  - rewrite length_app. lia.
Qed.

End Counts.

(** ** The chain [addPeptide] registers *)

Section Chain.

Context {num : Type} {NumOps : Number num} {MathObj : Math num} {Imp : Imports num}.

(** The residues stored under [name] are the residues the call has sent
    to the collaborator, one per symbol and in the order of the sequence;
    the residue of index [i] sits at [residueX startPos i] on the line
    through [startPos]. *)
Lemma addPeptide_chain (name sequence : string) (startPos : Vector3 num)
    (w : DescWorld num) :
  exists w' evs,
    addPeptide name sequence startPos w = (Normal, w')
    /\ threeWorld w' = threeWorld w ++ evs
    /\ peptides w' = <[name := residues_of evs]> (peptides w)
    /\ residue_name <$> residues_of evs = split_chars sequence
    /\ forall i r, residues_of evs !! i = Some r ->
         residue_pos r
         = mkVector3 (residueX startPos i) (vy startPos) (vz startPos).
Proof.
  destruct (addPeptide_trace name sequence startPos w) as (evs & t & k & Heq & Hem).
  eexists _, evs. split; [exact Heq|]. cbn [threeWorld peptides].
  repeat split.
  - eapply emitted_names, Hem.
  - intros i r Hi. now destruct (emitted_residue _ _ _ _ _ Hem i r Hi) as [_ ->].
Qed.

(** Positions of the residues, for any arithmetic: the x-coordinate is
    the value of the expression of the source, evaluated with the
    operations of the numbers at hand, and y and z are those of
    [startPos]. *)
Lemma addPeptide_residue_positions (name sequence : string) (startPos : Vector3 num)
    (w : DescWorld num) :
  exists chain,
    peptides (addPeptide name sequence startPos w).2 !! name = Some chain
    /\ length chain = String.length sequence
    /\ forall i r, chain !! i = Some r ->
         vx (residue_pos r)
         = (vx startPos
            + (socketLength + residueRadius + ballRadius) * nlit 2 * nlit i)%num
         /\ vy (residue_pos r) = vy startPos
         /\ vz (residue_pos r) = vz startPos.
Proof.
  destruct (addPeptide_chain name sequence startPos w)
    as (w' & evs & -> & _ & Hp & Hn & Hpos).
  exists (residues_of evs). cbn [snd]. rewrite Hp, lookup_insert_eq.
  split; [reflexivity|]. split.
  - rewrite <- split_chars_length, <- Hn. now rewrite length_fmap.
  - intros i r Hi. now rewrite (Hpos i r Hi).
Qed.

(** C8.  When [name] is already in the registry, [addPeptide] ends
    normally all the same; afterwards the name maps to the residues created
    by this call and to nothing else, whatever chain was there before, and
    the other names keep their chains. *)
Theorem addPeptide_last_write_wins (name sequence : string) (startPos : Vector3 num)
    (w : DescWorld num) (old : Peptide num) :
  peptides w !! name = Some old ->
  exists w' evs,
    addPeptide name sequence startPos w = (Normal, w')
    /\ threeWorld w' = threeWorld w ++ evs
    /\ peptides w' !! name = Some (residues_of evs)
    /\ residue_name <$> residues_of evs = split_chars sequence
    /\ forall other, other <> name -> peptides w' !! other = peptides w !! other.
Proof.
  intros _.
  destruct (addPeptide_chain name sequence startPos w)
    as (w' & evs & Heq & Hlog & Hp & Hn & _).
  exists w', evs. rewrite Hp. repeat split; try assumption.
  - apply lookup_insert_eq.
  - intros other Hne. now apply lookup_insert_ne.
Qed.

(** C9.  In the chain built from [sequence], the lookup of cross-link
    resolution, [this.peptides.get(name)?.[k - 1]], finds for every [k]
    from 1 to the length of the sequence a residue whose symbol is
    character [k - 1] of the sequence. *)
Theorem addPeptide_one_based_symbols (name sequence : string) (startPos : Vector3 num)
    (w : DescWorld num) (k : nat) :
  1 <= k <= String.length sequence ->
  exists r c,
    residue_at (addPeptide name sequence startPos w).2 name (N.of_nat k) = Some r
    /\ String.get (k - 1) sequence = Some c
    /\ residue_name r = String c EmptyString.
Proof.
  intros Hk.
  destruct (addPeptide_chain name sequence startPos w)
    as (w' & evs & -> & _ & Hp & Hn & _).
  cbn [snd]. unfold residue_at. rewrite Hp, lookup_insert_eq.
  destruct (N.eqb_spec (N.of_nat k) 0) as [Hz|_]; [lia|].
  rewrite index_N_lookup. replace (N.to_nat (N.of_nat k - 1)) with (k - 1) by lia.
  assert (Hc : split_chars sequence !! (k - 1)
               = (fun c => String c EmptyString) <$> String.get (k - 1) sequence)
    by apply split_chars_lookup.
  rewrite <- Hn, list_lookup_fmap in Hc.
  destruct (residues_of evs !! (k - 1)) as [r|] eqn:Hr.
  - destruct (String.get (k - 1) sequence) as [c|]; [|discriminate Hc].
    exists r, c. injection Hc as Hc. auto.
  - apply lookup_ge_None in Hr.
    assert (length (residues_of evs) = String.length sequence).
    { rewrite <- split_chars_length, <- Hn. now rewrite length_fmap. }
    lia.
Qed.

(** Outside 1 .. length the lookup finds nothing. *)
Lemma addPeptide_index_out_of_range (name sequence : string) (startPos : Vector3 num)
    (w : DescWorld num) (k : N) :
  (k = 0 \/ N.of_nat (String.length sequence) < k)%N ->
  residue_at (addPeptide name sequence startPos w).2 name k = None.
Proof.
  intros Hk.
  destruct (addPeptide_chain name sequence startPos w)
    as (w' & evs & -> & _ & Hp & Hn & _).
  cbn [snd]. unfold residue_at. rewrite Hp, lookup_insert_eq.
  destruct (N.eqb_spec k 0) as [Hz|Hne]; [reflexivity|].
  rewrite index_N_lookup. apply lookup_ge_None.
  assert (length (residues_of evs) = String.length sequence).
  { rewrite <- split_chars_length, <- Hn. now rewrite length_fmap. }
  lia.
Qed.

End Chain.

(** ** The connection between two consecutive residues *)

Section Connections.

Context {num : Type} {NumOps : Number num} {MathObj : Math num} {Imp : Imports num}.

(** [setPosition] then [position]: the ball's transform carries the
    position it was given, in any arithmetic. *)
Lemma position_setPosition (t : Matrix4 num) (v : Vector3 num) :
  position (setPosition t v) = v.
Proof. now destruct v. Qed.

(** Between the residues of index [j] and [j + 1] of a chain the loop
    emits, right after the second of them, one connection. *)
Lemma emitted_connection startPos prevResidue i cs evs :
  emitted startPos prevResidue i cs evs ->
  forall j prev cur,
    with_prev prevResidue (residues_of evs) !! j = Some prev ->
    with_prev prevResidue (residues_of evs) !! S j = Some cur ->
    exists pre post id1 id2 id3 t1 t2 t3,
      evs = pre ++ AddResidue cur
                   :: connection startPos prev cur id1 id2 id3 t1 t2 t3 ++ post
      /\ length (with_prev prevResidue (residues_of pre)) = S j.
Proof.
  induction 1 as [| c cs i id evs _ IH | p c cs i id id1 id2 id3 t1 t2 t3 evs _ IH];
    intros j prev cur; rewrite ?residues_of_cons; cbn [with_prev] in *.
  - destruct prevResidue as [p|]; [destruct j|]; discriminate.
  - intros Hj HSj. destruct (IH j prev cur Hj HSj)
      as (pre & post & i1 & i2 & i3 & u1 & u2 & u3 & -> & Hlen).
    exists (AddResidue (mkResidue id c residueRadius
              (clone_setX startPos (residueX startPos i))) :: pre),
      post, i1, i2, i3, u1, u2, u3.
    split; [reflexivity|]. now rewrite residues_of_cons.
  - destruct j as [|j]; cbn [lookup list_lookup].
    + intros [= <-] [= <-].
      exists [], evs, id1, id2, id3, t1, t2, t3. now split.
    + intros Hj HSj. destruct (IH j prev cur Hj HSj)
        as (pre & post & i1 & i2 & i3 & u1 & u2 & u3 & -> & Hlen).
      pose (r := mkResidue id c residueRadius
                   (clone_setX startPos (residueX startPos i))).
      exists (AddResidue r :: connection startPos p r id1 id2 id3 t1 t2 t3 ++ pre),
        post, i1, i2, i3, u1, u2, u3.
      split; [reflexivity|].
      unfold connection. cbn [app]. rewrite !residues_of_cons. cbn [length] in *.
      now rewrite Hlen.
Qed.

End Connections.

(** ** The loop of [addPeptide] and [tempMatrix1] *)

Section Positioned.

Context {num : Type} {NumOps : Number num} {MathObj : Math num} {Imp : Imports num}.

Lemma emitted_from_emitted t0 startPos prevResidue i cs evs :
  emitted_from t0 startPos prevResidue i cs evs -> emitted startPos prevResidue i cs evs.
Proof.
  induction 1 as [| c cs i id evs _ IH | p c cs i id id1 id2 id3 evs _ IH].
  - constructor.
  - now constructor.
  - unfold connection. cbn [app]. now constructor.
Qed.

Lemma addPeptide_forEach_trace_from (t0 : Matrix4 num) (name : string)
    (startPos : Vector3 num) (cs : list string) :
  forall prevResidue i w,
    (forall v, setPosition (at_tempMatrix1 (temps w)) v = setPosition t0 v) ->
    exists evs t n,
      addPeptide_forEach name startPos prevResidue cs i w
      = (Next tt,
         mkDescWorld (alter (fun p => p ++ residues_of evs) name (peptides w))
                     (balls w ++ balls_of evs) (threeWorld w ++ evs) t (idCalls w + n))
      /\ emitted_from t0 startPos prevResidue i cs evs.
Proof.
  induction cs as [|c cs IH]; intros prevResidue i w Ht.
  - exists [], (temps w), 0. split; [|constructor].
    destruct w as [ps bs tw t k]. simpl. unfold ret. do 2 f_equal.
    + symmetry. apply alter_id. intros p _. apply app_nil_r.
    + symmetry. apply app_nil_r.
    + symmetry. apply app_nil_r.
    + lia.
  - cbn [addPeptide_forEach]. unfold bind at 1.
    destruct prevResidue as [prevResidue|].
    + rewrite addPeptide_callback_link. cbv zeta.
      match goal with |- context [addPeptide_forEach _ _ ?p _ _ ?w'] =>
        destruct (IH p (S i) w') as (evs & t & n & -> & Hem);
          [intros v; cbn [temps at_tempMatrix1]; exact (Ht v)|]
      end.
      cbn [peptides balls threeWorld temps idCalls].
      eexists (_ :: _ :: _ :: _ :: evs), t, (4 + n). split.
      * f_equal. f_equal.
        3: now rewrite <- !app_assoc.
        -- apply alter_push_app.
        -- now rewrite <- app_assoc.
        -- lia.
      * change (setPosition
                  (setPosition
                     (setPosition (at_tempMatrix1 (temps w))
                        (clone_setX startPos (socket1X prevResidue)))
                     (clone_setX startPos (socket2X (socket1X prevResidue))))
                  (clone_setX startPos (ballX (socket1X prevResidue))))
          with (setPosition (at_tempMatrix1 (temps w))
                  (clone_setX startPos (ballX (socket1X prevResidue)))).
        change (setPosition
                  (setPosition (at_tempMatrix1 (temps w))
                     (clone_setX startPos (socket1X prevResidue)))
                  (clone_setX startPos (socket2X (socket1X prevResidue))))
          with (setPosition (at_tempMatrix1 (temps w))
                  (clone_setX startPos (socket2X (socket1X prevResidue)))).
        rewrite !Ht.
        exact (emitted_from_link t0 startPos prevResidue c cs i _ _ _ _ evs Hem).
    + rewrite addPeptide_callback_first. cbv zeta.
      match goal with |- context [addPeptide_forEach _ _ ?p _ _ ?w'] =>
        destruct (IH p (S i) w') as (evs & t & n & -> & Hem); [exact Ht|]
      end.
      cbn [peptides balls threeWorld temps idCalls].
      eexists (_ :: evs), t, (1 + n). split.
      * f_equal. f_equal.
        3: now rewrite <- !app_assoc.
        -- apply alter_push_app.
        -- reflexivity.
        -- lia.
      * now constructor.
Qed.

Lemma addPeptide_trace_from (name sequence : string) (startPos : Vector3 num)
    (w : DescWorld num) :
  exists evs t n,
    addPeptide name sequence startPos w
    = (Normal,
       mkDescWorld (<[name := residues_of evs]> (peptides w))
                   (balls w ++ balls_of evs) (threeWorld w ++ evs) t (idCalls w + n))
    /\ emitted_from (at_tempMatrix1 (temps w)) startPos None 0 (split_chars sequence) evs.
Proof.
  unfold addPeptide, run, bind at 1. unfold peptides_set, modify.
  match goal with |- context [addPeptide_forEach _ _ ?p _ _ ?w'] =>
    destruct (addPeptide_forEach_trace_from (at_tempMatrix1 (temps w)) name startPos
                (split_chars sequence) p 0 w')
      as (evs & t & n & -> & Hem); [reflexivity|]
  end.
  cbn [peptides balls threeWorld temps idCalls].
  exists evs, t, n. split; [|exact Hem].
  now rewrite alter_insert_eq.
Qed.

Lemma emitted_from_connection t0 startPos prevResidue i cs evs :
  emitted_from t0 startPos prevResidue i cs evs ->
  forall j prev cur,
    with_prev prevResidue (residues_of evs) !! j = Some prev ->
    with_prev prevResidue (residues_of evs) !! S j = Some cur ->
    exists pre post id1 id2 id3,
      evs = pre ++ AddResidue cur
                   :: connection startPos prev cur id1 id2 id3 t0 t0 t0 ++ post.
Proof.
  induction 1 as [| c cs i id evs _ IH | p c cs i id id1 id2 id3 evs _ IH];
    intros j prev cur; rewrite ?residues_of_cons; cbn [with_prev] in *.
  - destruct prevResidue as [p|]; [destruct j|]; discriminate.
  - intros Hj HSj. destruct (IH j prev cur Hj HSj)
      as (pre & post & i1 & i2 & i3 & ->).
    exists (AddResidue (mkResidue id c residueRadius
              (clone_setX startPos (residueX startPos i))) :: pre),
      post, i1, i2, i3.
    reflexivity.
  - unfold connection at 1 2. cbn [app]. rewrite !residues_of_cons.
    destruct j as [|j]; cbn [lookup list_lookup].
    + intros [= <-] [= <-].
      exists [], evs, id1, id2, id3. reflexivity.
    + intros Hj HSj. destruct (IH j prev cur Hj HSj)
        as (pre & post & i1 & i2 & i3 & ->).
      pose (r := mkResidue id c residueRadius
                   (clone_setX startPos (residueX startPos i))).
      exists (AddResidue r :: connection startPos p r id1 id2 id3 t0 t0 t0 ++ pre),
        post, i1, i2, i3.
      reflexivity.
Qed.

End Positioned.

(** ** The layout in the doubles of the engine *)

Section CheckedLayout.

Open Scope Qc_scope.

Lemma of_nat_0 : Checked.of_nat 0 = 0.
Proof. apply Qc_is_canon. reflexivity. Qed.

Lemma of_nat_1 : Checked.of_nat 1 = 1.
Proof. apply Qc_is_canon. reflexivity. Qed.

Lemma of_nat_2 : Checked.of_nat 2 = 1 + 1.
Proof. apply Qc_is_canon. reflexivity. Qed.

Lemma of_nat_S (n : nat) : Checked.of_nat (S n) = Checked.of_nat n + 1.
Proof.
  unfold Checked.of_nat, Qcplus. apply Q2Qc_eq_iff. cbn [this Q2Qc].
  rewrite Qred_correct, Nat2Z.inj_succ. unfold Z.succ.
  rewrite inject_Z_plus. reflexivity.
Qed.

Lemma Qc_two_pos : 0 < 1 + 1.
Proof. reflexivity. Qed.

Lemma Qclt_add_pos (x d : Qc) : 0 < d -> x < x + d.
Proof.
  intros Hd. apply Qclt_minus_iff. replace (x + d + - x) with d by ring. exact Hd.
Qed.

(** Along [x + d * i] with a positive step. *)
Lemma affine_lt (x d : Qc) (i j : nat) :
  0 < d -> (i < j)%nat -> x + d * Checked.of_nat i < x + d * Checked.of_nat j.
Proof.
  intros Hd. induction 1 as [|j _ IH].
  - rewrite of_nat_S. replace (x + d * (Checked.of_nat i + 1))
      with (x + d * Checked.of_nat i + d) by ring.
    now apply Qclt_add_pos.
  - eapply Qclt_trans; [exact IH|]. rewrite of_nat_S.
    replace (x + d * (Checked.of_nat j + 1)) with (x + d * Checked.of_nat j + d) by ring.
    now apply Qclt_add_pos.
Qed.

(** A number that has been kept is the number of the double. *)
Lemma same_Some (v : option Qc) (q : Qc) : Checked.same v q = true -> v = Some q.
Proof.
  destruct v as [q'|]; [|discriminate]. cbn [Checked.same]. intros H%Qeq_bool_eq.
  f_equal. now apply Qc_is_canon.
Qed.

Lemma op2_exact f g (a b : Checked.t) (q : Qc) :
  (Checked.op2 f g a b).2 = Some q ->
  exists qa qb, a.2 = Some qa /\ b.2 = Some qb /\ q = g qa qb
                /\ B64.value (f a.1 b.1) = Some q.
Proof.
  unfold Checked.op2. cbn [snd].
  destruct a.2 as [qa|]; [|discriminate]. destruct b.2 as [qb|]; [|discriminate].
  destruct (Checked.same (B64.value (f a.1 b.1)) (g qa qb)) eqn:Hs; [|discriminate].
  intros [= <-]. exists qa, qb. repeat split. now apply same_Some.
Qed.

Lemma lit_exact (n : nat) (q : Qc) :
  (Checked.lit n).2 = Some q ->
  q = Checked.of_nat n /\ B64.value (B64.of_nat n) = Some q.
Proof.
  unfold Checked.lit. cbn [snd].
  destruct (Checked.same (B64.value (B64.of_nat n)) (Checked.of_nat n)) eqn:Hs;
    [|discriminate].
  intros [= <-]. split; [reflexivity | now apply same_Some].
Qed.

Context {MathObj : Math spec_float} {Imp : Imports spec_float}.

#[local] Existing Instance Checked.number.
#[local] Existing Instance checked_math.
#[local] Existing Instance checked_imports.

(** [residueX] without rounding. *)
Lemma exact_residueX_Some (startPos : Vector3 spec_float) (i : nat) (q : Qc) :
  exact_residueX startPos i = Some q ->
  exists qx qs qr qb,
    B64.value (vx startPos) = Some qx
    /\ B64.value socketLength = Some qs
    /\ B64.value residueRadius = Some qr
    /\ B64.value ballRadius = Some qb
    /\ q = qx + (qs + qr + qb) * Checked.of_nat 2 * Checked.of_nat i
    /\ B64.value (residueX startPos i) = Some q.
Proof.
  unfold exact_residueX, residueX. cbn [nadd nmul nlit Checked.number].
  intros H.
  apply op2_exact in H as (qx & q1 & Hx & H1 & -> & Hv).
  apply op2_exact in H1 as (q2 & qi & H2 & Hi & -> & _).
  apply lit_exact in Hi as [-> _].
  apply op2_exact in H2 as (q3 & q2' & H3 & Htwo & -> & _).
  apply lit_exact in Htwo as [-> _].
  apply op2_exact in H3 as (q4 & qb & H4 & Hb & -> & _).
  apply op2_exact in H4 as (qs & qr & Hs & Hr & -> & _).
  exists qx, qs, qr, qb. repeat split; assumption.
Qed.


Lemma step_pos (c : Qc) : 0 < c -> 0 < c * Checked.of_nat 2.
Proof.
  intros Hc. rewrite of_nat_2.
  replace 0 with (0 * (1 + 1)) by ring.
  apply Qcmult_lt_compat_r; [exact Qc_two_pos | exact Hc].
Qed.

(** The residues of a chain whose x-coordinates are computed without
    rounding: the numbers of the doubles are on the line of the formula. *)
Lemma residue_spacing_checked (name sequence : string) (startPos : Vector3 spec_float)
    (w : DescWorld spec_float) :
  exists chain,
    peptides (addPeptide name sequence startPos w).2 !! name = Some chain
    /\ forall i j r r' q q',
         (i < j)%nat -> chain !! i = Some r -> chain !! j = Some r' ->
         exact_residueX startPos i = Some q -> exact_residueX startPos j = Some q' ->
         exists qs qr qb,
           B64.value socketLength = Some qs
           /\ B64.value residueRadius = Some qr
           /\ B64.value ballRadius = Some qb
           /\ B64.value (vx (residue_pos r)) = Some q
           /\ B64.value (vx (residue_pos r')) = Some q'
           /\ (j = S i -> q' - q = Checked.of_nat 2 * (qs + qr + qb))
           /\ (0 < qs + qr + qb -> q < q').
Proof.
  destruct (addPeptide_chain name sequence startPos w)
    as (w' & evs & -> & _ & Hp & Hn & Hpos).
  exists (residues_of evs). cbn [snd]. rewrite Hp, lookup_insert_eq.
  split; [reflexivity|].
  intros i j r r' q q' Hij Hi Hj Hq Hq'.
  rewrite (Hpos i r Hi), (Hpos j r' Hj). cbn [vx].
  apply exact_residueX_Some in Hq as (qx & qs & qr & qb & Hx & Hs & Hr & Hb & -> & Hv).
  apply exact_residueX_Some in Hq'
    as (qx' & qs' & qr' & qb' & Hx' & Hs' & Hr' & Hb' & -> & Hv').
  assert (qx' = qx) as -> by congruence.
  assert (qs' = qs) as -> by congruence.
  assert (qr' = qr) as -> by congruence.
  assert (qb' = qb) as -> by congruence.
  exists qs, qr, qb. repeat (split; [assumption|]). split.
  - intros ->. rewrite (of_nat_S i). ring.
  - intros Hc. apply affine_lt; [now apply step_pos | exact Hij].
Qed.

(** The three formulas of a connection without rounding. *)
Lemma checked_socket1X_Some (startPos : Vector3 spec_float) (j : nat) (q1 : Qc) :
  (checked_socket1X startPos j).2 = Some q1 ->
  exists qp qs qr,
    exact_residueX startPos j = Some qp
    /\ B64.value socketLength = Some qs
    /\ B64.value residueRadius = Some qr
    /\ q1 = qp + qr + qs / Checked.of_nat 2.
Proof.
  unfold checked_socket1X, socket1X, checked_prev.
  cbn [nadd ndiv nlit Checked.number residue_pos vx clone_setX].
  intros H.
  apply op2_exact in H as (q2 & q3 & H2 & H3 & -> & _).
  apply op2_exact in H2 as (qp & qr & Hp & Hr & -> & _).
  apply op2_exact in H3 as (qs & qtwo & Hs & Htwo & -> & _).
  apply lit_exact in Htwo as [-> _].
  exists qp, qs, qr. repeat split; assumption.
Qed.

Lemma socket2X_Some (x : Checked.t) (q2 : Qc) :
  (socket2X x).2 = Some q2 ->
  exists q1 qs qb,
    x.2 = Some q1
    /\ B64.value socketLength = Some qs
    /\ B64.value ballRadius = Some qb
    /\ q2 = q1 + qs + qb * Checked.of_nat 2.
Proof.
  unfold socket2X. cbn [nadd nmul nlit Checked.number].
  intros H.
  apply op2_exact in H as (q3 & q4 & H3 & H4 & -> & _).
  apply op2_exact in H3 as (q1 & qs & H1 & Hs & -> & _).
  apply op2_exact in H4 as (qb & qtwo & Hb & Htwo & -> & _).
  apply lit_exact in Htwo as [-> _].
  exists q1, qs, qb. repeat split; assumption.
Qed.

Lemma ballX_Some (x : Checked.t) (q : Qc) :
  (ballX x).2 = Some q ->
  exists q1 qs qb,
    x.2 = Some q1
    /\ B64.value socketLength = Some qs
    /\ B64.value ballRadius = Some qb
    /\ q = q1 + qs / Checked.of_nat 2 + qb
    /\ B64.value (ballX x).1 = Some q.
Proof.
  unfold ballX. cbn [nadd ndiv nlit Checked.number].
  intros H.
  apply op2_exact in H as (q3 & qb & H3 & Hb & -> & Hv).
  apply op2_exact in H3 as (q1 & q4 & H1 & H4 & -> & _).
  apply op2_exact in H4 as (qs & qtwo & Hs & Htwo & -> & _).
  apply lit_exact in Htwo as [-> _].
  exists q1, qs, qb. repeat split; assumption.
Qed.

(** One row of the product with the quarter turn, whose last column is
    0, 0, 0, 1. *)
Lemma row_exact (a1 a2 a3 a4 : Checked.t) (q : Qc) :
  (a1 * nlit 0 + a2 * nlit 0 + a3 * nlit 0 + a4 * nlit 1)%num.2 = Some q ->
  a4.2 = Some q
  /\ B64.value
       (B64.add
          (B64.add (B64.add (B64.mul a1.1 (B64.of_nat 0)) (B64.mul a2.1 (B64.of_nat 0)))
             (B64.mul a3.1 (B64.of_nat 0)))
          (B64.mul a4.1 (B64.of_nat 1)))
     = Some q.
Proof.
  cbn [nadd nmul nlit Checked.number]. intros H.
  apply op2_exact in H as (q123 & q4 & H123 & H4 & -> & Hv).
  apply op2_exact in H123 as (q12 & q3 & H12 & H3 & -> & _).
  apply op2_exact in H12 as (q1 & q2 & H1 & H2 & -> & _).
  apply op2_exact in H1 as (p1 & z1 & _ & Hz1 & -> & _).
  apply op2_exact in H2 as (p2 & z2 & _ & Hz2 & -> & _).
  apply op2_exact in H3 as (p3 & z3 & _ & Hz3 & -> & _).
  apply op2_exact in H4 as (p4 & o4 & Hp4 & Ho4 & -> & _).
  apply lit_exact in Hz1 as [-> _]. apply lit_exact in Hz2 as [-> _].
  apply lit_exact in Hz3 as [-> _]. apply lit_exact in Ho4 as [-> _].
  split; [|exact Hv].
  rewrite Hp4. f_equal. rewrite of_nat_0, of_nat_1. ring.
Qed.

(** The translation of the transform of a socket, without rounding: it
    is the position the socket was given. *)
Lemma checked_socket_Some (t : Matrix4 spec_float) (startPos : Vector3 spec_float)
    (x : Checked.t) (p : Vector3 Qc) :
  exact_vector (checked_socket t startPos x) = Some p ->
  x.2 = Some (vx p)
  /\ B64.value (vy startPos) = Some (vy p)
  /\ B64.value (vz startPos) = Some (vz p)
  /\ value_vector
       (position (multiplyMatrices (setPosition t (clone_setX startPos x.1)) quarter_turn))
     = Some p.
Proof.
  unfold exact_vector, value_vector.
  destruct (vx (checked_socket t startPos x)).2 as [qx|] eqn:Hx; [|discriminate].
  destruct (vy (checked_socket t startPos x)).2 as [qy|] eqn:Hy; [|discriminate].
  destruct (vz (checked_socket t startPos x)).2 as [qz|] eqn:Hz; [|discriminate].
  intros [= <-]. cbn [vx vy vz].
  apply row_exact in Hx as [Hx Hvx].
  apply row_exact in Hy as [Hy Hvy].
  apply row_exact in Hz as [Hz Hvz].
  cbn in Hx, Hy, Hz.
  repeat (split; [assumption|]).
  change (B64.value
            (vx (position (multiplyMatrices (setPosition t (clone_setX startPos x.1))
                             quarter_turn))) = Some qx) in Hvx.
  change (B64.value
            (vy (position (multiplyMatrices (setPosition t (clone_setX startPos x.1))
                             quarter_turn))) = Some qy) in Hvy.
  change (B64.value
            (vz (position (multiplyMatrices (setPosition t (clone_setX startPos x.1))
                             quarter_turn))) = Some qz) in Hvz.
  now rewrite Hvx, Hvy, Hvz.
Qed.


(** C6, in the doubles of the engine.  Between the residues of index [j]
    and [j + 1] of the chain, [addPeptide] sends the collaborator, right
    after the second residue, two sockets and a ball: socket 1 belongs to
    the first residue and socket 2 to the second, the ball joins the two
    sockets; the sockets are sent with the product of [tempMatrix1],
    positioned, and the quarter turn, the ball with [tempMatrix1] positioned
    at [ballX], on the y and z of [startPos].  Whenever the coordinates are
    computed without rounding or overflow (the x of the two residues, the
    translations of the two socket transforms and [ballX], every operation
    of theirs being exact), the numbers these doubles stand for are such
    that the ball's x is the mean of the x of the two residues, the two
    sockets are at the same distance [socketLength / 2 + ballRadius] on
    either side of it, and the sockets have the y and z of [startPos]. *)
Theorem connection_symmetric (name sequence : string) (startPos : Vector3 spec_float)
    (w : DescWorld spec_float) (j : nat) :
  (S j < String.length sequence)%nat ->
  let w' := (addPeptide name sequence startPos w).2 in
  let t := at_tempMatrix1 (temps w) in
  exists chain prev cur pre post s1 s2 b,
    let m1 :=
      multiplyMatrices (setPosition t (clone_setX startPos (socket1X prev)))
        quarter_turn in
    let m2 :=
      multiplyMatrices (setPosition t (clone_setX startPos (socket2X (socket1X prev))))
        quarter_turn in
    let m3 := setPosition t (clone_setX startPos (ballX (socket1X prev))) in
    peptides w' !! name = Some chain
    /\ chain !! j = Some prev /\ chain !! S j = Some cur
    /\ threeWorld w'
       = threeWorld w
         ++ pre ++ AddResidue cur :: AddSocket s1 m1 :: AddSocket s2 m2
                   :: AddBall b m3 :: post
    /\ socket_residueId s1 = residue_id prev
    /\ socket_residueId s2 = residue_id cur
    /\ ball_socket1Id b = socket_id s1
    /\ ball_socket2Id b = socket_id s2
    /\ (vy (position m3) = vy startPos /\ vz (position m3) = vz startPos)
    /\ forall qp qc p1 p2 qb,
         exact_residueX startPos j = Some qp ->
         exact_residueX startPos (S j) = Some qc ->
         exact_socket1 t startPos j = Some p1 ->
         exact_socket2 t startPos j = Some p2 ->
         exact_ballX startPos j = Some qb ->
         exists ql qr,
           B64.value socketLength = Some ql
           /\ B64.value ballRadius = Some qr
           /\ B64.value (vx (residue_pos prev)) = Some qp
           /\ B64.value (vx (residue_pos cur)) = Some qc
           /\ value_vector (position m1) = Some p1
           /\ value_vector (position m2) = Some p2
           /\ B64.value (vx (position m3)) = Some qb
           /\ qb = (qp + qc) / Checked.of_nat 2
           /\ qb - vx p1 = ql / Checked.of_nat 2 + qr
           /\ vx p2 - qb = ql / Checked.of_nat 2 + qr
           /\ (B64.value (vy startPos) = Some (vy p1)
               /\ B64.value (vz startPos) = Some (vz p1))
           /\ (vy p2 = vy p1 /\ vz p2 = vz p1).
Proof.
  intros Hlen w' t. subst w'.
  destruct (addPeptide_trace_from name sequence startPos w) as (evs & t' & k & Heq & Hem).
  fold t in Hem. rewrite Heq. cbn [snd peptides threeWorld].
  pose proof (emitted_from_emitted _ _ _ _ _ _ Hem) as Hem'.
  assert (Hn : length (residues_of evs) = String.length sequence).
  { rewrite <- split_chars_length, <- (emitted_names _ _ _ _ _ Hem').
    now rewrite length_fmap. }
  destruct (lookup_lt_is_Some_2 (residues_of evs) j) as [prev Hj]; [lia|].
  destruct (lookup_lt_is_Some_2 (residues_of evs) (S j)) as [cur HSj]; [lia|].
  destruct (emitted_from_connection _ _ _ _ _ _ Hem j prev cur Hj HSj)
    as (pre & post & id1 & id2 & id3 & ->).
  destruct (emitted_residue _ _ _ _ _ Hem' j prev Hj) as [_ Hprev].
  destruct (emitted_residue _ _ _ _ _ Hem' (S j) cur HSj) as [_ Hcur].
  cbn [Nat.add] in Hprev, Hcur.
  unfold connection. cbn [app]. cbv zeta.
  eexists _, prev, cur, pre, post, _, _, _.
  split; [apply lookup_insert_eq|]. split; [exact Hj|]. split; [exact HSj|].
  split; [reflexivity|].
  cbn [socket_residueId socket_id ball_socket1Id ball_socket2Id].
  do 4 (split; [reflexivity|]).
  rewrite position_setPosition. split; [split; reflexivity|].
  intros qp qc p1 p2 qb Hqp Hqc Hp1 Hp2 Hqb.
  assert (Hs1 : socket1X prev = (checked_socket1X startPos j).1).
  { unfold socket1X. rewrite Hprev. reflexivity. }
  rewrite Hs1.
  apply checked_socket_Some in Hp1 as (Hx1 & Hy1 & Hz1 & Hv1).
  apply checked_socket_Some in Hp2 as (Hx2 & Hy2 & Hz2 & Hv2).
  pose proof Hx1 as Hx1'.
  apply checked_socket1X_Some in Hx1' as (qp' & ql & qrr & Hqp' & Hl & Hrr & Hq1).
  pose proof Hx2 as Hx2'.
  apply socket2X_Some in Hx2' as (q1 & ql' & qr & H1 & Hl' & Hr & Hq2).
  apply ballX_Some in Hqb as (q1' & ql'' & qr' & H1' & Hl'' & Hr' & Hb & Hvb).
  pose proof Hqp as Hqp0.
  apply exact_residueX_Some in Hqp
    as (qx & al & ar & ab & Hx & Hal & Har & Hab & Hp & Hvp).
  apply exact_residueX_Some in Hqc
    as (qx' & al' & ar' & ab' & Hx' & Hal' & Har' & Hab' & Hc & Hvc).
  assert (qp' = qp) as -> by congruence.
  assert (ql' = ql) as -> by congruence.
  assert (ql'' = ql) as -> by congruence.
  assert (al = ql) as -> by congruence.
  assert (al' = ql) as -> by congruence.
  assert (qr' = qr) as -> by congruence.
  assert (ab = qr) as -> by congruence.
  assert (ab' = qr) as -> by congruence.
  assert (ar = qrr) as -> by congruence.
  assert (ar' = qrr) as -> by congruence.
  assert (qx' = qx) as -> by congruence.
  assert (Hq1' : q1 = vx p1) by congruence.
  assert (Hq1'' : q1' = vx p1) by congruence.
  exists ql, qr.
  split; [exact Hl|]. split; [exact Hr|].
  split; [rewrite Hprev; exact Hvp|]. split; [rewrite Hcur; exact Hvc|].
  split; [exact Hv1|]. split; [exact Hv2|]. split; [exact Hvb|].
  rewrite Hb, Hq2, Hq1', Hq1'', Hq1, Hp, Hc. rewrite (of_nat_S j), of_nat_2.
  split; [field; discriminate|]. split; [field; discriminate|].
  split; [field; discriminate|].
  split; [split; assumption|].
  split; congruence.
Qed.

End CheckedLayout.

(** C4, as the code has it.  In any arithmetic, that of the engine
    included, the residue of index [i] of the chain has for x-coordinate the
    value of [startPos.x + (socketLength + residueRadius + ballRadius) * 2 *
    i], computed with the operations of that arithmetic, and the y and z of
    [startPos].  In the doubles of the engine, for two residues of indices
    [i < j] whose x-coordinates are computed without rounding or overflow,
    the numbers the two doubles stand for are those of the formula: they
    are [2 * (socketLength + residueRadius + ballRadius)] apart when
    [j = i + 1], and the first is less than the second when that sum is
    positive. *)
Theorem residue_layout :
  (forall (num : Type) (NumOps : Number num) (MathObj : Math num) (Imp : Imports num)
      (name sequence : string) (startPos : Vector3 num) (w : DescWorld num),
    exists chain,
      peptides (addPeptide name sequence startPos w).2 !! name = Some chain
      /\ length chain = String.length sequence
      /\ forall i r, chain !! i = Some r ->
           vx (residue_pos r)
           = (vx startPos
              + (socketLength + residueRadius + ballRadius) * nlit 2 * nlit i)%num
           /\ vy (residue_pos r) = vy startPos
           /\ vz (residue_pos r) = vz startPos)
  /\ (forall (MathObj : Math spec_float) (Imp : Imports spec_float)
        (name sequence : string) (startPos : Vector3 spec_float)
        (w : DescWorld spec_float),
      exists chain,
        peptides (addPeptide name sequence startPos w).2 !! name = Some chain
        /\ forall i j r r' q q',
             i < j -> chain !! i = Some r -> chain !! j = Some r' ->
             exact_residueX startPos i = Some q ->
             exact_residueX startPos j = Some q' ->
             exists qs qr qb,
               B64.value socketLength = Some qs
               /\ B64.value residueRadius = Some qr
               /\ B64.value ballRadius = Some qb
               /\ B64.value (vx (residue_pos r)) = Some q
               /\ B64.value (vx (residue_pos r')) = Some q'
               /\ (j = S i -> (q' - q = Checked.of_nat 2 * (qs + qr + qb))%Qc)
               /\ ((0 < qs + qr + qb)%Qc -> (q < q')%Qc)).
Proof.
  split.
  - intros num NumOps MathObj Imp. apply addPeptide_residue_positions.
  - intros MathObj Imp. apply residue_spacing_checked.
Qed.

(** ** Parsing a cross-link *)

Section Parsing.

Lemma forall_chars_app p s1 s2 :
  forall_chars p (s1 +:+ s2) = forall_chars p s1 && forall_chars p s2.
Proof.
  induction s1 as [|c s1 IH]; simpl; [reflexivity|].
  now rewrite IH, andb_assoc.
Qed.

Lemma forall_chars_impl (p q : ascii -> bool) s :
  (forall c, p c = true -> q c = true) ->
  forall_chars p s = true -> forall_chars q s = true.
Proof.
  intros Hpq. induction s as [|c s IH]; cbn [forall_chars]; [reflexivity|].
  rewrite !andb_true_iff. intros [Hc Hs]. auto.
Qed.

Lemma append_assoc (s1 s2 s3 : string) : (s1 +:+ s2) +:+ s3 = s1 +:+ (s2 +:+ s3).
Proof.
  induction s1 as [|c s1 IH]; [reflexivity|].
  change (String c ((s1 +:+ s2) +:+ s3) = String c (s1 +:+ (s2 +:+ s3))).
  now f_equal.
Qed.

Lemma split_free sep s : free_of sep s = true -> split sep s = (s, []).
Proof.
  unfold free_of. induction s as [|c s IH]; cbn [forall_chars split]; [reflexivity|].
  rewrite andb_true_iff, negb_true_iff. intros [Hc Hs].
  now rewrite (IH Hs), Hc.
Qed.

Lemma split_append sep s1 s2 :
  free_of sep s1 = true ->
  split sep (s1 +:+ String sep s2) = (s1, (split sep s2).1 :: (split sep s2).2).
Proof.
  unfold free_of. induction s1 as [|c s1 IH]; simpl.
  - intros _. destruct (split sep s2) as [h t]. now rewrite Ascii.eqb_refl.
  - rewrite andb_true_iff, negb_true_iff. intros [Hc Hs].
    now rewrite (IH Hs), Hc.
Qed.

Lemma take_while_all p s : forall_chars p s = true -> take_while p s = s.
Proof.
  induction s as [|c s IH]; cbn [forall_chars take_while]; [reflexivity|].
  rewrite andb_true_iff. intros [-> Hs]. now rewrite (IH Hs).
Qed.

(** A token made of digits only, and a token made of one character that
    is not a digit followed by digits. *)
Lemma match_digits_digits d :
  all_digits d = true -> d <> EmptyString -> match_digits d = Some d.
Proof.
  intros Hd Hne. unfold match_digits. destruct d as [|c d]; [congruence|].
  cbn [all_digits forall_chars] in Hd. apply andb_true_iff in Hd as [Hc Hd].
  cbn [drop_while]. rewrite Hc. cbn [negb take_while]. rewrite Hc.
  now rewrite (take_while_all _ _ Hd).
Qed.

Lemma match_digits_symbol x d :
  is_digit x = false -> all_digits d = true -> d <> EmptyString ->
  match_digits (String x d) = Some d.
Proof.
  intros Hx Hd Hne. unfold match_digits. cbn [drop_while]. rewrite Hx. cbn [negb].
  apply (match_digits_digits d Hd Hne).
Qed.

Lemma is_alpha_not_digit x : is_alpha x = true -> is_digit x = false.
Proof.
  unfold is_alpha, is_digit. intros Hx.
  apply orb_true_iff in Hx. rewrite !andb_true_iff, !Nat.leb_le in Hx.
  apply andb_false_iff. rewrite !Nat.leb_gt. lia.
Qed.

(** The decimal numerals: [pretty n] is the numeral of [n], and
    [parseInt] reads it back. *)
Lemma is_digit_pretty_N_char y : is_digit (pretty_N_char y) = true.
Proof. unfold pretty_N_char. now repeat case_match. Qed.

Lemma digit_value_pretty_N_char y : (y < 10)%N -> digit_value (pretty_N_char y) = y.
Proof.
  intros Hy.
  assert (y = 0 \/ y = 1 \/ y = 2 \/ y = 3 \/ y = 4 \/ y = 5 \/ y = 6 \/ y = 7
          \/ y = 8 \/ y = 9)%N as Hcases by lia.
  repeat (destruct Hcases as [->|Hcases]; [reflexivity|]). now subst.
Qed.

Lemma all_digits_pretty_N_go x : forall s,
  all_digits s = true -> all_digits (pretty_N_go x s) = true.
Proof.
  induction (N.lt_wf_0 x) as [x _ IH]. intros s Hs.
  destruct (N.eq_dec x 0%N) as [->|Hx]; [now rewrite pretty_N_go_0|].
  rewrite pretty_N_go_step by lia. apply IH.
  - apply N.div_lt; lia.
  - cbn [all_digits forall_chars]. rewrite is_digit_pretty_N_char. exact Hs.
Qed.

Lemma pretty_N_go_nonempty x : forall s,
  (x <> 0)%N \/ s <> EmptyString -> pretty_N_go x s <> EmptyString.
Proof.
  induction (N.lt_wf_0 x) as [x _ IH]. intros s Hs.
  destruct (N.eq_dec x 0%N) as [->|Hx].
  - rewrite pretty_N_go_0. destruct Hs; congruence.
  - rewrite pretty_N_go_step by lia. apply IH; [apply N.div_lt; lia|].
    right. discriminate.
Qed.

Lemma all_digits_pretty (n : N) : all_digits (pretty n) = true.
Proof.
  unfold pretty, pretty_N. case_decide; [reflexivity|].
  now apply all_digits_pretty_N_go.
Qed.

Lemma pretty_nonempty (n : N) : pretty n <> EmptyString.
Proof.
  unfold pretty, pretty_N. case_decide; [discriminate|].
  apply pretty_N_go_nonempty. now left.
Qed.

Lemma parseInt_from_acc s : forall acc,
  parseInt_from acc s
  = (acc * 10 ^ N.of_nat (String.length s) + parseInt_from 0 s)%N.
Proof.
  induction s as [|c s IH]; intros acc; cbn [parseInt_from String.length].
  - cbn. lia.
  - rewrite IH, (IH (0 * 10 + digit_value c)%N).
    rewrite Nat2N.inj_succ, N.pow_succ_r'. lia.
Qed.

Lemma parseInt_pretty_N_go x : forall s,
  parseInt (pretty_N_go x s)
  = (x * 10 ^ N.of_nat (String.length s) + parseInt s)%N.
Proof.
  unfold parseInt. induction (N.lt_wf_0 x) as [x _ IH]. intros s.
  destruct (N.eq_dec x 0%N) as [->|Hx]; [now rewrite pretty_N_go_0|].
  rewrite pretty_N_go_step by lia. rewrite IH by (apply N.div_lt; lia).
  cbn [String.length parseInt_from]. rewrite parseInt_from_acc.
  rewrite digit_value_pretty_N_char by (apply N.mod_lt; lia).
  rewrite Nat2N.inj_succ, N.pow_succ_r'.
  pose proof (N.div_mod x 10 ltac:(lia)) as Hdm.
  set (q := (x `div` 10)%N) in *. set (r := (x `mod` 10)%N) in *.
  set (p := (10 ^ N.of_nat (String.length s))%N). nia.
Qed.

Lemma parseInt_pretty (n : N) : parseInt (pretty n) = n.
Proof.
  unfold pretty, pretty_N. case_decide as Hn; [now subst|].
  rewrite parseInt_pretty_N_go. cbn. lia.
Qed.

End Parsing.

(** ** One clause of [addCrossLinks] *)

Section CrossLinks.

Context {num : Type} {NumOps : Number num} {MathObj : Math num} {Imp : Imports num}.

(** Resolving an endpoint reads the state and leaves it as it is. *)
Lemma resolve_state acid w : (resolve acid w).2 = w.
Proof.
  unfold resolve. destruct acid as [acid|]; [|reflexivity].
  destruct (split ":" acid) as [chain locs]. cbn [fst snd].
  destruct (locs !! 0%nat) as [token|]; [|reflexivity].
  destruct (match_digits token) as [d|]; [|reflexivity].
  unfold bind, get. destruct (residue_at w chain (parseInt d)) as [r|]; [|reflexivity].
  now destruct (String.eqb _ _).
Qed.

(** An endpoint resolves to a residue only if the registry has it at the
    index of the token and its symbol is [getAlphaOnly] of the token: the
    comparison is made for every token, with or without letters. *)
Lemma resolve_Next acid w r w' :
  resolve acid w = (Next r, w') ->
  exists chain token d,
    match_digits token = Some d
    /\ residue_at w chain (parseInt d) = Some r
    /\ getAlphaOnly token = residue_name r.
Proof.
  unfold resolve. destruct acid as [acid|]; [|discriminate].
  destruct (split ":" acid) as [chain locs]. cbn [fst snd].
  destruct (locs !! 0%nat) as [token|]; [|discriminate].
  destruct (match_digits token) as [d|] eqn:Hd; [|discriminate].
  unfold bind, get. destruct (residue_at w chain (parseInt d)) as [r'|] eqn:Hr;
    [|discriminate].
  destruct (String.eqb_spec (getAlphaOnly token) (residue_name r')) as [He|_];
    [|discriminate].
  intros [= <- <-]. now exists chain, token, d.
Qed.

(** An endpoint [chain:token] whose token has a digit. *)
Lemma resolve_endpoint chain token d w :
  free_of ":" chain = true -> free_of ":" token = true ->
  match_digits token = Some d ->
  resolve (Some (chain +:+ ":" +:+ token)) w
  = match residue_at w chain (parseInt d) with
    | Some r =>
        if String.eqb (getAlphaOnly token) (residue_name r)
        then (Next r, w) else (Return, w)
    | None => (Return, w)
    end.
Proof.
  intros Hc Ht Hd. unfold resolve.
  change (chain +:+ ":" +:+ token) with (chain +:+ String ":" token).
  rewrite (split_append _ _ _ Hc), (split_free _ _ Ht). cbn [fst snd lookup list_lookup].
  rewrite Hd. unfold bind, get.
  destruct (residue_at w chain (parseInt d)) as [r|]; [|reflexivity].
  now destruct (String.eqb _ _).
Qed.

(** The callback, from the two endpoints. *)
Lemma addCrossLinks_callback_eq crossLink w :
  addCrossLinks_callback crossLink w
  = match resolve (Some (split "-" crossLink).1) w with
    | (Next residue1, _) =>
        match resolve ((split "-" crossLink).2 !! 0%nat) w with
        | (Next residue2, _) => (Next tt, cross_linked w residue1 residue2)
        | (Return, _) => (Return, w)
        | (Throw, _) => (Throw, w)
        end
    | (Return, _) => (Return, w)
    | (Throw, _) => (Throw, w)
    end.
Proof.
  unfold addCrossLinks_callback, bind at 1.
  pose proof (resolve_state (Some (split "-" crossLink).1) w) as H1.
  destruct (resolve (Some (split "-" crossLink).1) w) as [[r1| |] w1];
    cbn [snd] in H1; subst w1; try reflexivity.
  unfold bind at 1.
  pose proof (resolve_state ((split "-" crossLink).2 !! 0%nat) w) as H2.
  destruct (resolve ((split "-" crossLink).2 !! 0%nat) w) as [[r2| |] w2];
    cbn [snd] in H2; subst w2; try reflexivity.
  assert (Hsnoc : forall (l : list (Event num)) a b c,
             l ++ [a; b; c] = ((l ++ [a]) ++ [b]) ++ [c])
    by (intros; now rewrite <- !app_assoc).
  unfold cross_linked, cross_link_events. cbv zeta. rewrite Hsnoc. reflexivity.
Qed.

(** The loop over the clauses. *)
Lemma addCrossLinks_single clause w :
  free_of ";" clause = true ->
  addCrossLinks clause w
  = match addCrossLinks_callback clause w with
    | (Throw, w') => (Thrown, w')
    | (_, w') => (Normal, w')
    end.
Proof.
  intros Hc. unfold addCrossLinks. rewrite (split_free _ _ Hc).
  cbn [fst snd forEach]. unfold run.
  now destruct (addCrossLinks_callback clause w) as [[[]| |] w'].
Qed.

Lemma addCrossLinks_cons clause rest w :
  free_of ";" clause = true ->
  addCrossLinks (clause +:+ ";" +:+ rest) w
  = match addCrossLinks_callback clause w with
    | (Throw, w') => (Thrown, w')
    | (_, w') => addCrossLinks rest w'
    end.
Proof.
  intros Hc. unfold addCrossLinks.
  change (clause +:+ ";" +:+ rest) with (clause +:+ String ";" rest).
  rewrite (split_append _ _ _ Hc). cbn [fst snd forEach]. unfold run.
  now destruct (addCrossLinks_callback clause w) as [[[]| |] w'].
Qed.

Lemma free_of_app sep s1 s2 :
  free_of sep (s1 +:+ s2) = free_of sep s1 && free_of sep s2.
Proof. apply forall_chars_app. Qed.

Lemma free_of_digits sep d :
  is_digit sep = false -> all_digits d = true -> free_of sep d = true.
Proof.
  intros Hsep. apply forall_chars_impl. intros c Hc.
  destruct (Ascii.eqb_spec c sep) as [->|_]; [congruence | reflexivity].
Qed.

Lemma free_of_symbol_token sep x (n : N) :
  is_digit sep = false -> is_alpha sep = false -> is_alpha x = true ->
  free_of sep (String x (pretty n)) = true.
Proof.
  intros Hd Ha Hx. unfold free_of. cbn [forall_chars].
  fold (free_of sep (pretty n)). rewrite (free_of_digits _ _ Hd (all_digits_pretty n)).
  destruct (Ascii.eqb_spec x sep) as [->|_]; [congruence | reflexivity].
Qed.

Lemma separator_free_parts s :
  separator_free s = true ->
  free_of ";" s = true /\ free_of "-" s = true /\ free_of ":" s = true.
Proof. unfold separator_free. rewrite !andb_true_iff. tauto. Qed.

(** [this.peptides.get(chain)?.[k - 1]] is the residue at the 1-based
    index [k] of the chain. *)
Lemma residue_at_Some (w : DescWorld num) chain k r :
  residue_at w chain k = Some r
  <-> exists p, peptides w !! chain = Some p
                /\ (1 <= k)%N /\ p !! (N.to_nat k - 1)%nat = Some r.
Proof.
  unfold residue_at. destruct (peptides w !! chain) as [p|].
  - destruct (N.eqb_spec k 0) as [->|Hk].
    + split; [discriminate|]. intros (p' & _ & Hk & _). lia.
    + rewrite index_N_lookup. replace (N.to_nat (k - 1)) with (N.to_nat k - 1)%nat by lia.
      split.
      * intros Hr. exists p. repeat split; [lia | exact Hr].
      * now intros (p' & [= <-] & _ & Hr).
  - split; [discriminate|]. now intros (p' & Hp & _).
Qed.

Lemma has_symbol_residue_at (w : DescWorld num) chain k x r :
  has_symbol w chain k x r
  <-> residue_at w chain k = Some r /\ residue_name r = String x EmptyString.
Proof.
  unfold has_symbol. rewrite residue_at_Some. split.
  - intros (p & Hp & Hk & Hr & Hx). split; [now exists p | exact Hx].
  - intros ((p & Hp & Hk & Hr) & Hx). now exists p.
Qed.

(** An endpoint [chain:Xk], a letter and a numeral. *)
Lemma resolve_symbol_endpoint chain x (k : N) w :
  free_of ":" chain = true -> is_alpha x = true ->
  getAlphaOnly (String x (pretty k)) = String x EmptyString ->
  resolve (Some (chain +:+ ":" +:+ String x (pretty k))) w
  = match residue_at w chain k with
    | Some r =>
        if String.eqb (String x EmptyString) (residue_name r)
        then (Next r, w) else (Return, w)
    | None => (Return, w)
    end.
Proof.
  intros Hc Hx Hg.
  rewrite (resolve_endpoint chain _ (pretty k) w Hc).
  - now rewrite parseInt_pretty, Hg.
  - now apply free_of_symbol_token.
  - apply match_digits_symbol;
      [now apply is_alpha_not_digit | apply all_digits_pretty | apply pretty_nonempty].
Qed.

(** C1.  A clause [A:Xk1-B:Yk2], with chain names free of separators,
    letters [X] and [Y] and numerals [k1] and [k2], always ends normally.
    If chain [A] has at index [k1] a residue of symbol [X] and chain [B]
    has at index [k2] a residue of symbol [Y], the call sends the
    collaborator exactly two sockets, one on each of the two residues, and
    one ball joining them, and pushes that ball on the ball list; otherwise
    it changes nothing at all. *)
Theorem cross_link_iff (w : DescWorld num) (A B : string) (X Y : ascii) (k1 k2 : N) :
  separator_free A = true -> separator_free B = true ->
  is_alpha X = true -> is_alpha Y = true ->
  getAlphaOnly (String X (pretty k1)) = String X EmptyString ->
  getAlphaOnly (String Y (pretty k2)) = String Y EmptyString ->
  let clause :=
    (A +:+ ":" +:+ String X (pretty k1)) +:+ "-" +:+ (B +:+ ":" +:+ String Y (pretty k2)) in
  let valid := exists r1 r2, has_symbol w A k1 X r1 /\ has_symbol w B k2 Y r2 in
  exists w',
    addCrossLinks clause w = (Normal, w')
    /\ (valid ->
        exists r1 r2 s1 s2 b m,
          has_symbol w A k1 X r1 /\ has_symbol w B k2 Y r2
          /\ threeWorld w' = threeWorld w ++ [AddSocket s1 m; AddSocket s2 m; AddBall b m]
          /\ balls w' = balls w ++ [b]
          /\ peptides w' = peptides w
          /\ socket_residueId s1 = residue_id r1
          /\ socket_residueId s2 = residue_id r2
          /\ ball_socket1Id b = socket_id s1
          /\ ball_socket2Id b = socket_id s2)
    /\ (~ valid -> w' = w).
Proof.
  intros HA HB HX HY HgX HgY clause valid.
  apply separator_free_parts in HA as (HA1 & HA2 & HA3).
  apply separator_free_parts in HB as (HB1 & HB2 & HB3).
  assert (Hdash : is_digit "-" = false /\ is_alpha "-" = false) by (split; reflexivity).
  assert (Hsemi : is_digit ";" = false /\ is_alpha ";" = false) by (split; reflexivity).
  assert (Hcol : is_digit ":" = false /\ is_alpha ":" = false) by (split; reflexivity).
  assert (He1 : forall sep, is_digit sep = false -> is_alpha sep = false ->
                  free_of sep A = true -> sep <> ":"%char ->
                  free_of sep (A +:+ ":" +:+ String X (pretty k1)) = true).
  { intros sep Hd Ha Hf Hne. rewrite !free_of_app, Hf, free_of_symbol_token by assumption.
    unfold free_of. cbn [forall_chars String.append].
    destruct (Ascii.eqb_spec ":" sep) as [E|_]; [congruence | reflexivity]. }
  assert (He2 : forall sep, is_digit sep = false -> is_alpha sep = false ->
                  free_of sep B = true -> sep <> ":"%char ->
                  free_of sep (B +:+ ":" +:+ String Y (pretty k2)) = true).
  { intros sep Hd Ha Hf Hne. rewrite !free_of_app, Hf, free_of_symbol_token by assumption.
    unfold free_of. cbn [forall_chars String.append].
    destruct (Ascii.eqb_spec ":" sep) as [E|_]; [congruence | reflexivity]. }
  assert (Hclause : free_of ";" clause = true).
  { unfold clause. rewrite (free_of_app ";" (A +:+ ":" +:+ String X (pretty k1))).
    rewrite He1 by (try apply Hsemi; try assumption; discriminate).
    change (free_of ";" ("-" +:+ (B +:+ ":" +:+ String Y (pretty k2))))
      with (free_of ";" (B +:+ ":" +:+ String Y (pretty k2))).
    apply He2; try apply Hsemi; try assumption; discriminate. }
  rewrite (addCrossLinks_single clause w Hclause), addCrossLinks_callback_eq.
  unfold clause at 1 2.
  change ((A +:+ ":" +:+ String X (pretty k1)) +:+ "-"
          +:+ (B +:+ ":" +:+ String Y (pretty k2)))
    with ((A +:+ ":" +:+ String X (pretty k1))
          +:+ String "-" (B +:+ ":" +:+ String Y (pretty k2))).
  rewrite split_append by (apply He1; try apply Hdash; try assumption; discriminate).
  rewrite split_free by (apply He2; try apply Hdash; try assumption; discriminate).
  cbn [fst snd lookup list_lookup].
  rewrite !resolve_symbol_endpoint by assumption.
  destruct (residue_at w A k1) as [r1|] eqn:Hr1.
  2:{ exists w. split; [reflexivity|]. split; [|reflexivity].
      intros (r1 & r2 & H1 & _). apply has_symbol_residue_at in H1 as [H1 _].
      congruence. }
  destruct (String.eqb_spec (String X EmptyString) (residue_name r1)) as [Hn1|Hn1].
  2:{ exists w. split; [reflexivity|]. split; [|reflexivity].
      intros (r1' & r2 & H1 & _). apply has_symbol_residue_at in H1 as [H1 H1'].
      congruence. }
  destruct (residue_at w B k2) as [r2|] eqn:Hr2.
  2:{ exists w. split; [reflexivity|]. split; [|reflexivity].
      intros (r1' & r2 & _ & H2). apply has_symbol_residue_at in H2 as [H2 _].
      congruence. }
  destruct (String.eqb_spec (String Y EmptyString) (residue_name r2)) as [Hn2|Hn2].
  2:{ exists w. split; [reflexivity|]. split; [|reflexivity].
      intros (r1' & r2' & _ & H2). apply has_symbol_residue_at in H2 as [H2 H2'].
      congruence. }
  assert (Hv : valid).
  { exists r1, r2. split; apply has_symbol_residue_at; auto. }
  exists (cross_linked w r1 r2). split; [reflexivity|]. split; [|tauto].
  intros _. unfold cross_linked, cross_link_events.
  cbn [threeWorld balls peptides balls_of omap list_omap].
  do 6 eexists. split; [apply has_symbol_residue_at; eauto|].
  split; [apply has_symbol_residue_at; eauto|].
  repeat split.
Qed.

(** A clause [A:T1-B:T2] whose chain names and tokens are free of
    separators, the tokens with a digit in them: the parts the code finds
    are [A], [T1], [B] and [T2]. *)
Lemma separator_free_clause_continues (w : DescWorld num)
    (A T1 B T2 rest : string) :
  separator_free A = true -> separator_free T1 = true ->
  separator_free B = true -> separator_free T2 = true ->
  is_Some (match_digits T1) -> is_Some (match_digits T2) ->
  let clause := (A +:+ ":" +:+ T1) +:+ "-" +:+ (B +:+ ":" +:+ T2) in
  exists w',
    addCrossLinks clause w = (Normal, w')
    /\ addCrossLinks (clause +:+ ";" +:+ rest) w = addCrossLinks rest w'
    /\ (w' = w \/ exists residue1 residue2, w' = cross_linked w residue1 residue2).
Proof.
  intros HA HT1 HB HT2 [d1 Hd1] [d2 Hd2] clause.
  apply separator_free_parts in HA as (HA1 & HA2 & HA3).
  apply separator_free_parts in HB as (HB1 & HB2 & HB3).
  apply separator_free_parts in HT1 as (HT11 & HT12 & HT13).
  apply separator_free_parts in HT2 as (HT21 & HT22 & HT23).
  assert (He1 : forall sep, free_of sep A = true -> free_of sep T1 = true ->
                  sep <> ":"%char -> free_of sep (A +:+ ":" +:+ T1) = true).
  { intros sep Hf Hf' Hne. rewrite !free_of_app, Hf, Hf'.
    unfold free_of. cbn [forall_chars].
    destruct (Ascii.eqb_spec ":" sep) as [E|_]; [congruence | reflexivity]. }
  assert (He2 : forall sep, free_of sep B = true -> free_of sep T2 = true ->
                  sep <> ":"%char -> free_of sep (B +:+ ":" +:+ T2) = true).
  { intros sep Hf Hf' Hne. rewrite !free_of_app, Hf, Hf'.
    unfold free_of. cbn [forall_chars].
    destruct (Ascii.eqb_spec ":" sep) as [E|_]; [congruence | reflexivity]. }
  assert (Hclause : free_of ";" clause = true).
  { unfold clause. rewrite (free_of_app ";" (A +:+ ":" +:+ T1)).
    rewrite He1 by (try assumption; discriminate).
    change (free_of ";" ("-" +:+ (B +:+ ":" +:+ T2)))
      with (free_of ";" (B +:+ ":" +:+ T2)).
    apply He2; try assumption; discriminate. }
  rewrite (addCrossLinks_single clause w Hclause),
    (addCrossLinks_cons clause rest w Hclause), addCrossLinks_callback_eq.
  unfold clause.
  change ((A +:+ ":" +:+ T1) +:+ "-" +:+ (B +:+ ":" +:+ T2))
    with ((A +:+ ":" +:+ T1) +:+ String "-" (B +:+ ":" +:+ T2)).
  rewrite split_append by (apply He1; try assumption; discriminate).
  rewrite split_free by (apply He2; try assumption; discriminate).
  cbn [fst snd lookup list_lookup].
  rewrite (resolve_endpoint A T1 d1 w HA3 HT13 Hd1),
    (resolve_endpoint B T2 d2 w HB3 HT23 Hd2).
  assert (Hskip : exists w', (Normal, w) = (Normal, w')
                    /\ addCrossLinks rest w = addCrossLinks rest w'
                    /\ (w' = w \/ exists residue1 residue2,
                                    w' = cross_linked w residue1 residue2))
    by (exists w; auto).
  destruct (residue_at w A (parseInt d1)) as [r1|]; [|exact Hskip].
  destruct (String.eqb _ (residue_name r1)); [|exact Hskip].
  destruct (residue_at w B (parseInt d2)) as [r2|]; [|exact Hskip].
  destruct (String.eqb _ (residue_name r2)); [|exact Hskip].
  exists (cross_linked w r1 r2). split; [reflexivity|]. split; [reflexivity|].
  right. now exists r1, r2.
Qed.

(** An endpoint in which the code finds a token with a digit in it. *)
Lemma resolve_token acid T d (w : DescWorld num) :
  (split ":" acid).2 !! 0%nat = Some T -> match_digits T = Some d ->
  resolve (Some acid) w
  = match residue_at w (split ":" acid).1 (parseInt d) with
    | Some r =>
        if String.eqb (getAlphaOnly T) (residue_name r)
        then (Next r, w) else (Return, w)
    | None => (Return, w)
    end.
Proof.
  intros HT Hd. unfold resolve. cbv zeta. rewrite HT, Hd. unfold bind, get.
  destruct (residue_at w (split ":" acid).1 (parseInt d)) as [r|]; [|reflexivity].
  now destruct (String.eqb _ _).
Qed.

(** C2, as the code has it.  A clause in which the code finds two
    endpoints with a token that has a digit in it (the first two parts of
    the clause between dashes each have a second part between colons, and
    there is a digit in it) never ends the call: whether it creates its
    joint or is skipped by the validation, the clauses after it are
    processed, from the state it leaves.  If it is skipped, that state is
    the one it started from.  Such are the clauses [A:T1-B:T2] whose chain
    names and tokens are free of separators, the tokens with a digit. *)
Theorem grammatical_clause_continues (w : DescWorld num) :
  (forall clause rest e2 T1 T2 : string,
     free_of ";" clause = true ->
     (split ":" (split "-" clause).1).2 !! 0%nat = Some T1 ->
     (split "-" clause).2 !! 0%nat = Some e2 ->
     (split ":" e2).2 !! 0%nat = Some T2 ->
     is_Some (match_digits T1) -> is_Some (match_digits T2) ->
     exists w',
       addCrossLinks clause w = (Normal, w')
       /\ addCrossLinks (clause +:+ ";" +:+ rest) w = addCrossLinks rest w'
       /\ (w' = w \/ exists residue1 residue2, w' = cross_linked w residue1 residue2))
  /\ (forall A T1 B T2 rest : string,
        separator_free A = true -> separator_free T1 = true ->
        separator_free B = true -> separator_free T2 = true ->
        is_Some (match_digits T1) -> is_Some (match_digits T2) ->
        let clause := (A +:+ ":" +:+ T1) +:+ "-" +:+ (B +:+ ":" +:+ T2) in
        exists w',
          addCrossLinks clause w = (Normal, w')
          /\ addCrossLinks (clause +:+ ";" +:+ rest) w = addCrossLinks rest w'
          /\ (w' = w \/ exists residue1 residue2, w' = cross_linked w residue1 residue2)).
Proof.
  split; [|intros A T1 B T2 rest; apply separator_free_clause_continues].
  intros clause rest e2 T1 T2 Hclause HT1 He2 HT2 [d1 Hd1] [d2 Hd2].
  rewrite (addCrossLinks_single clause w Hclause),
    (addCrossLinks_cons clause rest w Hclause), addCrossLinks_callback_eq.
  rewrite He2, (resolve_token _ T1 d1 w HT1 Hd1), (resolve_token e2 T2 d2 w HT2 Hd2).
  assert (Hskip : exists w', (Normal, w) = (Normal, w')
                    /\ addCrossLinks rest w = addCrossLinks rest w'
                    /\ (w' = w \/ exists residue1 residue2,
                                    w' = cross_linked w residue1 residue2))
    by (exists w; auto).
  destruct (residue_at w _ (parseInt d1)) as [r1|]; [|exact Hskip].
  destruct (String.eqb _ (residue_name r1)); [|exact Hskip].
  destruct (residue_at w _ (parseInt d2)) as [r2|]; [|exact Hskip].
  destruct (String.eqb _ (residue_name r2)); [|exact Hskip].
  exists (cross_linked w r1 r2). split; [reflexivity|]. split; [reflexivity|].
  right. now exists r1, r2.
Qed.

(** C10.  For the empty string [split(";")] gives one empty clause,
    whose first endpoint has no token: the call throws, in any state and
    without changing it. *)
Theorem addCrossLinks_empty_string_throws (w : DescWorld num) :
  addCrossLinks "" w = (Thrown, w).
Proof. reflexivity. Qed.

(** A token without a digit in the first endpoint ends the call, and the
    clauses after it are not looked at. *)
Lemma token_without_digit_aborts (w : DescWorld num) (A T1 tail rest : string) :
  free_of ":" A = true -> free_of ":" T1 = true ->
  free_of "-" (A +:+ ":" +:+ T1) = true -> free_of ";" (A +:+ ":" +:+ T1) = true ->
  free_of ";" tail = true ->
  match_digits T1 = None ->
  addCrossLinks ((A +:+ ":" +:+ T1) +:+ "-" +:+ tail +:+ ";" +:+ rest) w = (Thrown, w).
Proof.
  intros HA HT Hdash Hsemi Htail Hd.
  change ((A +:+ ":" +:+ T1) +:+ "-" +:+ tail +:+ ";" +:+ rest)
    with ((A +:+ ":" +:+ T1) +:+ String "-" (tail +:+ ";" +:+ rest)).
  assert (Hassoc : (A +:+ ":" +:+ T1) +:+ String "-" (tail +:+ ";" +:+ rest)
                   = ((A +:+ ":" +:+ T1) +:+ "-" +:+ tail) +:+ ";" +:+ rest).
  { change (String "-" (tail +:+ ";" +:+ rest)) with ("-" +:+ tail +:+ ";" +:+ rest).
    now rewrite !append_assoc. }
  rewrite Hassoc, addCrossLinks_cons, addCrossLinks_callback_eq.
  - change ((A +:+ ":" +:+ T1) +:+ "-" +:+ tail)
      with ((A +:+ ":" +:+ T1) +:+ String "-" tail).
    rewrite (split_append _ _ _ Hdash). cbn [fst].
    unfold resolve at 1.
    change (A +:+ ":" +:+ T1) with (A +:+ String ":" T1).
    rewrite (split_append _ _ _ HA), (split_free _ _ HT).
    cbn [fst snd lookup list_lookup]. now rewrite Hd.
  - rewrite free_of_app, Hsemi. exact Htail.
Qed.

End CrossLinks.

(** ** C7: references between the primitives *)

Section References.

Context {num : Type} {NumOps : Number num} {MathObj : Math num} {Imp : Imports num}.

Lemma snoc_split {A : Type} (l pre post : list A) (x e : A) :
  l ++ [x] = pre ++ e :: post ->
  (post = [] /\ l = pre /\ x = e) \/ (exists post', post = post' ++ [x] /\ l = pre ++ e :: post').
Proof.
  destruct post as [|y post' _] using rev_ind.
  - intros Heq. apply (app_inj_2 _ _ [x] [e]) in Heq as [-> [= ->]]; [|reflexivity].
    now left.
  - intros Heq. right. exists post'.
    rewrite app_comm_cons, app_assoc in Heq.
    now apply (app_inj_2 _ _ [x] [y]) in Heq as [-> [= ->]].
Qed.

Lemma well_linked_nil : well_linked (num := num) [].
Proof. intros [|e' pre] e post Heq; discriminate Heq. Qed.

Lemma well_linked_snoc (log : list (Event num)) e :
  well_linked log -> linked_at log e -> well_linked (log ++ [e]).
Proof.
  intros Hlog He pre e' post Heq.
  apply snoc_split in Heq as [(_ & -> & ->) | (post' & _ & ->)].
  - exact He.
  - now apply (Hlog pre e' post').
Qed.

Lemma well_linked_connection (log : list (Event num)) s1 m1 s2 m2 b m3 r1 r2 :
  well_linked log ->
  r1 ∈ residues_of log -> r2 ∈ residues_of log ->
  socket_residueId s1 = residue_id r1 -> socket_residueId s2 = residue_id r2 ->
  ball_socket1Id b = socket_id s1 -> ball_socket2Id b = socket_id s2 ->
  well_linked (log ++ [AddSocket s1 m1; AddSocket s2 m2; AddBall b m3]).
Proof.
  intros Hlog Hr1 Hr2 H1 H2 Hb1 Hb2.
  change [AddSocket s1 m1; AddSocket s2 m2; AddBall b m3]
    with ([AddSocket s1 m1] ++ [AddSocket s2 m2] ++ [AddBall b m3]).
  rewrite !app_assoc. repeat apply well_linked_snoc; try assumption.
  - now exists r1.
  - exists r2. split; [|assumption]. rewrite residues_of_app. set_solver.
  - exists log, s1, m1, s2, m2. now rewrite <- app_assoc.
Qed.

Lemma well_linked_emitted startPos prevResidue i cs evs :
  emitted startPos prevResidue i cs evs ->
  forall log,
    well_linked log ->
    (forall p, prevResidue = Some p -> p ∈ residues_of log) ->
    well_linked (log ++ evs).
Proof.
  induction 1 as [| c cs i id evs _ IH | p c cs i id id1 id2 id3 t1 t2 t3 evs _ IH];
    intros log Hlog Hprev.
  - now rewrite app_nil_r.
  - rewrite (cons_middle _ log evs), app_assoc. apply IH.
    + now apply well_linked_snoc.
    + intros r [= <-]. rewrite residues_of_app. set_solver.
  - match goal with |- well_linked (log ++ ?r :: ?a :: ?b :: ?c :: evs) =>
      change (log ++ r :: a :: b :: c :: evs) with (log ++ [r] ++ [a; b; c] ++ evs) end.
    rewrite !app_assoc. apply IH.
    + apply (well_linked_connection _ _ _ _ _ _ _ p
               (mkResidue id c residueRadius (clone_setX startPos (residueX startPos i))));
        try reflexivity.
      * now apply well_linked_snoc.
      * rewrite residues_of_app. apply elem_of_app. left. now apply Hprev.
      * rewrite residues_of_app. set_solver.
    + intros r [= <-]. rewrite !residues_of_app. set_solver.
Qed.

Lemma Inv_new (t : Temps num) : Inv (DescWorld_new t).
Proof.
  split; cbn.
  - apply well_linked_nil.
  - reflexivity.
  - intros chain p r Hp. now rewrite lookup_empty in Hp.
Qed.

Lemma Inv_addPeptide name sequence startPos w :
  Inv w -> Inv (addPeptide name sequence startPos w).2.
Proof.
  intros [Hlog Hballs Hpep].
  destruct (addPeptide_trace name sequence startPos w) as (evs & t & k & -> & Hem).
  split; cbn [snd threeWorld balls peptides].
  - apply (well_linked_emitted _ _ _ _ _ Hem); [exact Hlog | discriminate].
  - now rewrite balls_of_app, Hballs.
  - intros chain p r Hp Hr. rewrite residues_of_app. apply elem_of_app.
    destruct (decide (chain = name)) as [->|Hne].
    + rewrite lookup_insert_eq in Hp. injection Hp as <-. now right.
    + rewrite lookup_insert_ne in Hp by congruence. left. now apply (Hpep chain p).
Qed.

Lemma resolve_registered acid w r w' :
  Inv w -> resolve acid w = (Next r, w') -> r ∈ residues_of (threeWorld w).
Proof.
  intros Hinv Hres.
  apply resolve_Next in Hres as (chain & token & d & _ & Hat & _).
  apply residue_at_Some in Hat as (p & Hp & _ & Hr).
  apply (inv_peptides w Hinv chain p); [exact Hp|].
  apply list_elem_of_lookup. eauto.
Qed.

Lemma Inv_cross_linked (w : DescWorld num) r1 r2 :
  Inv w -> r1 ∈ residues_of (threeWorld w) -> r2 ∈ residues_of (threeWorld w) ->
  Inv (cross_linked w r1 r2).
Proof.
  intros [Hlog Hballs Hpep] Hr1 Hr2. split; cbn [cross_linked threeWorld balls peptides].
  - now apply (well_linked_connection _ _ _ _ _ _ _ r1 r2).
  - now rewrite balls_of_app, Hballs.
  - intros chain p r Hp Hr. rewrite residues_of_app. apply elem_of_app. left.
    now apply (Hpep chain p).
Qed.

Lemma Inv_addCrossLinks_callback crossLink w :
  Inv w -> Inv (addCrossLinks_callback crossLink w).2.
Proof.
  intros Hinv. rewrite addCrossLinks_callback_eq.
  destruct (resolve (Some (split "-" crossLink).1) w) as [[r1| |] w1] eqn:H1;
    try exact Hinv.
  destruct (resolve ((split "-" crossLink).2 !! 0%nat) w) as [[r2| |] w2] eqn:H2;
    try exact Hinv.
  cbn [snd]. apply Inv_cross_linked; [exact Hinv | |].
  - eapply resolve_registered; eauto.
  - eapply resolve_registered; eauto.
Qed.

Lemma Inv_forEach crossLinks : forall w,
  Inv w -> Inv (forEach addCrossLinks_callback crossLinks w).2.
Proof.
  induction crossLinks as [|c cs IH]; intros w Hinv; cbn [forEach].
  - exact Hinv.
  - pose proof (Inv_addCrossLinks_callback c w Hinv) as Hc.
    destruct (addCrossLinks_callback c w) as [[[]| |] w']; cbn [snd] in *;
      try exact Hc; now apply IH.
Qed.

Lemma Inv_addCrossLinks crossLinkStr w :
  Inv w -> Inv (addCrossLinks crossLinkStr w).2.
Proof.
  intros Hinv. unfold addCrossLinks, run.
  pose proof (Inv_forEach ((split ";" crossLinkStr).1 :: (split ";" crossLinkStr).2)
                w Hinv) as Hf.
  now destruct (forEach _ _ w) as [[[]| |] w'].
Qed.

Lemma reachable_Inv t w : reachable t w -> Inv w.
Proof.
  induction 1.
  - apply Inv_new.
  - now apply Inv_addPeptide.
  - now apply Inv_addCrossLinks.
Qed.

Lemma elem_of_residues_of r (log : list (Event num)) :
  r ∈ residues_of log <-> AddResidue r ∈ log.
Proof.
  unfold residues_of. rewrite list_elem_of_omap. split.
  - intros ([r'| |] & He & [= ->]). exact He.
  - intros He. now exists (AddResidue r).
Qed.

Lemma elem_of_sockets_of s (log : list (Event num)) :
  s ∈ sockets_of log <-> exists m, AddSocket s m ∈ log.
Proof.
  unfold sockets_of. rewrite list_elem_of_omap. split.
  - intros ([|s' m|] & He & [= ->]). now exists m.
  - intros [m He]. now exists (AddSocket s m).
Qed.

Lemma elem_of_balls_of b (log : list (Event num)) :
  b ∈ balls_of log <-> exists m, AddBall b m ∈ log.
Proof.
  unfold balls_of. rewrite list_elem_of_omap. split.
  - intros ([| |b' m] & He & [= ->]). now exists m.
  - intros [m He]. now exists (AddBall b m).
Qed.

(** C7.  In every state a [DescWorld] goes through, each call the
    collaborator has received was in order when it was made: a ball came
    right after two sockets, which are the two it names, and a socket came
    after a residue it names.  The ball list holds the balls sent to the
    collaborator and no others.  So every ball of the list names two
    sockets that exist, and every socket names a residue that exists. *)
Theorem references_never_dangle (t : Temps num) (w : DescWorld num) :
  reachable t w ->
  well_linked (threeWorld w)
  /\ balls w = balls_of (threeWorld w)
  /\ (forall b, b ∈ balls w ->
        exists s1 s2,
          s1 ∈ sockets_of (threeWorld w) /\ s2 ∈ sockets_of (threeWorld w)
          /\ ball_socket1Id b = socket_id s1 /\ ball_socket2Id b = socket_id s2)
  /\ (forall s, s ∈ sockets_of (threeWorld w) ->
        exists r, r ∈ residues_of (threeWorld w) /\ socket_residueId s = residue_id r).
Proof.
  intros Hreach. destruct (reachable_Inv t w Hreach) as [Hlog Hballs _].
  split; [exact Hlog|]. split; [exact Hballs|]. split.
  - intros b Hb. rewrite Hballs in Hb. apply elem_of_balls_of in Hb as [m Hb].
    apply list_elem_of_split in Hb as (pre & post & Heq).
    destruct (Hlog pre (AddBall b m) post Heq) as (pre' & s1 & m1 & s2 & m2 & -> & H1 & H2).
    exists s1, s2. rewrite Heq, !sockets_of_app. cbn. set_solver.
  - intros s Hs. apply elem_of_sockets_of in Hs as [m Hs].
    apply list_elem_of_split in Hs as (pre & post & Heq).
    destruct (Hlog pre (AddSocket s m) post Heq) as (r & Hr & Hid).
    exists r. split; [|exact Hid]. rewrite Heq, residues_of_app. set_solver.
Qed.

End References.

(** ** C5: a token without a symbol *)

Section DigitToken.

Context {num : Type} {NumOps : Number num} {MathObj : Math num} {Imp : Imports num}.

Lemma two_chains_first t s1 s2 :
  exists r, residue_at (two_chains t s1 s2) "P1" 1 = Some r /\ residue_name r = "A".
Proof.
  unfold two_chains.
  destruct (addPeptide_chain "P1" "AG" s1 (DescWorld_new t))
    as (w1 & evs1 & -> & _ & Hp1 & Hn1 & _).
  cbn [snd].
  destruct (addPeptide_chain "P2" "GA" s2 w1) as (w2 & evs2 & -> & _ & Hp2 & _).
  cbn [snd]. unfold residue_at. rewrite Hp2, lookup_insert_ne by discriminate.
  rewrite Hp1, lookup_insert_eq. cbn [N.eqb index_N N.sub].
  destruct (residues_of evs1) as [|r rs]; [discriminate Hn1|].
  exists r. split; [reflexivity|]. now injection Hn1.
Qed.

Lemma two_chains_second t s1 s2 :
  exists r, residue_at (two_chains t s1 s2) "P2" 1 = Some r /\ residue_name r = "G".
Proof.
  unfold two_chains.
  destruct (addPeptide_chain "P2" "GA" s2 (addPeptide "P1" "AG" s1 (DescWorld_new t)).2)
    as (w2 & evs2 & -> & _ & Hp2 & Hn2 & _).
  cbn [snd]. unfold residue_at. rewrite Hp2, lookup_insert_eq. cbn [N.eqb index_N N.sub].
  destruct (residues_of evs2) as [|r rs]; [discriminate Hn2|].
  exists r. split; [reflexivity|]. now injection Hn2.
Qed.

(** C5, on the code.  With chains "AG" and "GA" registered as [P1] and
    [P2], residue 1 of [P1] and residue 1 of [P2] both exist; the clause
    "P1:1-P2:1", whose tokens have no symbol, creates nothing all the same,
    whatever [getAlphaOnly] returns on "1": the symbol it returns is
    compared with the symbol of each residue, and it cannot be both "A" and
    "G". *)
Theorem digit_tokens_create_nothing (t : Temps num) (s1 s2 : Vector3 num) :
  let w := two_chains t s1 s2 in
  (exists r1 r2, residue_at w "P1" 1 = Some r1 /\ residue_at w "P2" 1 = Some r2)
  /\ addCrossLinks "P1:1-P2:1" w = (Normal, w).
Proof.
  intros w. subst w.
  destruct (two_chains_first t s1 s2) as (r1 & Hr1 & Hn1).
  destruct (two_chains_second t s1 s2) as (r2 & Hr2 & Hn2).
  split; [exists r1, r2; split; assumption|].
  rewrite addCrossLinks_single by reflexivity.
  rewrite addCrossLinks_callback_eq.
  change (split "-" "P1:1-P2:1") with ("P1:1", ["P2:1"]).
  cbn [fst snd lookup list_lookup].
  rewrite (resolve_endpoint "P1" "1" "1") by reflexivity.
  rewrite (resolve_endpoint "P2" "1" "1") by reflexivity.
  change (parseInt "1") with 1%N. rewrite Hr1, Hr2, Hn1, Hn2.
  destruct (String.eqb_spec (getAlphaOnly "1") "A") as [->|_]; reflexivity.
Qed.

End DigitToken.

(** ** The examples of the specification, in binary64 *)

Module SampleRuns.

Import Sample.

(** "buildChain("P1", "AG", origin) -> 2 residues, 2 sockets, 1 ball" *)
Example addPeptide_AG :
  length (residues_of (threeWorld w1)) = 2
  /\ length (sockets_of (threeWorld w1)) = 2
  /\ length (balls_of (threeWorld w1)) = 1
  /\ length (balls w1) = 1.
Proof. vm_compute. auto. Qed.

(** "resolveCrossLinks("P1:A1-P1:G2") -> 1 additional ball, 2 additional
    sockets" *)
Example addCrossLinks_A1_G2 :
  let r := addCrossLinks "P1:A1-P1:G2" w1 in
  r.1 = Normal
  /\ length (sockets_of (threeWorld r.2)) = 4
  /\ length (balls_of (threeWorld r.2)) = 2
  /\ length (balls r.2) = 2.
Proof. vm_compute. auto. Qed.

(** "resolveCrossLinks("P1:A1-P1:A2") -> symbol mismatch at position 2 ->
    0 additional primitives" *)
Example addCrossLinks_A1_A2 : addCrossLinks "P1:A1-P1:A2" w1 = (Normal, w1).
Proof. vm_compute. reflexivity. Qed.

End SampleRuns.

(** ** The layout in binary64 *)

Section Binary64.

Context {MathObj : Math spec_float} {Imp : Imports spec_float}.

Lemma infinity_plus_not_less (y z : spec_float) :
  SFltb (B64.add B64.infinity y) z = false.
Proof.
  destruct y as [s|s| |s m e], z as [s'|s'| |s' m' e'];
    try destruct s; try destruct s'; reflexivity.
Qed.

Lemma nan_not_equal (z : spec_float) : SFeqb B64.nan z = false.
Proof. reflexivity. Qed.

(** From an infinite [startPos.x] no residue is to the left of another,
    whatever the radii and lengths are. *)
Lemma infinite_start_not_increasing (name sequence : string) (y z : spec_float)
    (w : DescWorld spec_float) (chain : Peptide spec_float) (i j : nat)
    (r r' : Residue spec_float) :
  peptides (addPeptide name sequence (mkVector3 B64.infinity y z) w).2 !! name = Some chain ->
  chain !! i = Some r -> chain !! j = Some r' ->
  SFltb (vx (residue_pos r)) (vx (residue_pos r')) = false.
Proof.
  intros Hc Hi Hj.
  destruct (addPeptide_residue_positions name sequence (mkVector3 B64.infinity y z) w)
    as (chain' & Hc' & _ & Hpos).
  assert (Heq : Some chain = Some chain') by exact (eq_trans (eq_sym Hc) Hc').
  injection Heq as <-.
  destruct (Hpos i r Hi) as (-> & _). cbn [vx nadd B64.number].
  apply infinity_plus_not_less.
Qed.

(** From a [startPos.x] that is not a number, the ball of a connection
    has an x that is not a number either, and [===] finds it equal to
    nothing, the mean of the two residues included. *)
Lemma nan_start_ball_not_at_mean (name sequence : string) (y z : spec_float)
    (w : DescWorld spec_float) (j : nat) :
  S j < String.length sequence ->
  let w' := (addPeptide name sequence (mkVector3 B64.nan y z) w).2 in
  exists chain prev cur pre post s1 m1 s2 m2 b m3,
    peptides w' !! name = Some chain
    /\ chain !! j = Some prev /\ chain !! S j = Some cur
    /\ threeWorld w'
       = threeWorld w
         ++ pre ++ AddResidue cur :: AddSocket s1 m1 :: AddSocket s2 m2
                   :: AddBall b m3 :: post
    /\ SFeqb (vx (position m3))
         (B64.div (B64.add (vx (residue_pos prev)) (vx (residue_pos cur))) (B64.of_nat 2))
       = false.
Proof.
  intros Hlen w'. subst w'.
  destruct (addPeptide_trace name sequence (mkVector3 B64.nan y z) w)
    as (evs & t & k & -> & Hem).
  cbn [snd threeWorld peptides].
  assert (Hn : length (residues_of evs) = String.length sequence).
  { rewrite <- split_chars_length, <- (emitted_names _ _ _ _ _ Hem).
    now rewrite length_fmap. }
  destruct (lookup_lt_is_Some_2 (residues_of evs) j) as [prev Hj]; [lia|].
  destruct (lookup_lt_is_Some_2 (residues_of evs) (S j)) as [cur HSj]; [lia|].
  destruct (emitted_connection _ _ _ _ _ Hem j prev cur Hj HSj)
    as (pre & post & id1 & id2 & id3 & t1 & t2 & t3 & -> & _).
  destruct (emitted_residue _ _ _ _ _ Hem j prev Hj) as [_ Hprev].
  unfold connection. cbn [app].
  eexists _, prev, cur. do 8 eexists.
  split; [apply lookup_insert_eq|]. split; [exact Hj|]. split; [exact HSj|].
  split; [reflexivity|].
  rewrite position_setPosition. cbn [vx clone_setX].
  unfold ballX, socket1X. rewrite Hprev. reflexivity.
Qed.

End Binary64.

(** ** The theorems at the sample worlds *)

Import Sample.

(** C1 at the clause "P1:A1-P1:G2", chain [P1] being "AG": both
    residues are there with their symbols, and the joint is made. *)
Lemma cross_link_iff_witness :
  separator_free "P1" = true /\ is_alpha "A" = true /\ is_alpha "G" = true
  /\ getAlphaOnly "A1" = "A" /\ getAlphaOnly "G2" = "G"
  /\ (exists r1 r2, has_symbol Sample.w1 "P1" 1 "A" r1 /\ has_symbol Sample.w1 "P1" 2 "G" r2)
  /\ exists w' s1 s2 b m,
       addCrossLinks "P1:A1-P1:G2" Sample.w1 = (Normal, w')
       /\ threeWorld w'
          = threeWorld Sample.w1 ++ [AddSocket s1 m; AddSocket s2 m; AddBall b m]
       /\ balls w' = balls Sample.w1 ++ [b].
Proof.
  do 5 (split; [reflexivity|]).
  assert (Hv : exists r1 r2, has_symbol Sample.w1 "P1" 1 "A" r1
                             /\ has_symbol Sample.w1 "P1" 2 "G" r2).
  { eexists _, _. split; apply has_symbol_residue_at; vm_compute; split; reflexivity. }
  split; [exact Hv|].
  destruct (cross_link_iff Sample.w1 "P1" "P1" "A" "G" 1 2)
    as (w' & Heq & Hvalid & _); try reflexivity.
  destruct (Hvalid Hv) as (r1 & r2 & s1 & s2 & b & m & _ & _ & Hlog & Hballs & _).
  exists w', s1, s2, b, m. split; [exact Heq|]. split; [exact Hlog | exact Hballs].
Defined.

(** C1, as stated, fails.  [addPeptide] takes any string for a name.
    Under a name with a dash, a colon or a semicolon in it the chain "X"
    has the residue of symbol [X] at index 1, and yet the clause that names
    it twice makes no joint: the call throws, the state as it was. *)
Lemma chain_name_with_separator_throws :
  ((exists r, has_symbol (addPeptide "a-b" "X" Sample.origin Sample.w0).2 "a-b" 1 "X" r)
   /\ addCrossLinks "a-b:X1-a-b:X1" (addPeptide "a-b" "X" Sample.origin Sample.w0).2
      = (Thrown, (addPeptide "a-b" "X" Sample.origin Sample.w0).2))
  /\ ((exists r, has_symbol (addPeptide "a:b" "X" Sample.origin Sample.w0).2 "a:b" 1 "X" r)
      /\ addCrossLinks "a:b:X1-a:b:X1" (addPeptide "a:b" "X" Sample.origin Sample.w0).2
         = (Thrown, (addPeptide "a:b" "X" Sample.origin Sample.w0).2))
  /\ ((exists r, has_symbol (addPeptide "a;b" "X" Sample.origin Sample.w0).2 "a;b" 1 "X" r)
      /\ addCrossLinks "a;b:X1-a;b:X1" (addPeptide "a;b" "X" Sample.origin Sample.w0).2
         = (Thrown, (addPeptide "a;b" "X" Sample.origin Sample.w0).2))
  /\ getAlphaOnly "X1" = "X".
Proof.
  split; [|split; [|split; [|reflexivity]]];
    (split;
     [eexists; apply has_symbol_residue_at; vm_compute; split; reflexivity
     | vm_compute; reflexivity]).
Qed.

(** C2 at the clause "P1:A2-P1:G2", which the validation skips, followed
    by the valid clause "P1:A1-P1:G2". *)
Lemma grammatical_clause_continues_witness :
  free_of ";" "P1:A2-P1:G2" = true
  /\ (split ":" (split "-" "P1:A2-P1:G2").1).2 !! 0%nat = Some "A2"
  /\ (split "-" "P1:A2-P1:G2").2 !! 0%nat = Some "P1:G2"
  /\ (split ":" "P1:G2").2 !! 0%nat = Some "G2"
  /\ is_Some (match_digits "A2") /\ is_Some (match_digits "G2")
  /\ exists w',
       addCrossLinks "P1:A2-P1:G2" Sample.w1 = (Normal, w')
       /\ addCrossLinks "P1:A2-P1:G2;P1:A1-P1:G2" Sample.w1
          = addCrossLinks "P1:A1-P1:G2" w'.
Proof.
  do 4 (split; [reflexivity|]).
  assert (H1 : is_Some (match_digits "A2")) by (eexists; reflexivity).
  assert (H2 : is_Some (match_digits "G2")) by (eexists; reflexivity).
  split; [exact H1|]. split; [exact H2|].
  destruct (proj1 (grammatical_clause_continues Sample.w1)
              "P1:A2-P1:G2" "P1:A1-P1:G2" "P1:G2" "A2" "G2"
              eq_refl eq_refl eq_refl eq_refl H1 H2) as (w' & Heq & Hrest & _).
  exists w'. split; [exact Heq | exact Hrest].
Defined.

(** C2, as stated, fails.  In the world with chain [P1] = "AG" the clause
    "P1:A1-P1:G2" is valid and creates its joint when it stands alone; after
    a clause whose token has no digit, or after a clause that has one
    endpoint only, the call throws and the valid clause creates nothing. *)
Lemma parse_failure_aborts_later_clause :
  (addCrossLinks "P1:A1-P1:G2" Sample.w1).1 = Normal
  /\ length (balls (addCrossLinks "P1:A1-P1:G2" Sample.w1).2)
     = S (length (balls Sample.w1))
  /\ addCrossLinks "P1:A-P1:G2;P1:A1-P1:G2" Sample.w1 = (Thrown, Sample.w1)
  /\ addCrossLinks "P1:A1;P1:A1-P1:G2" Sample.w1 = (Thrown, Sample.w1).
Proof. vm_compute. repeat split. Qed.

(** With lengths 1, 1 and 1/2 the chain "AG" from the origin is laid out
    without rounding: the residues at 0 and 5, the sockets at 3/2 and 7/2,
    the ball at 5/2.  From [startPos.x] = 2^53 the x of the second residue
    is rounded, and the check says so. *)
Example layout_AG_without_rounding :
  let x (p : Vector3 Qc) : Q := this (vx p) in
  (option_map this (exact_residueX Sample.origin 0) = Some (0 # 1)
   /\ option_map this (exact_residueX Sample.origin 1) = Some (5 # 1)
   /\ option_map x (exact_socket1 Sample.identity Sample.origin 0) = Some (3 # 2)
   /\ option_map x (exact_socket2 Sample.identity Sample.origin 0) = Some (7 # 2)
   /\ option_map this (exact_ballX Sample.origin 0) = Some (5 # 2))%Q
  /\ exact_residueX (mkVector3 (B64.of_Z_exp 1 53) (B64.of_nat 0) (B64.of_nat 0)) 1 = None.
Proof. vm_compute. repeat split. Qed.

(** C4 at the chain "AG" from the origin, with lengths 1, 1 and 1/2: the
    two x-coordinates are computed without rounding, 0 and 5. *)
Lemma residue_layout_witness :
  exists chain r r' q q' qs qr qb,
    peptides (addPeptide "P1" "AG" Sample.origin Sample.w0).2 !! "P1" = Some chain
    /\ chain !! 0 = Some r /\ chain !! 1 = Some r'
    /\ exact_residueX Sample.origin 0 = Some q
    /\ exact_residueX Sample.origin 1 = Some q'
    /\ B64.value socketLength = Some qs
    /\ B64.value residueRadius = Some qr
    /\ B64.value ballRadius = Some qb
    /\ (0 < qs + qr + qb)%Qc
    /\ B64.value (vx (residue_pos r)) = Some q
    /\ B64.value (vx (residue_pos r')) = Some q'
    /\ (q' - q = Checked.of_nat 2 * (qs + qr + qb))%Qc
    /\ (q < q')%Qc.
Proof.
  destruct (proj2 residue_layout Sample.math Sample.imports
              "P1" "AG" Sample.origin Sample.w0) as (chain & Hc & Hall).
  destruct (chain !! 0) as [r|] eqn:H0;
    [|vm_compute in Hc; injection Hc as <-; discriminate H0].
  destruct (chain !! 1) as [r'|] eqn:H1;
    [|vm_compute in Hc; injection Hc as <-; discriminate H1].
  destruct (exact_residueX Sample.origin 0) as [q|] eqn:Hq;
    [|vm_compute in Hq; discriminate Hq].
  destruct (exact_residueX Sample.origin 1) as [q'|] eqn:Hq';
    [|vm_compute in Hq'; discriminate Hq'].
  assert (Hlt : 0 < 1) by lia.
  destruct (Hall 0 1 r r' q q' Hlt H0 H1 Hq Hq')
    as (qs & qr & qb & Hs & Hr & Hb & Hv & Hv' & Hstep & Hord).
  assert (Hpos : (0 < qs + qr + qb)%Qc).
  { vm_compute in Hs. vm_compute in Hr. vm_compute in Hb.
    injection Hs as <-. injection Hr as <-. injection Hb as <-. reflexivity. }
  exists chain, r, r', q, q', qs, qr, qb.
  do 11 (split; [first [assumption | reflexivity]|]).
  split; [now apply Hstep | now apply Hord].
Defined.

(** C6 at the connection of the chain "AG" from the origin, computed
    without rounding: the ball at 5/2, between the sockets at 3/2 and
    7/2. *)
Lemma connection_symmetric_witness :
  1 < String.length "AG"
  /\ exists qp qc p1 p2 qb,
       exact_residueX Sample.origin 0 = Some qp
       /\ exact_residueX Sample.origin 1 = Some qc
       /\ exact_socket1 (at_tempMatrix1 (temps Sample.w0)) Sample.origin 0 = Some p1
       /\ exact_socket2 (at_tempMatrix1 (temps Sample.w0)) Sample.origin 0 = Some p2
       /\ exact_ballX Sample.origin 0 = Some qb
       /\ (qb = (qp + qc) / Checked.of_nat 2)%Qc
       /\ (qb - vx p1 = vx p2 - qb)%Qc
       /\ exists b m3,
            AddBall b m3 ∈ threeWorld (addPeptide "P1" "AG" Sample.origin Sample.w0).2
            /\ B64.value (vx (position m3)) = Some qb.
Proof.
  assert (Hlen : 1 < String.length "AG") by (cbn; lia).
  split; [exact Hlen|].
  destruct (exact_residueX Sample.origin 0) as [qp|] eqn:Hqp;
    [|vm_compute in Hqp; discriminate Hqp].
  destruct (exact_residueX Sample.origin 1) as [qc|] eqn:Hqc;
    [|vm_compute in Hqc; discriminate Hqc].
  destruct (exact_socket1 (at_tempMatrix1 (temps Sample.w0)) Sample.origin 0)
    as [p1|] eqn:Hp1; [|vm_compute in Hp1; discriminate Hp1].
  destruct (exact_socket2 (at_tempMatrix1 (temps Sample.w0)) Sample.origin 0)
    as [p2|] eqn:Hp2; [|vm_compute in Hp2; discriminate Hp2].
  destruct (exact_ballX Sample.origin 0) as [qb|] eqn:Hqb;
    [|vm_compute in Hqb; discriminate Hqb].
  destruct (connection_symmetric "P1" "AG" Sample.origin Sample.w0 0 Hlen)
    as (chain & prev & cur & pre & post & s1 & s2 & b
        & _ & _ & _ & Hlog & _ & _ & _ & _ & _ & Hex).
  destruct (Hex qp qc p1 p2 qb Hqp Hqc Hp1 Hp2 Hqb)
    as (ql & qr & _ & _ & _ & _ & _ & _ & Hvb & Hmid & Hd1 & Hd2 & _).
  exists qp, qc, p1, p2, qb. do 5 (split; [reflexivity|]).
  split; [exact Hmid|]. split; [now rewrite Hd1, Hd2|].
  eexists b, _. split; [|exact Hvb].
  rewrite Hlog. apply elem_of_app. right. apply elem_of_app. right.
  do 3 right. left.
Defined.

(** C7 at the state after [addPeptide("P1", "AG", origin)] and
    [addCrossLinks("P1:A1-P1:G2")]. *)
Lemma references_never_dangle_witness :
  reachable Sample.temps0 (addCrossLinks "P1:A1-P1:G2" Sample.w1).2
  /\ well_linked (threeWorld (addCrossLinks "P1:A1-P1:G2" Sample.w1).2).
Proof.
  assert (Hr : reachable Sample.temps0 (addCrossLinks "P1:A1-P1:G2" Sample.w1).2)
    by (apply reachable_addCrossLinks, reachable_addPeptide, reachable_new).
  split; [exact Hr|].
  exact (proj1 (references_never_dangle Sample.temps0 _ Hr)).
Defined.

(** C8 at a second [addPeptide] under the name [P1]. *)
Lemma addPeptide_last_write_wins_witness :
  exists old w' evs,
    peptides Sample.w1 !! "P1" = Some old
    /\ addPeptide "P1" "C" Sample.origin Sample.w1 = (Normal, w')
    /\ peptides w' !! "P1" = Some (residues_of evs)
    /\ residue_name <$> residues_of evs = ["C"].
Proof.
  destruct (peptides Sample.w1 !! "P1") as [old|] eqn:Hold;
    [|vm_compute in Hold; discriminate Hold].
  destruct (addPeptide_last_write_wins "P1" "C" Sample.origin Sample.w1 old Hold)
    as (w' & evs & Heq & _ & Hp & Hn & _).
  exists old, w', evs. repeat split; assumption.
Defined.

(** C9 at residue 2 of the chain "AG". *)
Lemma addPeptide_one_based_symbols_witness :
  1 <= 2 <= String.length "AG"
  /\ exists r c,
       residue_at (addPeptide "P1" "AG" Sample.origin Sample.w0).2 "P1" 2 = Some r
       /\ String.get 1 "AG" = Some c
       /\ residue_name r = String c EmptyString.
Proof.
  assert (Hk : 1 <= 2 <= String.length "AG") by (cbn; lia).
  split; [exact Hk|].
  exact (addPeptide_one_based_symbols "P1" "AG" Sample.origin Sample.w0 2 Hk).
Defined.

(** C4, as stated, fails in the arithmetic of the engine.  With radii and
    lengths 1, 1 and 1/2 the spacing is 5.  From [startPos.x] = 2^60 the two
    residues of "AG" have the same x, 2^60: the 5 is lost in the rounding.
    From [startPos.x] = 2^53 they are 4 apart, not 5.  And from an infinite
    [startPos.x] no residue is to the left of another, whatever the radii
    and lengths. *)
Lemma residue_x_binary64_counterexample :
  let far := mkVector3 (B64.of_Z_exp 1 60) (B64.of_nat 0) (B64.of_nat 0) in
  let near := mkVector3 (B64.of_Z_exp 1 53) (B64.of_nat 0) (B64.of_nat 0) in
  (chain_xs (addPeptide "P1" "AG" far Sample.w0).2 "P1"
   = [B64.of_Z_exp 1 60; B64.of_Z_exp 1 60]
   /\ SFltb (B64.of_Z_exp 1 60) (B64.of_Z_exp 1 60) = false)
  /\ (chain_xs (addPeptide "P1" "AG" near Sample.w0).2 "P1"
      = [B64.of_Z_exp 1 53; B64.of_Z_exp 9007199254740996 0]
      /\ B64.sub (B64.of_Z_exp 9007199254740996 0) (B64.of_Z_exp 1 53) = B64.of_nat 4
      /\ (B64.of_nat 2 * (socketLength + residueRadius + ballRadius))%num = B64.of_nat 5)
  /\ (forall (M : Math spec_float) (I : Imports spec_float)
        (name sequence : string) (y z : spec_float) (w : DescWorld spec_float)
        (chain : Peptide spec_float) (i j : nat) (r r' : Residue spec_float),
        peptides (addPeptide (MathObj := M) (Imp := I) name sequence
                    (mkVector3 B64.infinity y z) w).2 !! name = Some chain ->
        chain !! i = Some r -> chain !! j = Some r' ->
        SFltb (vx (residue_pos r)) (vx (residue_pos r')) = false).
Proof.
  split; [|split].
  - vm_compute. split; reflexivity.
  - vm_compute. repeat split; reflexivity.
  - intros M I. apply infinite_start_not_increasing.
Qed.

(** C6, as stated, fails in the arithmetic of the engine.  With radii and
    lengths 1, 1 and 1/2 and [startPos.x] = 2^53, the residues of "AG" are at
    2^53 and 2^53 + 4, the mean of which is 2^53 + 2, and both sockets and
    the ball are at 2^53, the x of the first residue: the halves and units
    added on the way are lost in the rounding.  And from a [startPos.x] that
    is not a number the ball's x is equal to nothing, whatever the radii and
    lengths. *)
Lemma ball_off_midpoint_binary64 :
  let near := mkVector3 (B64.of_Z_exp 1 53) (B64.of_nat 0) (B64.of_nat 0) in
  (event_x <$> threeWorld (addPeptide "P1" "AG" near Sample.w0).2
   = [B64.of_Z_exp 1 53; B64.of_Z_exp 9007199254740996 0;
      B64.of_Z_exp 1 53; B64.of_Z_exp 1 53; B64.of_Z_exp 1 53]
   /\ B64.div (B64.add (B64.of_Z_exp 1 53) (B64.of_Z_exp 9007199254740996 0)) (B64.of_nat 2)
      = B64.of_Z_exp 9007199254740994 0
   /\ SFeqb (B64.of_Z_exp 1 53) (B64.of_Z_exp 9007199254740994 0) = false)
  /\ (forall (M : Math spec_float) (I : Imports spec_float)
        (name sequence : string) (y z : spec_float) (w : DescWorld spec_float) (j : nat),
        S j < String.length sequence ->
        let w' := (addPeptide (MathObj := M) (Imp := I) name sequence
                     (mkVector3 B64.nan y z) w).2 in
        exists chain prev cur pre post s1 m1 s2 m2 b m3,
          peptides w' !! name = Some chain
          /\ chain !! j = Some prev /\ chain !! S j = Some cur
          /\ threeWorld w'
             = threeWorld w
               ++ pre ++ AddResidue cur :: AddSocket s1 m1 :: AddSocket s2 m2
                         :: AddBall b m3 :: post
          /\ SFeqb (vx (position m3))
               (B64.div (B64.add (vx (residue_pos prev)) (vx (residue_pos cur)))
                  (B64.of_nat 2))
             = false).
Proof.
  split.
  - vm_compute. repeat split; reflexivity.
  - intros M I. apply nan_start_ball_not_at_mean.
Qed.

(** * Further properties *)

(** ** Identifiers, fields, pairs of sockets, scratch matrices *)

Section Bookkeeping.

Context {num : Type} {NumOps : Number num} {MathObj : Math num} {Imp : Imports num}.

Lemma split_chars_one (s : string) :
  Forall (fun c => String.length c = 1) (split_chars s).
Proof. induction s as [|c s IH]; constructor; [reflexivity | exact IH]. Qed.

(** Appending calls that carry the next identifiers keeps the invariant. *)
Lemma LogInv_append (t0 : Temps num) (w w' : DescWorld num) (evs : list (Event num)) :
  LogInv t0 w ->
  threeWorld w' = threeWorld w ++ evs ->
  idCalls w' = idCalls w + length evs ->
  (forall j e, evs !! j = Some e ->
     event_id e = nanoid (idCalls w + j) /\ as_constructed e) ->
  length (sockets_of evs) = 2 * length (balls_of evs) ->
  (forall v, setPosition (at_tempMatrix1 (temps w')) v
             = setPosition (at_tempMatrix1 (temps w)) v) ->
  LogInv t0 w'.
Proof.
  intros [Hc Hi Hf Hp Ht] Hlog Hcalls Hevs Hpairs Htemp. split.
  - rewrite Hcalls, Hlog, length_app. lia.
  - intros k e. rewrite Hlog. intros Hk.
    apply lookup_app_Some in Hk as [Hk | [Hge Hk]].
    + now apply Hi.
    + destruct (Hevs _ _ Hk) as [-> _]. f_equal. lia.
  - intros e. rewrite Hlog. intros He.
    apply elem_of_app in He as [He | He]; [now apply Hf|].
    apply list_elem_of_lookup in He as [j Hj]. now destruct (Hevs _ _ Hj).
  - rewrite Hlog, sockets_of_app, balls_of_app, !length_app. lia.
  - intros v. now rewrite Htemp.
Qed.

Lemma LogInv_new (t : Temps num) : LogInv t (DescWorld_new t).
Proof.
  split; cbn; try reflexivity.
  - intros k e Hk. now rewrite lookup_nil in Hk.
  - intros e He. inversion He.
Qed.

Lemma LogInv_addPeptide_callback (t0 : Temps num) name startPos prevResidue c i
    (w : DescWorld num) :
  String.length c = 1 -> LogInv t0 w ->
  LogInv t0 (addPeptide_callback name startPos prevResidue c i w).2.
Proof.
  intros Hc Hinv. destruct prevResidue as [prevResidue|].
  - rewrite addPeptide_callback_link. cbv zeta. cbn [snd].
    eapply (LogInv_append t0 w _ [_; _; _; _] Hinv).
    + cbn [threeWorld]. now rewrite <- !app_assoc.
    + cbn [idCalls length]. lia.
    + intros [|[|[|[|j]]]] e; cbn [lookup list_lookup]; try discriminate;
        intros [= <-]; cbn [event_id as_constructed residue_id socket_id ball_id
                             residue_radius residue_name socket_radius socket_length
                             socket_isBond socket_matrix ball_radius ball_matrix];
        (split; [f_equal; lia | auto]).
    + reflexivity.
    + intros v. reflexivity.
  - rewrite addPeptide_callback_first. cbv zeta. cbn [snd].
    eapply (LogInv_append t0 w _ [_] Hinv).
    + reflexivity.
    + cbn [idCalls length]. lia.
    + intros [|j] e; cbn [lookup list_lookup]; try discriminate.
      intros [= <-]. cbn [event_id as_constructed residue_id residue_radius residue_name].
      split; [f_equal; lia | auto].
    + reflexivity.
    + intros v. reflexivity.
Qed.

(** The callback of [addPeptide] always completes, with the residue it
    has made as the next [prevResidue]. *)
Lemma addPeptide_callback_completes name startPos prevResidue c i (w : DescWorld num) :
  exists residue,
    addPeptide_callback name startPos prevResidue c i w
    = (Next (Some residue), (addPeptide_callback name startPos prevResidue c i w).2).
Proof.
  destruct prevResidue as [prevResidue|].
  - rewrite addPeptide_callback_link. cbv zeta. eexists. reflexivity.
  - rewrite addPeptide_callback_first. cbv zeta. eexists. reflexivity.
Qed.

(** What every call of a callback keeps, the method keeps. *)
Lemma addPeptide_forEach_preserves (P : DescWorld num -> Prop) name startPos cs :
  (forall prevResidue c i w, c ∈ cs -> P w ->
     P (addPeptide_callback name startPos prevResidue c i w).2) ->
  forall prevResidue i w, P w -> P (addPeptide_forEach name startPos prevResidue cs i w).2.
Proof.
  induction cs as [|c cs IH]; intros Hstep prevResidue i w Hw.
  - exact Hw.
  - cbn [addPeptide_forEach]. unfold bind at 1.
    destruct (addPeptide_callback_completes name startPos prevResidue c i w) as [r Hr].
    rewrite Hr. apply IH.
    + intros prev' c' i' w' Hc'. apply Hstep. now right.
    + apply Hstep; [now left | exact Hw].
Qed.

Lemma addPeptide_preserves (P : DescWorld num -> Prop) name sequence startPos w :
  (forall w, P w ->
     P (mkDescWorld (<[name := []]> (peptides w)) (balls w) (threeWorld w) (temps w)
          (idCalls w))) ->
  (forall prevResidue c i w, String.length c = 1 -> P w ->
     P (addPeptide_callback name startPos prevResidue c i w).2) ->
  P w -> P (addPeptide name sequence startPos w).2.
Proof.
  intros Hset Hstep Hw. unfold addPeptide, run, bind at 1. unfold peptides_set, modify.
  match goal with |- context [addPeptide_forEach ?n ?s ?p ?cs ?i ?w'] =>
    pose proof (addPeptide_forEach_preserves P n s cs) as Hf;
    specialize (Hf ltac:(intros prev c j w0 Hc; apply Hstep;
                         exact (proj1 (Forall_forall _ _) (split_chars_one sequence) c Hc))
                   p i w' (Hset w Hw));
    destruct (addPeptide_forEach n s p cs i w') as [[[]| |] w'']; exact Hf
  end.
Qed.

Lemma addCrossLinks_callback_state crossLink (w : DescWorld num) :
  (addCrossLinks_callback crossLink w).2 = w
  \/ exists residue1 residue2,
       addCrossLinks_callback crossLink w = (Next tt, cross_linked w residue1 residue2).
Proof.
  rewrite addCrossLinks_callback_eq.
  destruct (resolve (Some (split "-" crossLink).1) w) as [[r1| |] w1]; auto.
  destruct (resolve ((split "-" crossLink).2 !! 0%nat) w) as [[r2| |] w2]; auto.
  right. now exists r1, r2.
Qed.

Lemma forEach_preserves (P : DescWorld num -> Prop) :
  (forall w residue1 residue2, P w -> P (cross_linked w residue1 residue2)) ->
  forall crossLinks w, P w -> P (forEach addCrossLinks_callback crossLinks w).2.
Proof.
  intros Hstep crossLinks. induction crossLinks as [|c cs IH]; intros w Hw; cbn [forEach].
  - exact Hw.
  - destruct (addCrossLinks_callback_state c w) as [Hsame | (r1 & r2 & Heq)].
    + destruct (addCrossLinks_callback c w) as [[[]| |] w']; cbn [snd] in *; subst w';
        try exact Hw; now apply IH.
    + rewrite Heq. apply IH, Hstep, Hw.
Qed.

Lemma addCrossLinks_preserves (P : DescWorld num -> Prop) crossLinkStr w :
  (forall w residue1 residue2, P w -> P (cross_linked w residue1 residue2)) ->
  P w -> P (addCrossLinks crossLinkStr w).2.
Proof.
  intros Hstep Hw. unfold addCrossLinks, run.
  pose proof (forEach_preserves P Hstep
                ((split ";" crossLinkStr).1 :: (split ";" crossLinkStr).2) w Hw) as Hf.
  now destruct (forEach _ _ w) as [[[]| |] w'].
Qed.

Lemma LogInv_cross_linked (t0 : Temps num) (w : DescWorld num) residue1 residue2 :
  LogInv t0 w -> LogInv t0 (cross_linked w residue1 residue2).
Proof.
  intros Hinv.
  apply (LogInv_append t0 w _ (cross_link_events w residue1 residue2) Hinv).
  - reflexivity.
  - cbn [cross_linked idCalls cross_link_events length]. lia.
  - unfold cross_link_events.
    intros [|[|[|j]]] e; cbn [lookup list_lookup]; try discriminate;
      intros [= <-]; cbn [event_id as_constructed socket_id ball_id socket_radius
                           socket_length socket_isBond socket_matrix ball_radius
                           ball_matrix];
      (split; [f_equal; lia | auto]).
  - reflexivity.
  - intros v. reflexivity.
Qed.

Lemma reachable_LogInv (t : Temps num) (w : DescWorld num) :
  reachable t w -> LogInv t w.
Proof.
  induction 1 as [| w name sequence startPos _ IH | w crossLinkStr _ IH].
  - apply LogInv_new.
  - apply addPeptide_preserves; [| |exact IH].
    + intros w0 [Hc Hi Hf Hp Ht]. now split.
    + intros prev c i w0 Hc. now apply LogInv_addPeptide_callback.
  - apply addCrossLinks_preserves; [|exact IH].
    intros w0 r1 r2. apply LogInv_cross_linked.
Qed.

End Bookkeeping.

(** ** Identifiers *)

Section Identifiers.

Context {num : Type} {NumOps : Number num} {MathObj : Math num} {Imp : Imports num}.

Lemma LogInv_ids (t0 : Temps num) (w : DescWorld num) :
  LogInv t0 w -> event_id <$> threeWorld w = nanoid <$> seq 0 (idCalls w).
Proof.
  intros [Hc Hi _ _ _]. rewrite Hc. apply list_eq. intros k.
  rewrite !list_lookup_fmap.
  destruct (threeWorld w !! k) as [e|] eqn:He.
  - rewrite lookup_seq_lt by (eapply lookup_lt_Some; exact He).
    cbn. f_equal. now apply Hi.
  - rewrite lookup_seq_ge by (apply lookup_ge_None; exact He). reflexivity.
Qed.

(** X1. In every state a [DescWorld] reaches, [newID] has been called
    once for each call the collaborator has received, and the primitive of
    call number [k] carries the identifier that call number [k] of [nanoid]
    returned: identifiers are drawn in the order of the calls, one each,
    none discarded. *)
Theorem identifiers_in_call_order (t : Temps num) (w : DescWorld num) :
  reachable t w ->
  idCalls w = length (threeWorld w)
  /\ event_id <$> threeWorld w = nanoid <$> seq 0 (idCalls w).
Proof.
  intros Hw. pose proof (reachable_LogInv t w Hw) as Hinv.
  split; [apply (li_calls _ _ Hinv) | apply (LogInv_ids t), Hinv].
Qed.

(** X2. If [nanoid] never returns the same identifier twice, no two
    primitives sent to the collaborator share an identifier, whatever
    their kinds. *)
Theorem identifiers_distinct (t : Temps num) (w : DescWorld num) :
  (forall i j, nanoid i = nanoid j -> i = j) ->
  reachable t w ->
  NoDup (event_id <$> threeWorld w).
Proof.
  intros Hinj Hw. rewrite (LogInv_ids t) by now apply reachable_LogInv.
  exact (NoDup_fmap_2 (Inj0 := Hinj) nanoid _ (NoDup_seq 0 (idCalls w))).
Qed.

End Identifiers.

(** ** Fields and pairs *)

Section Fields.

Context {num : Type} {NumOps : Number num} {MathObj : Math num} {Imp : Imports num}.

(** X3. Every primitive of a reachable state has the fields the
    constructors were called with: a residue the radius [residueRadius]
    and a symbol of exactly one character; a socket the radius
    [socketRadius], the length [socketLength], [isBond] false, and a
    reference to [tempMultiMatrix1] or to [tempMatrix1]; a ball the radius
    [ballRadius] and a reference to [tempMatrix1].  The same holds of the
    residues of the registry and of the balls of the ball list. *)
Theorem primitives_as_constructed (t : Temps num) (w : DescWorld num) :
  reachable t w ->
  (forall e, e ∈ threeWorld w -> as_constructed e)
  /\ (forall chain p r, peptides w !! chain = Some p -> r ∈ p ->
        residue_radius r = residueRadius /\ String.length (residue_name r) = 1)
  /\ (forall b, b ∈ balls w -> ball_radius b = ballRadius /\ ball_matrix b = tempMatrix1).
Proof.
  intros Hw. pose proof (reachable_LogInv t w Hw) as Hlog.
  pose proof (reachable_Inv t w Hw) as Hinv.
  split; [exact (li_fields _ _ Hlog)|]. split.
  - intros chain p r Hp Hr.
    apply (li_fields _ _ Hlog (AddResidue r)), elem_of_residues_of.
    exact (inv_peptides _ Hinv chain p r Hp Hr).
  - intros b Hb. rewrite (inv_balls _ Hinv) in Hb.
    apply elem_of_balls_of in Hb as [m Hm].
    exact (li_fields _ _ Hlog (AddBall b m) Hm).
Qed.

(** X4. In every reachable state the collaborator has received exactly
    two sockets for each ball of the ball list. *)
Theorem two_sockets_per_ball (t : Temps num) (w : DescWorld num) :
  reachable t w ->
  length (sockets_of (threeWorld w)) = 2 * length (balls w).
Proof.
  intros Hw. rewrite (inv_balls _ (reachable_Inv t w Hw)).
  apply (li_pairs t), reachable_LogInv, Hw.
Qed.

End Fields.


(** ** The scratch matrix [tempMatrix1] *)

Section Transforms.

Context {num : Type} {NumOps : Number num} {MathObj : Math num} {Imp : Imports num}.

Lemma ball_transforms_app (evs1 evs2 : list (Event num)) :
  ball_transforms (evs1 ++ evs2) = ball_transforms evs1 ++ ball_transforms evs2.
Proof. apply omap_app. Qed.

Lemma elem_of_ball_transforms m (log : list (Event num)) :
  m ∈ ball_transforms log <-> exists b, AddBall b m ∈ log.
Proof.
  unfold ball_transforms. rewrite list_elem_of_omap. split.
  - intros (e & He & Hm). destruct e; try discriminate.
    injection Hm as ->. eauto.
  - intros (b & Hb). now exists (AddBall b m).
Qed.

Lemma length_events (evs : list (Event num)) :
  length evs
  = length (residues_of evs) + length (sockets_of evs) + length (balls_of evs).
Proof.
  induction evs as [|e evs IH]; [reflexivity|].
  rewrite residues_of_cons, sockets_of_cons, balls_of_cons.
  destruct e; cbn [length]; lia.
Qed.

Lemma TransformInv_temp1 (t0 : Temps num) (w : DescWorld num) :
  TransformInv t0 w ->
  forall v, setPosition (at_tempMatrix1 (temps w)) v = setPosition (at_tempMatrix1 t0) v.
Proof.
  intros [Hl Hb] v. rewrite Hl.
  destruct (last (ball_transforms (threeWorld w))) as [m|] eqn:Hm; [|reflexivity].
  apply Hb. apply last_Some in Hm as [l' ->]. apply elem_of_app. right. now left.
Qed.

Lemma TransformInv_new (t : Temps num) : TransformInv t (DescWorld_new t).
Proof. split; [reflexivity|]. intros m Hm. inversion Hm. Qed.

(** A ball sent with what [tempMatrix1] holds after some [setPosition]. *)
Lemma TransformInv_ball (t0 : Temps num) (w w' : DescWorld num) pre b m :
  TransformInv t0 w ->
  threeWorld w' = (threeWorld w ++ pre) ++ [AddBall b m] ->
  ball_transforms pre = [] ->
  at_tempMatrix1 (temps w') = m ->
  (forall v, setPosition m v = setPosition (at_tempMatrix1 (temps w)) v) ->
  TransformInv t0 w'.
Proof.
  intros Hinv Hlog Hpre Htemp Hm.
  assert (Hbts : ball_transforms (threeWorld w') = ball_transforms (threeWorld w) ++ [m]).
  { rewrite Hlog, !ball_transforms_app, Hpre, app_nil_r. reflexivity. }
  split.
  - rewrite Hbts, last_snoc. exact Htemp.
  - intros m' Hm'. rewrite Hbts in Hm'. apply elem_of_app in Hm' as [Hm' | Hm'].
    + now apply (ti_balls _ _ Hinv).
    + apply list_elem_of_singleton in Hm' as ->. intros v.
      rewrite Hm. now apply TransformInv_temp1.
Qed.

Lemma TransformInv_addPeptide_callback (t0 : Temps num) name startPos prevResidue c i
    (w : DescWorld num) :
  TransformInv t0 w ->
  TransformInv t0 (addPeptide_callback name startPos prevResidue c i w).2.
Proof.
  intros Hinv. destruct prevResidue as [prevResidue|].
  - rewrite addPeptide_callback_link. cbv zeta. cbn [snd].
    eapply (TransformInv_ball t0 w _ [_; _; _] _ _ Hinv).
    + cbn [threeWorld]. now rewrite <- !app_assoc.
    + reflexivity.
    + reflexivity.
    + intros v. reflexivity.
  - rewrite addPeptide_callback_first. cbv zeta. cbn [snd].
    destruct Hinv as [Hl Hb]. split; cbn [threeWorld temps];
      rewrite ball_transforms_app, app_nil_r; assumption.
Qed.

Lemma TransformInv_cross_linked (t0 : Temps num) (w : DescWorld num) residue1 residue2 :
  TransformInv t0 w -> TransformInv t0 (cross_linked w residue1 residue2).
Proof.
  intros Hinv.
  eapply (TransformInv_ball t0 w _ [_; _] _ _ Hinv).
  - unfold cross_linked, cross_link_events. cbn [threeWorld].
    rewrite <- app_assoc. reflexivity.
  - reflexivity.
  - reflexivity.
  - intros v. reflexivity.
Qed.

Lemma reachable_TransformInv (t : Temps num) (w : DescWorld num) :
  reachable t w -> TransformInv t w.
Proof.
  induction 1 as [| w name sequence startPos _ IH | w crossLinkStr _ IH].
  - apply TransformInv_new.
  - apply addPeptide_preserves; [| |exact IH].
    + intros w0 [Hl Hb]. now split.
    + intros prev c i w0 _. apply TransformInv_addPeptide_callback.
  - apply addCrossLinks_preserves; [|exact IH].
    intros w0 r1 r2. apply TransformInv_cross_linked.
Qed.

(** What [addCrossLinks] adds. *)
Lemma cross_links_added_refl (w : DescWorld num) : cross_links_added w w [].
Proof.
  unfold cross_links_added. rewrite !app_nil_r. cbn [length].
  repeat split; try reflexivity; try lia.
  intros e He. inversion He.
Qed.

Lemma cross_links_added_step (w w' : DescWorld num) evs residue1 residue2 :
  cross_links_added w w' evs ->
  cross_links_added w (cross_linked w' residue1 residue2)
    (evs ++ cross_link_events w' residue1 residue2).
Proof.
  intros (Hp & Ht & Hl & Hb & Hi & Hr & Hs & Hm). unfold cross_links_added.
  cbn [cross_linked peptides temps threeWorld balls idCalls].
  rewrite residues_of_app, sockets_of_app, balls_of_app, !length_app, Hl, Hb, Hi, Hr.
  rewrite <- !app_assoc.
  repeat split; try assumption; try reflexivity.
  - cbn [cross_link_events length]. lia.
  - rewrite Hs. cbn. lia.
  - intros e He. apply elem_of_app in He as [He | He]; [now apply Hm|].
    rewrite <- Ht. unfold cross_link_events in He.
    repeat (apply elem_of_cons in He as [-> | He]; [reflexivity|]).
    inversion He.
Qed.

Lemma addCrossLinks_added crossLinkStr (w : DescWorld num) :
  exists evs, cross_links_added w (addCrossLinks crossLinkStr w).2 evs.
Proof.
  apply (addCrossLinks_preserves (fun w' => exists evs, cross_links_added w w' evs)).
  - intros w' r1 r2 [evs Hevs]. eexists. apply cross_links_added_step, Hevs.
  - exists []. apply cross_links_added_refl.
Qed.

(** X6. [tempMatrix1] is only ever given positions: in every reachable
    state it is what it was when the [DescWorld] was created, up to its
    translation, and so is the transform every ball was sent with. *)
Theorem balls_only_translated (t : Temps num) (w : DescWorld num) :
  reachable t w ->
  (forall v, setPosition (at_tempMatrix1 (temps w)) v = setPosition (at_tempMatrix1 t) v)
  /\ (forall b m, AddBall b m ∈ threeWorld w ->
        forall v, setPosition m v = setPosition (at_tempMatrix1 t) v).
Proof.
  intros Hw. pose proof (reachable_TransformInv t w Hw) as Htr. split.
  - now apply TransformInv_temp1.
  - intros b m Hm. apply (ti_balls _ _ Htr), elem_of_ball_transforms. now exists b.
Qed.

(** X7. [addCrossLinks] leaves the registry and the three scratch
    matrices as they are, whether it throws or not; what it sends to the
    collaborator comes after the earlier calls, holds no residue, and is
    three calls for each ball it pushes on the ball list. *)
Theorem addCrossLinks_only_adds_joints (crossLinkStr : string) (w : DescWorld num) :
  let w' := (addCrossLinks crossLinkStr w).2 in
  peptides w' = peptides w
  /\ temps w' = temps w
  /\ exists evs,
       threeWorld w' = threeWorld w ++ evs
       /\ balls w' = balls w ++ balls_of evs
       /\ residues_of evs = []
       /\ length evs = 3 * length (balls_of evs).
Proof.
  destruct (addCrossLinks_added crossLinkStr w)
    as (evs & Hp & Ht & Hl & Hb & Hi & Hr & Hs & Hm).
  cbv zeta. repeat split; try assumption.
  exists evs. repeat split; try assumption.
  rewrite length_events, Hr, Hs. cbn [length]. lia.
Qed.

End Transforms.

(** ** A replaced chain *)

Section Replaced.

Context {num : Type} {NumOps : Number num} {MathObj : Math num} {Imp : Imports num}.

(** X9. [addPeptide] on a name that is taken replaces the chain in the
    registry and tells the collaborator nothing of it: the residues of the
    old chain are still among the calls it has received, and, identifiers
    being distinct, none of them is in the new chain, so that no
    cross-link can name them any more. *)
Theorem replaced_chain_is_orphaned (t : Temps num) (w : DescWorld num)
    (name sequence : string) (startPos : Vector3 num) (old : Peptide num)
    (r : Residue num) :
  (forall i j, nanoid i = nanoid j -> i = j) ->
  reachable t w -> peptides w !! name = Some old -> r ∈ old ->
  let w' := (addPeptide name sequence startPos w).2 in
  r ∈ residues_of (threeWorld w')
  /\ forall chain r', peptides w' !! name = Some chain -> r' ∈ chain ->
       residue_id r' <> residue_id r.
Proof.
  intros Hinj Hw Hold Hr w'.
  pose proof (reachable_LogInv t w Hw) as Hlog.
  pose proof (reachable_LogInv t w' (reachable_addPeptide t w name sequence startPos Hw))
    as Hlog'.
  assert (Hin : r ∈ residues_of (threeWorld w))
    by exact (inv_peptides _ (reachable_Inv t w Hw) name old r Hold Hr).
  destruct (addPeptide_chain name sequence startPos w)
    as (w1 & evs & Heq & Hevs & Hp & _).
  assert (Hw1 : w' = w1) by (unfold w'; now rewrite Heq).
  rewrite Hw1 in *. clear w' Hw1. split.
  - rewrite Hevs, residues_of_app. apply elem_of_app. now left.
  - intros chain r' Hchain Hr' Hid.
    rewrite Hp, lookup_insert_eq in Hchain. injection Hchain as <-.
    apply elem_of_residues_of, list_elem_of_lookup in Hr' as [j Hj].
    apply elem_of_residues_of, list_elem_of_lookup in Hin as [k Hk].
    assert (Hlt : k < length (threeWorld w)) by (eapply lookup_lt_Some; exact Hk).
    pose proof (li_ids _ _ Hlog k _ Hk) as Hidk.
    assert (Hj' : threeWorld w1 !! (length (threeWorld w) + j) = Some (AddResidue r')).
    { rewrite Hevs, lookup_app_r by lia.
      now replace (length (threeWorld w) + j - length (threeWorld w)) with j by lia. }
    pose proof (li_ids _ _ Hlog' _ _ Hj') as Hidj.
    cbn [event_id] in Hidk, Hidj. rewrite Hidk, Hidj in Hid.
    apply Hinj in Hid. lia.
Qed.

End Replaced.

(** ** The clauses of a specification string *)

Lemma split_app (sep : ascii) (s1 s2 : string) :
  split sep (s1 +:+ String sep s2)
  = ((split sep s1).1, (split sep s1).2 ++ (split sep s2).1 :: (split sep s2).2).
Proof.
  induction s1 as [|c s1 IH].
  - change (EmptyString +:+ String sep s2) with (String sep s2).
    cbn [split fst snd app]. destruct (split sep s2) as [h t].
    now rewrite Ascii.eqb_refl.
  - change (String c s1 +:+ String sep s2) with (String c (s1 +:+ String sep s2)).
    cbn [split]. rewrite IH. destruct (split sep s1) as [h1 t1]. cbn [fst snd].
    now destruct (Ascii.eqb c sep).
Qed.

Lemma clauses_app (s1 s2 : string) :
  clauses (s1 +:+ ";" +:+ s2) = clauses s1 ++ clauses s2.
Proof.
  unfold clauses. change (";" +:+ s2) with (String ";" s2).
  now rewrite split_app.
Qed.

Lemma zeros_digits (k : nat) : all_digits (zeros k) = true.
Proof. induction k as [|k IH]; [reflexivity | exact IH]. Qed.

Lemma parseInt_zeros (k : nat) (d : string) : parseInt (zeros k +:+ d) = parseInt d.
Proof. induction k as [|k IH]; [reflexivity | exact IH]. Qed.

Lemma drop_while_free (p : ascii -> bool) (s1 s2 : string) :
  forall_chars p s1 = true -> drop_while p (s1 +:+ s2) = drop_while p s2.
Proof.
  induction s1 as [|c s1 IH]; [reflexivity|].
  cbn [forall_chars]. intros [Hc Hs]%andb_true_iff.
  change (String c s1 +:+ s2) with (String c (s1 +:+ s2)).
  cbn [drop_while]. rewrite Hc. now apply IH.
Qed.

Lemma drop_while_digit (d s : string) :
  all_digits d = true -> d <> EmptyString ->
  drop_while (fun c => negb (is_digit c)) (d +:+ s) = d +:+ s.
Proof.
  destruct d as [|c d]; [congruence|].
  unfold all_digits. cbn [forall_chars]. intros [Hc _]%andb_true_iff _.
  change (String c d +:+ s) with (String c (d +:+ s)).
  cbn [drop_while]. now rewrite Hc.
Qed.

Lemma take_while_run (d s : string) :
  all_digits d = true -> no_leading_digit s = true ->
  take_while is_digit (d +:+ s) = d.
Proof.
  intros Hd Hs. induction d as [|c d IH].
  - destruct s as [|c s]; [reflexivity|].
    change (EmptyString +:+ String c s) with (String c s).
    cbn [take_while]. cbn [no_leading_digit] in Hs.
    now destruct (is_digit c).
  - unfold all_digits in Hd. cbn [forall_chars] in Hd.
    apply andb_true_iff in Hd as [Hc Hd].
    change (String c d +:+ s) with (String c (d +:+ s)).
    cbn [take_while]. rewrite Hc. f_equal. now apply IH.
Qed.

(** The match of [/(\d+)/] is the first run of digits, and [parseInt]
    reads it in base ten, leading zeros included. *)
Lemma match_digits_run (pre post : string) (k : nat) (n : N) :
  forall_chars (fun c => negb (is_digit c)) pre = true ->
  no_leading_digit post = true ->
  match_digits (pre +:+ zeros k +:+ pretty n +:+ post) = Some (zeros k +:+ pretty n)
  /\ parseInt (zeros k +:+ pretty n) = n.
Proof.
  intros Hpre Hpost. split; [|now rewrite parseInt_zeros, parseInt_pretty].
  assert (Hd : all_digits (zeros k +:+ pretty n) = true).
  { unfold all_digits. rewrite forall_chars_app.
    apply andb_true_iff. split; [apply zeros_digits | apply all_digits_pretty]. }
  assert (Hne : zeros k +:+ pretty n <> EmptyString).
  { destruct k; [|discriminate]. apply pretty_nonempty. }
  unfold match_digits. rewrite drop_while_free by exact Hpre.
  rewrite <- append_assoc.
  rewrite drop_while_digit, take_while_run by assumption.
  destruct (zeros k +:+ pretty n); [congruence | reflexivity].
Qed.

Section Clauses.

Context {num : Type} {NumOps : Number num} {MathObj : Math num} {Imp : Imports num}.

Lemma forEach_app {A : Type} (callback : A -> M num unit) (l1 l2 : list A)
    (w : DescWorld num) :
  forEach callback (l1 ++ l2) w
  = match forEach callback l1 w with
    | (Throw, w') => (Throw, w')
    | (_, w') => forEach callback l2 w'
    end.
Proof.
  revert w. induction l1 as [|x l1 IH]; intros w; [reflexivity|].
  cbn [app forEach]. destruct (callback x w) as [[a| |] w']; auto.
Qed.

Lemma addCrossLinks_clauses crossLinkStr (w : DescWorld num) :
  addCrossLinks crossLinkStr w
  = match forEach addCrossLinks_callback (clauses crossLinkStr) w with
    | (Throw, w') => (Thrown, w')
    | (_, w') => (Normal, w')
    end.
Proof. reflexivity. Qed.

Lemma addCrossLinks_app s1 s2 (w : DescWorld num) :
  addCrossLinks (s1 +:+ ";" +:+ s2) w
  = match addCrossLinks s1 w with
    | (Normal, w1) => addCrossLinks s2 w1
    | (Thrown, w1) => (Thrown, w1)
    end.
Proof.
  rewrite !addCrossLinks_clauses, clauses_app, forEach_app.
  destruct (forEach addCrossLinks_callback (clauses s1) w) as [[a| |] w1];
    try reflexivity; now rewrite addCrossLinks_clauses.
Qed.

(** X10. A specification string is processed clause by clause, from left
    to right, each part from the state the part before it leaves:
    [addCrossLinks] of [s1;s2] is [addCrossLinks] of [s1] followed by
    [addCrossLinks] of [s2], unless the first throws, whatever the two
    parts are. *)
Theorem addCrossLinks_sequence (s1 s2 : string) (w : DescWorld num) :
  addCrossLinks (s1 +:+ ";" +:+ s2) w
  = match addCrossLinks s1 w with
    | (Normal, w1) => addCrossLinks s2 w1
    | (Thrown, w1) => (Thrown, w1)
    end.
Proof.
  rewrite !addCrossLinks_clauses, clauses_app, forEach_app.
  destruct (forEach addCrossLinks_callback (clauses s1) w) as [[a| |] w1];
    try reflexivity; now rewrite addCrossLinks_clauses.
Qed.

(** X11. An empty clause makes the call throw: at once when the string
    starts with a semicolon; after the clauses before it have been
    processed, their joints made, when the string ends with a semicolon or
    has two semicolons in a row. *)
Theorem empty_clause_throws (s1 s2 : string) (w : DescWorld num) :
  addCrossLinks (";" +:+ s2) w = (Thrown, w)
  /\ addCrossLinks (s1 +:+ ";") w = (Thrown, (addCrossLinks s1 w).2)
  /\ addCrossLinks (s1 +:+ ";;" +:+ s2) w = (Thrown, (addCrossLinks s1 w).2).
Proof.
  assert (Hlead : forall s (w0 : DescWorld num), addCrossLinks (";" +:+ s) w0 = (Thrown, w0)).
  { intros s w0. rewrite addCrossLinks_clauses.
    change (";" +:+ s) with (EmptyString +:+ ";" +:+ s). now rewrite clauses_app. }
  split; [apply Hlead|]. split.
  - change (s1 +:+ ";") with (s1 +:+ ";" +:+ EmptyString).
    rewrite addCrossLinks_app. now destruct (addCrossLinks s1 w) as [[|] w1].
  - change (s1 +:+ ";;" +:+ s2) with (s1 +:+ ";" +:+ (";" +:+ s2)).
    rewrite addCrossLinks_app. destruct (addCrossLinks s1 w) as [[|] w1];
      [apply Hlead | reflexivity].
Qed.

End Clauses.

(** ** The endpoints of a clause *)

Section Endpoints.

Context {num : Type} {NumOps : Number num} {MathObj : Math num} {Imp : Imports num}.

Lemma free_of_endpoint (sep : ascii) (chain token : string) :
  free_of sep ":" = true -> free_of sep chain = true -> free_of sep token = true ->
  free_of sep (chain +:+ ":" +:+ token) = true.
Proof. intros Hs Hc Ht. now rewrite !free_of_app, Hc, Hs, Ht. Qed.

Lemma free_of_app_l (sep : ascii) (s1 s2 : string) :
  free_of sep (s1 +:+ s2) = true -> free_of sep s1 = true.
Proof. rewrite free_of_app. now intros [H _]%andb_true_iff. Qed.

Lemma free_of_app_r (sep : ascii) (s1 s2 : string) :
  free_of sep (s1 +:+ s2) = true -> free_of sep s2 = true.
Proof. rewrite free_of_app. now intros [_ H]%andb_true_iff. Qed.

(** Only [acidLocs[0]] and [acidLocs[1]] are read. *)
Lemma resolve_surplus chain token rest (w : DescWorld num) :
  free_of ":" chain = true -> free_of ":" token = true ->
  resolve (Some (chain +:+ ":" +:+ token +:+ ":" +:+ rest)) w
  = resolve (Some (chain +:+ ":" +:+ token)) w.
Proof.
  intros Hc Ht. unfold resolve.
  change (chain +:+ ":" +:+ token +:+ ":" +:+ rest)
    with (chain +:+ String ":" (token +:+ String ":" rest)).
  change (chain +:+ ":" +:+ token) with (chain +:+ String ":" token).
  rewrite (split_append ":" chain (token +:+ String ":" rest) Hc),
    (split_append ":" token rest Ht), (split_append ":" chain token Hc),
    (split_free ":" token Ht).
  reflexivity.
Qed.

Lemma resolve_no_digit chain token (w : DescWorld num) :
  free_of ":" chain = true -> free_of ":" token = true ->
  match_digits token = None ->
  resolve (Some (chain +:+ ":" +:+ token)) w = (Throw, w).
Proof.
  intros Hc Ht Hd. unfold resolve.
  change (chain +:+ ":" +:+ token) with (chain +:+ String ":" token).
  rewrite split_append, split_free by assumption.
  cbn [fst snd lookup list_lookup]. now rewrite Hd.
Qed.

Lemma resolve_resolves chain token r (w : DescWorld num) :
  free_of ":" chain = true -> free_of ":" token = true ->
  endpoint_resolves w chain token r ->
  resolve (Some (chain +:+ ":" +:+ token)) w = (Next r, w).
Proof.
  intros Hc Ht (d & Hd & Hr & Hname).
  rewrite (resolve_endpoint chain token d w Hc Ht Hd), Hr.
  now rewrite (proj2 (String.eqb_eq _ _) Hname).
Qed.

Lemma callback_two_endpoints e1 e2 (w : DescWorld num) :
  free_of "-" e1 = true -> free_of "-" e2 = true ->
  addCrossLinks_callback (e1 +:+ "-" +:+ e2) w
  = match resolve (Some e1) w with
    | (Next residue1, _) =>
        match resolve (Some e2) w with
        | (Next residue2, _) => (Next tt, cross_linked w residue1 residue2)
        | (Return, _) => (Return, w)
        | (Throw, _) => (Throw, w)
        end
    | (Return, _) => (Return, w)
    | (Throw, _) => (Throw, w)
    end.
Proof.
  intros H1 H2. rewrite addCrossLinks_callback_eq.
  change (e1 +:+ "-" +:+ e2) with (e1 +:+ String "-" e2).
  rewrite split_append, split_free by assumption. reflexivity.
Qed.

Lemma callback_links c1 t1 c2 t2 r1 r2 (w : DescWorld num) :
  separator_free c1 = true -> separator_free t1 = true ->
  separator_free c2 = true -> separator_free t2 = true ->
  endpoint_resolves w c1 t1 r1 -> endpoint_resolves w c2 t2 r2 ->
  addCrossLinks_callback ((c1 +:+ ":" +:+ t1) +:+ "-" +:+ (c2 +:+ ":" +:+ t2)) w
  = (Next tt, cross_linked w r1 r2).
Proof.
  intros (_ & Hc1 & Hc1')%separator_free_parts (_ & Ht1 & Ht1')%separator_free_parts
         (_ & Hc2 & Hc2')%separator_free_parts (_ & Ht2 & Ht2')%separator_free_parts
         Hr1 Hr2.
  rewrite callback_two_endpoints by now apply free_of_endpoint.
  now rewrite (resolve_resolves c1 t1 r1), (resolve_resolves c2 t2 r2).
Qed.

Lemma clause_free_of_semicolon c1 t1 c2 t2 :
  separator_free c1 = true -> separator_free t1 = true ->
  separator_free c2 = true -> separator_free t2 = true ->
  free_of ";" ((c1 +:+ ":" +:+ t1) +:+ "-" +:+ (c2 +:+ ":" +:+ t2)) = true.
Proof.
  intros (Hc1 & _)%separator_free_parts (Ht1 & _)%separator_free_parts
         (Hc2 & _)%separator_free_parts (Ht2 & _)%separator_free_parts.
  rewrite (free_of_app ";" (c1 +:+ ":" +:+ t1)),
    (free_of_app ";" "-" (c2 +:+ ":" +:+ t2)).
  now rewrite !free_of_endpoint.
Qed.

(** A token has the symbol of a residue of the registry only if its
    [getAlphaOnly] is one character long. *)
Lemma registry_symbol (t : Temps num) (w : DescWorld num) chain k r :
  reachable t w -> residue_at w chain k = Some r ->
  String.length (residue_name r) = 1.
Proof.
  intros Hw (p & Hp & _ & Hr)%residue_at_Some.
  apply list_elem_of_lookup_2 in Hr.
  pose proof (inv_peptides _ (reachable_Inv t w Hw) chain p r Hp Hr) as Hin.
  apply elem_of_residues_of in Hin.
  now destruct (li_fields _ _ (reachable_LogInv t w Hw) _ Hin).
Qed.

(** X12. A clause with one endpoint only, [chain:token] with no dash:
    the state is left as it is, and the call throws exactly when that
    endpoint is valid, the chain having at the index of the token a residue
    with the symbol of the token.  An invalid endpoint is skipped before
    the missing one is looked at. *)
Theorem clause_without_second_endpoint (w : DescWorld num) (chain token d : string) :
  separator_free chain = true -> separator_free token = true ->
  match_digits token = Some d ->
  (addCrossLinks (chain +:+ ":" +:+ token) w).2 = w
  /\ ((addCrossLinks (chain +:+ ":" +:+ token) w).1 = Thrown
      <-> exists r, residue_at w chain (parseInt d) = Some r
                    /\ getAlphaOnly token = residue_name r).
Proof.
  intros (Hc1 & Hc2 & Hc3)%separator_free_parts (Ht1 & Ht2 & Ht3)%separator_free_parts Hd.
  rewrite addCrossLinks_single by now apply free_of_endpoint.
  rewrite addCrossLinks_callback_eq.
  rewrite split_free by now apply free_of_endpoint.
  cbn [fst snd lookup list_lookup].
  rewrite (resolve_endpoint chain token d w Hc3 Ht3 Hd).
  destruct (residue_at w chain (parseInt d)) as [r|].
  - destruct (String.eqb_spec (getAlphaOnly token) (residue_name r)) as [He|Hne].
    + cbn. split; [reflexivity|]. split; [|reflexivity]. intros _. now exists r.
    + cbn. split; [reflexivity|]. split; [discriminate|].
      intros (r' & [= <-] & He). contradiction.
  - cbn. split; [reflexivity|]. split; [discriminate|].
    intros (r' & Hr' & _). discriminate.
Qed.

(** X13. What follows the second endpoint of a clause, after a further
    dash, and what follows the token of an endpoint, after a further colon,
    is never read: the clause does what the clause without them does. *)
Theorem surplus_segments_ignored (w : DescWorld num)
    (c1 t1 j1 c2 t2 j2 rest : string) :
  free_of ":" c1 = true -> free_of ":" t1 = true ->
  free_of ":" c2 = true -> free_of ":" t2 = true ->
  free_of "-" (c1 +:+ ":" +:+ t1 +:+ ":" +:+ j1) = true ->
  free_of "-" (c2 +:+ ":" +:+ t2 +:+ ":" +:+ j2) = true ->
  addCrossLinks_callback
    ((c1 +:+ ":" +:+ t1 +:+ ":" +:+ j1) +:+ "-"
     +:+ (c2 +:+ ":" +:+ t2 +:+ ":" +:+ j2) +:+ "-" +:+ rest) w
  = addCrossLinks_callback ((c1 +:+ ":" +:+ t1) +:+ "-" +:+ (c2 +:+ ":" +:+ t2)) w.
Proof.
  intros Hc1 Ht1 Hc2 Ht2 H1 H2.
  assert (H1' : free_of "-" (c1 +:+ ":" +:+ t1) = true).
  { pose proof (free_of_app_l _ _ _ H1) as Ha.
    pose proof (free_of_app_l _ _ _ (free_of_app_r _ _ _ (free_of_app_r _ _ _ H1))) as Hb.
    now apply free_of_endpoint. }
  assert (H2' : free_of "-" (c2 +:+ ":" +:+ t2) = true).
  { pose proof (free_of_app_l _ _ _ H2) as Ha.
    pose proof (free_of_app_l _ _ _ (free_of_app_r _ _ _ (free_of_app_r _ _ _ H2))) as Hb.
    now apply free_of_endpoint. }
  rewrite (callback_two_endpoints _ _ w H1' H2'), addCrossLinks_callback_eq.
  change ((c1 +:+ ":" +:+ t1 +:+ ":" +:+ j1) +:+ "-"
          +:+ (c2 +:+ ":" +:+ t2 +:+ ":" +:+ j2) +:+ "-" +:+ rest)
    with ((c1 +:+ ":" +:+ t1 +:+ ":" +:+ j1)
          +:+ String "-" ((c2 +:+ ":" +:+ t2 +:+ ":" +:+ j2) +:+ String "-" rest)).
  rewrite (split_append "-" _ _ H1), (split_append "-" _ rest H2).
  cbn [fst snd lookup list_lookup].
  now rewrite (resolve_surplus c1 t1 j1 w Hc1 Ht1), (resolve_surplus c2 t2 j2 w Hc2 Ht2).
Qed.

(** X15. The index of an endpoint is the value of the first run of
    digits of its token, read in base ten: zeros before the number do not
    count, and neither does what comes after the run, further digits
    included.  Whatever the token is made of, it is compared as a whole,
    through [getAlphaOnly], with the symbol of the residue. *)
Theorem index_is_first_digit_run (w : DescWorld num) (chain pre post : string)
    (k : nat) (n : N) :
  let token := pre +:+ zeros k +:+ pretty n +:+ post in
  free_of ":" chain = true -> free_of ":" token = true ->
  forall_chars (fun c => negb (is_digit c)) pre = true ->
  no_leading_digit post = true ->
  resolve (Some (chain +:+ ":" +:+ token)) w
  = match residue_at w chain n with
    | Some r =>
        if String.eqb (getAlphaOnly token) (residue_name r)
        then (Next r, w) else (Return, w)
    | None => (Return, w)
    end.
Proof.
  intros token Hc Ht Hpre Hpost.
  destruct (match_digits_run pre post k n Hpre Hpost) as [Hd Hn].
  rewrite (resolve_endpoint chain token _ w Hc Ht Hd). now rewrite Hn.
Qed.

(** X16. The symbols of the registry are one character long, so a
    clause with a token whose [getAlphaOnly] is of any other length makes
    nothing in a reachable state, whatever its chain names and indices. *)
Theorem symbol_of_other_length_never_links (t : Temps num) (w : DescWorld num)
    (c1 t1 c2 t2 : string) :
  reachable t w ->
  separator_free c1 = true -> separator_free t1 = true ->
  separator_free c2 = true -> separator_free t2 = true ->
  String.length (getAlphaOnly t1) <> 1 \/ String.length (getAlphaOnly t2) <> 1 ->
  (addCrossLinks ((c1 +:+ ":" +:+ t1) +:+ "-" +:+ (c2 +:+ ":" +:+ t2)) w).2 = w.
Proof.
  intros Hw Hc1 Ht1 Hc2 Ht2 Hlen.
  rewrite addCrossLinks_single by now apply clause_free_of_semicolon.
  assert (Hres : forall c tk, separator_free c = true -> separator_free tk = true ->
            forall r w', resolve (Some (c +:+ ":" +:+ tk)) w = (Next r, w') ->
              String.length (getAlphaOnly tk) = 1).
  { intros c tk (_ & _ & Hc)%separator_free_parts (_ & _ & Htk)%separator_free_parts r w'.
    destruct (match_digits tk) as [d|] eqn:Hd.
    - rewrite (resolve_endpoint c tk d w Hc Htk Hd).
      destruct (residue_at w c (parseInt d)) as [r'|] eqn:Hr'; [|discriminate].
      destruct (String.eqb_spec (getAlphaOnly tk) (residue_name r')) as [He|_];
        [|discriminate].
      intros _. rewrite He. exact (registry_symbol t w c _ r' Hw Hr').
    - now rewrite (resolve_no_digit c tk w Hc Htk Hd). }
  pose proof Hc1 as (_ & Hc1' & _)%separator_free_parts.
  pose proof Ht1 as (_ & Ht1' & _)%separator_free_parts.
  pose proof Hc2 as (_ & Hc2' & _)%separator_free_parts.
  pose proof Ht2 as (_ & Ht2' & _)%separator_free_parts.
  rewrite callback_two_endpoints by now apply free_of_endpoint.
  destruct (resolve (Some (c1 +:+ ":" +:+ t1)) w) as [[r1| |] w1] eqn:H1;
    try reflexivity.
  destruct (resolve (Some (c2 +:+ ":" +:+ t2)) w) as [[r2| |] w2] eqn:H2;
    try reflexivity.
  pose proof (Hres c1 t1 Hc1 Ht1 r1 w1 H1).
  pose proof (Hres c2 t2 Hc2 Ht2 r2 w2 H2).
  destruct Hlen; contradiction.
Qed.

End Endpoints.

(** ** What [addCrossLinks] reads *)

Section Registry.

Context {num : Type} {NumOps : Number num} {MathObj : Math num} {Imp : Imports num}.

Lemma resolve_registry acid (w1 w2 : DescWorld num) :
  peptides w1 = peptides w2 -> (resolve acid w1).1 = (resolve acid w2).1.
Proof.
  intros Hp.
  assert (Hat : forall chain k, residue_at w1 chain k = residue_at w2 chain k)
    by (intros chain k; unfold residue_at; now rewrite Hp).
  unfold resolve. destruct acid as [acid|]; [|reflexivity].
  destruct ((split ":" acid).2 !! 0%nat) as [token|]; [|reflexivity].
  destruct (match_digits token) as [d|]; [|reflexivity].
  unfold bind, get. rewrite Hat.
  destruct (residue_at w2 (split ":" acid).1 (parseInt d)) as [r|]; [|reflexivity].
  now destruct (String.eqb _ _).
Qed.

Lemma callback_registry crossLink (w1 w2 : DescWorld num) :
  peptides w1 = peptides w2 ->
  (addCrossLinks_callback crossLink w1).1 = (addCrossLinks_callback crossLink w2).1
  /\ peptides (addCrossLinks_callback crossLink w1).2
     = peptides (addCrossLinks_callback crossLink w2).2
  /\ length (balls (addCrossLinks_callback crossLink w1).2) + length (balls w2)
     = length (balls (addCrossLinks_callback crossLink w2).2) + length (balls w1).
Proof.
  intros Hp. rewrite !addCrossLinks_callback_eq.
  pose proof (resolve_registry (Some (split "-" crossLink).1) w1 w2 Hp) as H1.
  pose proof (resolve_registry ((split "-" crossLink).2 !! 0%nat) w1 w2 Hp) as H2.
  destruct (resolve (Some (split "-" crossLink).1) w1) as [f1 s1],
           (resolve (Some (split "-" crossLink).1) w2) as [f1' s1'].
  destruct (resolve ((split "-" crossLink).2 !! 0%nat) w1) as [f2 s2],
           (resolve ((split "-" crossLink).2 !! 0%nat) w2) as [f2' s2'].
  cbn [fst] in H1, H2. subst f1' f2'.
  destruct f1 as [r1| |];
    [|cbn [fst snd]; repeat split; first [reflexivity | exact Hp | lia] ..].
  destruct f2 as [r2| |];
    [|cbn [fst snd]; repeat split; first [reflexivity | exact Hp | lia] ..].
  cbn [fst snd cross_linked peptides balls]. rewrite !length_app.
  change (length (balls_of (cross_link_events w1 r1 r2))) with 1.
  change (length (balls_of (cross_link_events w2 r1 r2))) with 1.
  repeat split; first [reflexivity | exact Hp | lia].
Qed.

Lemma forEach_registry crossLinks : forall w1 w2 : DescWorld num,
  peptides w1 = peptides w2 ->
  (forEach addCrossLinks_callback crossLinks w1).1
  = (forEach addCrossLinks_callback crossLinks w2).1
  /\ length (balls (forEach addCrossLinks_callback crossLinks w1).2) + length (balls w2)
     = length (balls (forEach addCrossLinks_callback crossLinks w2).2)
       + length (balls w1).
Proof.
  induction crossLinks as [|c cs IH]; intros w1 w2 Hp; cbn [forEach].
  - cbn [ret fst snd]. split; [reflexivity | lia].
  - destruct (callback_registry c w1 w2 Hp) as (Hf & Hp' & Hb).
    destruct (addCrossLinks_callback c w1) as [f1 s1],
             (addCrossLinks_callback c w2) as [f2 s2].
    cbn [fst snd] in Hf, Hp', Hb. subst f2.
    destruct f1 as [[]| |].
    + destruct (IH s1 s2 Hp') as [Hf' Hb']. split; [exact Hf' | lia].
    + destruct (IH s1 s2 Hp') as [Hf' Hb']. split; [exact Hf' | lia].
    + cbn [fst snd]. split; [reflexivity | lia].
Qed.

(** X17. Whether [addCrossLinks] throws, and how many joints it makes
    before it returns or throws, depends on the registry only: not on the
    joints made before, not on the identifiers drawn, not on what the
    scratch matrices hold. *)
Theorem cross_links_depend_on_registry_only (crossLinkStr : string)
    (w1 w2 : DescWorld num) :
  peptides w1 = peptides w2 ->
  (addCrossLinks crossLinkStr w1).1 = (addCrossLinks crossLinkStr w2).1
  /\ length (balls (addCrossLinks crossLinkStr w1).2) + length (balls w2)
     = length (balls (addCrossLinks crossLinkStr w2).2) + length (balls w1).
Proof.
  intros Hp. rewrite !addCrossLinks_clauses.
  destruct (forEach_registry (clauses crossLinkStr) w1 w2 Hp) as [Hf Hb].
  destruct (forEach addCrossLinks_callback (clauses crossLinkStr) w1) as [f1 s1],
           (forEach addCrossLinks_callback (clauses crossLinkStr) w2) as [f2 s2].
  cbn [fst snd] in Hf, Hb. subst f2.
  destruct f1 as [[]| |]; cbn [fst snd]; split; (reflexivity || exact Hb).
Qed.

Lemma cross_linked_ids (w : DescWorld num) (a1 a2 r1 r2 : Residue num) :
  residue_id a1 = residue_id r1 -> residue_id a2 = residue_id r2 ->
  cross_linked w a1 a2 = cross_linked w r1 r2.
Proof. intros H1 H2. unfold cross_linked, cross_link_events. now rewrite H1, H2. Qed.

Lemma cross_linked_changes (w : DescWorld num) (r1 r2 : Residue num) :
  cross_linked w r1 r2 <> w.
Proof.
  intros H. apply (f_equal idCalls) in H. cbn [cross_linked idCalls] in H. lia.
Qed.

(** X14. Nothing is remembered of the joints already made: a clause
    that makes a joint makes it again each time it occurs.  If a clause,
    passed alone, makes the joint between [residue1] and [residue2], then
    the clause passed twice in one string makes that joint twice, and the
    call ends normally. *)
Theorem repeated_clause_links_twice (w : DescWorld num) (clause : string)
    (residue1 residue2 : Residue num) :
  free_of ";" clause = true ->
  addCrossLinks clause w = (Normal, cross_linked w residue1 residue2) ->
  addCrossLinks (clause +:+ ";" +:+ clause) w
  = (Normal, cross_linked (cross_linked w residue1 residue2) residue1 residue2).
Proof.
  intros Hfree Hone.
  rewrite (addCrossLinks_cons clause clause w Hfree).
  rewrite (addCrossLinks_single clause w Hfree) in Hone.
  rewrite addCrossLinks_callback_eq in Hone |- *.
  destruct (resolve (Some (split "-" clause).1) w) as [[a1| |] s1] eqn:R1;
    try (injection Hone as Hone; symmetry in Hone;
         now apply cross_linked_changes in Hone);
    try discriminate Hone.
  destruct (resolve ((split "-" clause).2 !! 0%nat) w) as [[a2| |] s2] eqn:R2;
    try (injection Hone as Hone; symmetry in Hone;
         now apply cross_linked_changes in Hone);
    try discriminate Hone.
  assert (Hst : cross_linked w a1 a2 = cross_linked w residue1 residue2)
    by congruence.
  clear Hone.
  assert (Hids : residue_id a1 = residue_id residue1
                 /\ residue_id a2 = residue_id residue2).
  { pose proof (f_equal threeWorld Hst) as Hone.
    cbn [cross_linked threeWorld] in Hone.
    apply app_inv_head in Hone. unfold cross_link_events in Hone.
    injection Hone as E1 E2. split; assumption. }
  destruct Hids as [Hid1 Hid2].
  rewrite (addCrossLinks_single clause _ Hfree), addCrossLinks_callback_eq.
  pose proof (resolve_registry (Some (split "-" clause).1)
                (cross_linked w a1 a2) w eq_refl) as P1.
  pose proof (resolve_registry ((split "-" clause).2 !! 0%nat)
                (cross_linked w a1 a2) w eq_refl) as P2.
  rewrite R1 in P1. rewrite R2 in P2. cbn [fst] in P1, P2.
  destruct (resolve (Some (split "-" clause).1) (cross_linked w a1 a2)) as [f1 u1].
  destruct (resolve ((split "-" clause).2 !! 0%nat) (cross_linked w a1 a2)) as [f2 u2].
  cbn [fst] in P1, P2. subst f1 f2.
  rewrite (cross_linked_ids w a1 a2 residue1 residue2 Hid1 Hid2).
  now rewrite (cross_linked_ids _ a1 a2 residue1 residue2 Hid1 Hid2).
Qed.

(** X18. The connection between the residues of index [j] and [j + 1]
    of a chain, as the code computes it in any arithmetic, that of the
    engine included: right after residue [j + 1] come socket 1, socket 2
    and the ball; both sockets are sent with the product of a matrix
    positioned on the line of the chain and the same quarter turn about
    [normalVecZ]; the ball is sent with a matrix positioned at [ballX]; the
    three x-coordinates are computed from the x of residue [j] alone, that
    of residue [j + 1] is not read. *)
Theorem connection_as_computed (name sequence : string) (startPos : Vector3 num)
    (w : DescWorld num) (j : nat) :
  S j < String.length sequence ->
  let w' := (addPeptide name sequence startPos w).2 in
  let x1 := (residueX startPos j + residueRadius + socketLength / nlit 2)%num in
  let x2 := (x1 + socketLength + ballRadius * nlit 2)%num in
  let xb := (x1 + socketLength / nlit 2 + ballRadius)%num in
  exists chain prev cur pre post s1 t1 s2 t2 b m3,
    peptides w' !! name = Some chain
    /\ chain !! j = Some prev /\ chain !! S j = Some cur
    /\ threeWorld w'
       = threeWorld w
         ++ pre
         ++ AddResidue cur
            :: AddSocket s1
                 (multiplyMatrices
                    (setPosition t1 (mkVector3 x1 (vy startPos) (vz startPos)))
                    quarter_turn)
            :: AddSocket s2
                 (multiplyMatrices
                    (setPosition t2 (mkVector3 x2 (vy startPos) (vz startPos)))
                    quarter_turn)
            :: AddBall b m3 :: post
    /\ socket_residueId s1 = residue_id prev
    /\ socket_residueId s2 = residue_id cur
    /\ position m3 = mkVector3 xb (vy startPos) (vz startPos).
Proof.
  intros Hlen w'. subst w'. cbv zeta.
  destruct (addPeptide_trace name sequence startPos w) as (evs & t & k & Heq & Hem).
  rewrite Heq. cbn [snd peptides threeWorld].
  assert (Hn : length (residues_of evs) = String.length sequence).
  { rewrite <- split_chars_length, <- (emitted_names _ _ _ _ _ Hem).
    now rewrite length_fmap. }
  destruct (lookup_lt_is_Some_2 (residues_of evs) j) as [prev Hj]; [lia|].
  destruct (lookup_lt_is_Some_2 (residues_of evs) (S j)) as [cur HSj]; [lia|].
  destruct (emitted_connection _ _ _ _ _ Hem j prev cur Hj HSj)
    as (pre & post & id1 & id2 & id3 & t1 & t2 & t3 & -> & _).
  destruct (emitted_residue _ _ _ _ _ Hem j prev Hj) as [_ Hprev].
  cbn [Nat.add] in Hprev.
  unfold connection. cbn [app].
  eexists _, prev, cur, pre, post. do 6 eexists.
  split; [apply lookup_insert_eq|]. split; [exact Hj|]. split; [exact HSj|].
  unfold socket2X, ballX, socket1X. rewrite Hprev. cbn [vx clone_setX].
  split; [reflexivity|].
  rewrite position_setPosition. repeat split.
Qed.

End Registry.



(** ** The scratch matrices, shared with the rest of the program *)

Section SharedMatrices.

Context {num : Type} {NumOps : Number num} {MathObj : Math num} {Imp : Imports num}.

Lemma chain_socket_transforms_app (evs1 evs2 : list (Event num)) :
  chain_socket_transforms (evs1 ++ evs2)
  = chain_socket_transforms evs1 ++ chain_socket_transforms evs2.
Proof. apply omap_app. Qed.

Lemma LogInv_written (t0 t' : Temps num) (w : DescWorld num) :
  LogInv t0 w ->
  LogInv t' (mkDescWorld (peptides w) (balls w) (threeWorld w) t' (idCalls w)).
Proof. intros [Hc Hi Hf Hp _]. now split. Qed.

Lemma Inv_written (t' : Temps num) (w : DescWorld num) :
  Inv w -> Inv (mkDescWorld (peptides w) (balls w) (threeWorld w) t' (idCalls w)).
Proof. intros [Hl Hb Hp]. now split. Qed.

(** What does not depend on the scratch matrices holds whoever writes
    them. *)
Lemma reachable_shared_invariants (t : Temps num) (w : DescWorld num) :
  reachable_shared t w -> Inv w /\ exists t0, LogInv t0 w.
Proof.
  induction 1 as [| w name sequence startPos _ [Hinv [t0 Hlog]]
                  | w crossLinkStr _ [Hinv [t0 Hlog]]
                  | w t' _ [Hinv [t0 Hlog]]].
  - split; [apply Inv_new | exists t; apply LogInv_new].
  - split; [now apply Inv_addPeptide|]. exists t0.
    apply addPeptide_preserves; [| |exact Hlog].
    + intros w0 [Hc Hi Hf Hp Ht]. now split.
    + intros prev c i w0 Hc. now apply LogInv_addPeptide_callback.
  - split; [now apply Inv_addCrossLinks|]. exists t0.
    apply addCrossLinks_preserves; [|exact Hlog].
    intros w0 r1 r2. apply LogInv_cross_linked.
  - split; [now apply Inv_written | exists t'; now apply (LogInv_written t0)].
Qed.

Lemma shared_ball_matrix (t : Temps num) (w : DescWorld num) (b : Ball num) :
  reachable_shared t w -> b ∈ balls w -> ball_matrix b = tempMatrix1.
Proof.
  intros Hw Hb. destruct (reachable_shared_invariants t w Hw) as [Hinv [t0 Hlog]].
  rewrite (inv_balls _ Hinv) in Hb. apply elem_of_balls_of in Hb as [m Hm].
  now destruct (li_fields _ _ Hlog _ Hm).
Qed.

(** What the first callback keeps and every other callback brings about
    holds after [addPeptide] of two symbols or more, in whatever state it
    is called. *)
Lemma addPeptide_establishes (Q : DescWorld num -> Prop) name startPos :
  (forall c i w, Q w -> Q (addPeptide_callback name startPos None c i w).2) ->
  (forall p c i w, Q (addPeptide_callback name startPos (Some p) c i w).2) ->
  forall sequence w,
    2 <= String.length sequence -> Q (addPeptide name sequence startPos w).2.
Proof.
  intros Hfirst Hlink sequence w Hlen.
  destruct sequence as [|a [|b rest]]; cbn [String.length] in Hlen; try lia.
  unfold addPeptide, run, bind at 1. unfold peptides_set, modify.
  cbn [split_chars addPeptide_forEach]. unfold bind at 1.
  match goal with |- context [addPeptide_callback ?n ?s None ?c ?i ?w0] =>
    destruct (addPeptide_callback_completes n s None c i w0) as [r0 Hr0];
      rewrite Hr0; set (w1 := (addPeptide_callback n s None c i w0).2)
  end.
  unfold bind at 1.
  match goal with |- context [addPeptide_callback ?n ?s (Some ?p) ?c ?i w1] =>
    pose proof (Hlink p c i w1) as HQ;
      destruct (addPeptide_callback_completes n s (Some p) c i w1) as [r1 Hr1];
      rewrite Hr1; set (w2 := (addPeptide_callback n s (Some p) c i w1).2) in *
  end.
  match goal with |- context [addPeptide_forEach ?n ?s ?p ?cs ?i w2] =>
    pose proof (addPeptide_forEach_preserves Q n s cs) as Hf;
      specialize (Hf ltac:(intros [q|] c j w3 _ Hw3; [apply Hlink | now apply Hfirst])
                     p i w2 HQ);
      destruct (addPeptide_forEach n s p cs i w2) as [[[]| |] w3]; exact Hf
  end.
Qed.

(** After [addPeptide] of two symbols or more, [tempMatrix1] holds what
    the last ball was sent with. *)
Lemma addPeptide_last_ball name sequence startPos (w : DescWorld num) :
  2 <= String.length sequence ->
  let w' := (addPeptide name sequence startPos w).2 in
  last (ball_transforms (threeWorld w')) = Some (at_tempMatrix1 (temps w')).
Proof.
  intros Hlen.
  apply (addPeptide_establishes
           (fun w' => last (ball_transforms (threeWorld w'))
                      = Some (at_tempMatrix1 (temps w'))) name startPos);
    [| |exact Hlen].
  - intros c i w0 HQ. rewrite addPeptide_callback_first. cbv zeta.
    cbn [snd threeWorld temps]. now rewrite ball_transforms_app, app_nil_r.
  - intros p c i w0. rewrite addPeptide_callback_link. cbv zeta.
    cbn [snd threeWorld temps at_tempMatrix1].
    rewrite !ball_transforms_app.
    match goal with |- last (_ ++ ball_transforms [AddBall ?b ?m]) = _ =>
      change (ball_transforms [AddBall b m]) with [m]
    end.
    now rewrite last_snoc.
Qed.

(** X5. The balls of the ball list do not have a transform each: every
    one of them references [tempMatrix1], an object of the module shared
    with the rest of the program.  So in any state, whoever wrote that
    matrix last, any two balls read the same transform; and right after
    [addPeptide] of two symbols or more, every ball of the list, those of
    earlier chains and of cross-links too, reads the transform the last
    ball of that call was sent with. *)
Theorem balls_read_last_transform (t : Temps num) (w : DescWorld num) :
  reachable_shared t w ->
  (forall b1 b2, b1 ∈ balls w -> b2 ∈ balls w ->
     deref (temps w) (ball_matrix b1) = deref (temps w) (ball_matrix b2))
  /\ forall name sequence startPos b,
       2 <= String.length sequence ->
       b ∈ balls (addPeptide name sequence startPos w).2 ->
       last (ball_transforms (threeWorld (addPeptide name sequence startPos w).2))
       = Some (deref (temps (addPeptide name sequence startPos w).2) (ball_matrix b)).
Proof.
  intros Hw. split.
  - intros b1 b2 H1 H2.
    now rewrite (shared_ball_matrix t w b1 Hw H1), (shared_ball_matrix t w b2 Hw H2).
  - intros name sequence startPos b Hlen Hb.
    rewrite (shared_ball_matrix t _ b (shared_addPeptide t w name sequence startPos Hw) Hb).
    cbn [deref]. now apply addPeptide_last_ball.
Qed.

(** X8. The sockets and the ball of a cross-link are not placed: all
    the calls of one [addCrossLinks] carry the same transform, what
    [tempMatrix1] holds when the method is called, which the method does
    not write.  So when [addCrossLinks] is called right after [addPeptide]
    of two symbols or more, every call of it carries the transform the
    last ball of that chain was sent with. *)
Theorem cross_links_carry_last_ball_transform (crossLinkStr : string)
    (w : DescWorld num) :
  (exists evs,
     threeWorld (addCrossLinks crossLinkStr w).2 = threeWorld w ++ evs
     /\ forall e, e ∈ evs -> event_matrix e = Some (at_tempMatrix1 (temps w)))
  /\ forall name sequence startPos,
       2 <= String.length sequence ->
       let w1 := (addPeptide name sequence startPos w).2 in
       exists m evs,
         last (ball_transforms (threeWorld w1)) = Some m
         /\ threeWorld (addCrossLinks crossLinkStr w1).2 = threeWorld w1 ++ evs
         /\ forall e, e ∈ evs -> event_matrix e = Some m.
Proof.
  split.
  - destruct (addCrossLinks_added crossLinkStr w)
      as (evs & _ & _ & Hl & _ & _ & _ & _ & Hm).
    exists evs. split; assumption.
  - intros name sequence startPos Hlen w1.
    destruct (addCrossLinks_added crossLinkStr w1)
      as (evs & _ & _ & Hl & _ & _ & _ & _ & Hm).
    exists (at_tempMatrix1 (temps w1)), evs.
    split; [now apply addPeptide_last_ball|]. split; assumption.
Qed.

(** X19. The sockets of the chains do not have a transform each
    either: they reference [tempMultiMatrix1], shared too.  Right after
    [addPeptide] of two symbols or more, in whatever state it is called,
    every socket of the call log that references [tempMultiMatrix1], those
    of earlier chains too, reads the transform the last socket of that
    call was sent with, and [tempMatrix2] holds the quarter turn about
    [normalVecZ]. *)
Theorem chain_sockets_read_last_transform (name sequence : string)
    (startPos : Vector3 num) (w : DescWorld num) (s : Socket num) (m : Matrix4 num) :
  2 <= String.length sequence ->
  let w' := (addPeptide name sequence startPos w).2 in
  AddSocket s m ∈ threeWorld w' -> socket_matrix s = tempMultiMatrix1 ->
  last (chain_socket_transforms (threeWorld w')) = Some (deref (temps w') (socket_matrix s))
  /\ at_tempMatrix2 (temps w') = quarter_turn.
Proof.
  intros Hlen w' _ ->. cbn [deref]. subst w'.
  apply (addPeptide_establishes
           (fun w' => last (chain_socket_transforms (threeWorld w'))
                      = Some (at_tempMultiMatrix1 (temps w'))
                      /\ at_tempMatrix2 (temps w') = quarter_turn) name startPos);
    [| |exact Hlen].
  - intros c i w0 HQ. rewrite addPeptide_callback_first. cbv zeta.
    cbn [snd threeWorld temps]. now rewrite chain_socket_transforms_app, app_nil_r.
  - intros p c i w0. rewrite addPeptide_callback_link. cbv zeta.
    cbn [snd threeWorld temps at_tempMultiMatrix1 at_tempMatrix2].
    split; [|reflexivity].
    rewrite !chain_socket_transforms_app.
    match goal with
    | |- last (((_ ++ chain_socket_transforms [AddSocket ?s2 ?m2])
                ++ chain_socket_transforms [AddBall ?b ?m3])) = _ =>
        change (chain_socket_transforms [AddBall b m3]) with (@nil (Matrix4 num));
        change (chain_socket_transforms [AddSocket s2 m2]) with [m2]
    end.
    now rewrite app_nil_r, last_snoc.
Qed.

End SharedMatrices.

(** ** The first residue in binary64 *)

Section FirstResidue.

Context {MathObj : Math spec_float} {Imp : Imports spec_float}.

Lemma SFeqb_refl (x : spec_float) : is_nan x = false -> SFeqb x x = true.
Proof.
  destruct x as [s|s| |s m e]; try reflexivity; [now destruct s | discriminate |].
  intros _. unfold SFeqb, SFcompare.
  rewrite Z.compare_refl, Pos.compare_cont_refl. now destruct s.
Qed.

Lemma times_zero (c : spec_float) :
  (is_finite c = true -> exists s, B64.mul c (B64.of_nat 0) = S754_zero s)
  /\ (is_finite c = false -> B64.mul c (B64.of_nat 0) = S754_nan).
Proof.
  change (B64.of_nat 0) with (S754_zero false).
  destruct c as [s|s| |s m e]; cbn; split; try discriminate; eauto.
Qed.

Lemma plus_zero (x : spec_float) (s : bool) :
  is_nan x = false -> SFeqb (B64.add x (S754_zero s)) x = true.
Proof.
  destruct x as [sx|sx| |sx m e]; try discriminate; intros _.
  - now destruct sx, s.
  - now destruct sx.
  - apply (SFeqb_refl (S754_finite sx m e)). reflexivity.
Qed.

(** X20. In the arithmetic of the engine the first residue of a chain
    is at [startPos.x], up to the sign of a zero, as long as twice the sum
    of the three lengths is a finite double and [startPos.x] is not NaN;
    when that product is infinite or NaN, the x of the first residue is
    NaN, the product being multiplied by the index 0. *)
Theorem first_residue_binary64 (name sequence : string) (startPos : Vector3 spec_float)
    (w : DescWorld spec_float) (chain : Peptide spec_float) (r : Residue spec_float) :
  peptides (addPeptide name sequence startPos w).2 !! name = Some chain ->
  chain !! 0 = Some r ->
  let step := ((socketLength + residueRadius + ballRadius) * nlit 2)%num in
  (is_finite step = true -> is_nan (vx startPos) = false ->
   SFeqb (vx (residue_pos r)) (vx startPos) = true)
  /\ (is_finite step = false -> vx (residue_pos r) = S754_nan).
Proof.
  intros Hchain Hr step.
  destruct (addPeptide_residue_positions name sequence startPos w)
    as (chain' & Hchain' & _ & Hpos).
  assert (chain' = chain) as -> by exact (Some_inj _ _ (eq_trans (eq_sym Hchain') Hchain)).
  destruct (Hpos 0 r Hr) as (Hx & _). rewrite Hx. fold step.
  cbn [nadd nmul nlit B64.number].
  destruct (times_zero step) as [Hfin Hinf]. split.
  - intros Hstep Hnan. destruct (Hfin Hstep) as [s ->]. now apply plus_zero.
  - intros Hstep. rewrite (Hinf Hstep). unfold B64.add.
    now destruct (vx startPos).
Qed.

End FirstResidue.

(** ** The further properties at the sample worlds *)

Lemma w1_reachable : reachable Sample.temps0 Sample.w1.
Proof. apply reachable_addPeptide, reachable_new. Qed.

Lemma ids_inj (i j : nat) : Sample.ids i = Sample.ids j -> i = j.
Proof.
  unfold Sample.ids. intros H.
  change ("id" +:+ pretty i) with (String "i" (String "d" (pretty i))) in H.
  change ("id" +:+ pretty j) with (String "i" (String "d" (pretty j))) in H.
  injection H as H. exact (pretty_nat_inj _ _ H).
Qed.

Lemma w1_first : endpoint_resolves Sample.w1 "P1" "A1"
    (mkResidue "id0" "A" (B64.of_nat 1) Sample.origin).
Proof. exists "1". vm_compute. repeat split. Qed.

Lemma w1_second : exists r, endpoint_resolves Sample.w1 "P1" "G2" r.
Proof. eexists. exists "2". vm_compute. repeat split. Qed.

(** X1 at the chain "AG": five calls, five identifiers. *)
Lemma identifiers_in_call_order_witness :
  reachable Sample.temps0 Sample.w1
  /\ idCalls Sample.w1 = length (threeWorld Sample.w1)
  /\ event_id <$> threeWorld Sample.w1 = nanoid <$> seq 0 (idCalls Sample.w1).
Proof.
  split; [exact w1_reachable|].
  exact (identifiers_in_call_order Sample.temps0 Sample.w1 w1_reachable).
Defined.

(** X2 with the identifiers "id0", "id1", ... *)
Lemma identifiers_distinct_witness :
  (forall i j, Sample.ids i = Sample.ids j -> i = j)
  /\ NoDup (event_id <$> threeWorld Sample.w1).
Proof.
  split; [exact ids_inj|].
  exact (identifiers_distinct Sample.temps0 Sample.w1 ids_inj w1_reachable).
Defined.

(** X3 at the chain "AG". *)
Lemma primitives_as_constructed_witness :
  reachable Sample.temps0 Sample.w1
  /\ forall e, e ∈ threeWorld Sample.w1 -> as_constructed e.
Proof.
  split; [exact w1_reachable|].
  exact (proj1 (primitives_as_constructed Sample.temps0 Sample.w1 w1_reachable)).
Defined.

(** X4 after a cross-link on the chain "AG": four sockets, two balls. *)
Lemma two_sockets_per_ball_witness :
  reachable Sample.temps0 (addCrossLinks "P1:A1-P1:G2" Sample.w1).2
  /\ length (sockets_of (threeWorld (addCrossLinks "P1:A1-P1:G2" Sample.w1).2))
     = 2 * length (balls (addCrossLinks "P1:A1-P1:G2" Sample.w1).2).
Proof.
  assert (Hr : reachable Sample.temps0 (addCrossLinks "P1:A1-P1:G2" Sample.w1).2)
    by apply reachable_addCrossLinks, w1_reachable.
  split; [exact Hr|].
  exact (two_sockets_per_ball Sample.temps0 _ Hr).
Defined.

(** X5 at the ball of the chain "AG". *)
Lemma balls_read_last_transform_witness :
  reachable_shared Sample.temps0 Sample.w0 /\ 2 <= String.length "AG"
  /\ exists b,
       b ∈ balls (addPeptide "P1" "AG" Sample.origin Sample.w0).2
       /\ last (ball_transforms (threeWorld (addPeptide "P1" "AG" Sample.origin Sample.w0).2))
          = Some (deref (temps (addPeptide "P1" "AG" Sample.origin Sample.w0).2) (ball_matrix b)).
Proof.
  assert (Hw : reachable_shared Sample.temps0 Sample.w0) by apply shared_new.
  assert (Hlen : 2 <= String.length "AG") by (cbn; lia).
  split; [exact Hw|]. split; [exact Hlen|].
  destruct (balls (addPeptide "P1" "AG" Sample.origin Sample.w0).2) as [|b bs] eqn:Hb; [vm_compute in Hb; discriminate Hb|].
  assert (Hin : b ∈ balls (addPeptide "P1" "AG" Sample.origin Sample.w0).2) by (rewrite Hb; left).
  rewrite <- Hb. exists b. split; [exact Hin|].
  exact (proj2 (balls_read_last_transform Sample.temps0 Sample.w0 Hw)
           "P1" "AG" Sample.origin b Hlen Hin).
Defined.

(** X6 at the chain "AG". *)
Lemma balls_only_translated_witness :
  reachable Sample.temps0 Sample.w1
  /\ forall v, setPosition (at_tempMatrix1 (temps Sample.w1)) v
               = setPosition Sample.identity v.
Proof.
  split; [exact w1_reachable|].
  exact (proj1 (balls_only_translated Sample.temps0 Sample.w1 w1_reachable)).
Defined.

(** X8 at a cross-link right after the chain "AG". *)
Lemma cross_links_carry_last_ball_transform_witness :
  2 <= String.length "AG"
  /\ exists m evs,
       last (ball_transforms (threeWorld (addPeptide "P1" "AG" Sample.origin Sample.w0).2)) = Some m
       /\ threeWorld (addCrossLinks "P1:A1-P1:G2" (addPeptide "P1" "AG" Sample.origin Sample.w0).2).2 = threeWorld (addPeptide "P1" "AG" Sample.origin Sample.w0).2 ++ evs
       /\ forall e, e ∈ evs -> event_matrix e = Some m.
Proof.
  assert (Hlen : 2 <= String.length "AG") by (cbn; lia).
  split; [exact Hlen|].
  exact (proj2 (cross_links_carry_last_ball_transform "P1:A1-P1:G2" Sample.w0)
           "P1" "AG" Sample.origin Hlen).
Defined.

(** X9 at a second [addPeptide] under the name [P1]. *)
Lemma replaced_chain_is_orphaned_witness :
  (forall i j, Sample.ids i = Sample.ids j -> i = j)
  /\ exists old r,
       peptides Sample.w1 !! "P1" = Some old /\ r ∈ old
       /\ r ∈ residues_of (threeWorld (addPeptide "P1" "C" Sample.origin Sample.w1).2).
Proof.
  split; [exact ids_inj|].
  destruct (peptides Sample.w1 !! "P1") as [[|r old]|] eqn:Hold;
    [vm_compute in Hold; discriminate Hold | | vm_compute in Hold; discriminate Hold].
  assert (Hin : r ∈ r :: old) by left.
  exists (r :: old), r. split; [reflexivity|]. split; [exact Hin|].
  exact (proj1 (replaced_chain_is_orphaned Sample.temps0 Sample.w1 "P1" "C" Sample.origin
                  (r :: old) r ids_inj w1_reachable Hold Hin)).
Defined.

(** X12 at the clause "P1:A1", whose endpoint is valid. *)
Lemma clause_without_second_endpoint_witness :
  separator_free "P1" = true /\ separator_free "A1" = true
  /\ match_digits "A1" = Some "1"
  /\ (addCrossLinks "P1:A1" Sample.w1).2 = Sample.w1.
Proof.
  do 3 (split; [reflexivity|]).
  exact (proj1 (clause_without_second_endpoint Sample.w1 "P1" "A1" "1"
                  eq_refl eq_refl eq_refl)).
Defined.

(** X13 at the clause "P1:A1:x-P1:G2:y-z". *)
Lemma surplus_segments_ignored_witness :
  free_of ":" "P1" = true /\ free_of ":" "A1" = true /\ free_of ":" "G2" = true
  /\ free_of "-" "P1:A1:x" = true /\ free_of "-" "P1:G2:y" = true
  /\ addCrossLinks_callback "P1:A1:x-P1:G2:y-z" Sample.w1
     = addCrossLinks_callback "P1:A1-P1:G2" Sample.w1.
Proof.
  do 5 (split; [reflexivity|]).
  exact (surplus_segments_ignored Sample.w1 "P1" "A1" "x" "P1" "G2" "y" "z"
           eq_refl eq_refl eq_refl eq_refl eq_refl eq_refl).
Defined.

(** X14 at the clause "P1:A1-P1:G2" given twice. *)
Lemma repeated_clause_links_twice_witness :
  free_of ";" "P1:A1-P1:G2" = true
  /\ exists r1 r2,
       addCrossLinks "P1:A1-P1:G2" Sample.w1 = (Normal, cross_linked Sample.w1 r1 r2)
       /\ addCrossLinks "P1:A1-P1:G2;P1:A1-P1:G2" Sample.w1
          = (Normal, cross_linked (cross_linked Sample.w1 r1 r2) r1 r2).
Proof.
  split; [reflexivity|].
  destruct w1_second as [r2 H2].
  pose (r1 := mkResidue "id0" "A" (B64.of_nat 1) Sample.origin).
  assert (Hone : addCrossLinks "P1:A1-P1:G2" Sample.w1
                 = (Normal, cross_linked Sample.w1 r1 r2)).
  { rewrite (addCrossLinks_single "P1:A1-P1:G2" Sample.w1 eq_refl).
    change "P1:A1-P1:G2"
      with (("P1" +:+ ":" +:+ "A1") +:+ "-" +:+ ("P1" +:+ ":" +:+ "G2")).
    now rewrite (callback_links "P1" "A1" "P1" "G2" r1 r2 Sample.w1
                   eq_refl eq_refl eq_refl eq_refl w1_first H2). }
  exists r1, r2. split; [exact Hone|].
  exact (repeated_clause_links_twice Sample.w1 "P1:A1-P1:G2" r1 r2 eq_refl Hone).
Defined.

(** X15 at the token "A001x7": the index is 1. *)
Lemma index_is_first_digit_run_witness :
  free_of ":" "P1" = true /\ free_of ":" "A001x7" = true
  /\ forall_chars (fun c => negb (is_digit c)) "A" = true
  /\ no_leading_digit "x7" = true
  /\ resolve (Some "P1:A001x7") Sample.w1
     = match residue_at Sample.w1 "P1" 1 with
       | Some r =>
           if String.eqb (getAlphaOnly "A001x7") (residue_name r)
           then (Next r, Sample.w1) else (Return, Sample.w1)
       | None => (Return, Sample.w1)
       end.
Proof.
  do 4 (split; [reflexivity|]).
  exact (index_is_first_digit_run Sample.w1 "P1" "A" "x7" 2 1
           eq_refl eq_refl eq_refl eq_refl).
Defined.

(** X16 at the clause "P1:Ala1-P1:G2". *)
Lemma symbol_of_other_length_never_links_witness :
  reachable Sample.temps0 Sample.w1
  /\ separator_free "P1" = true /\ separator_free "Ala1" = true
  /\ separator_free "G2" = true
  /\ String.length (getAlphaOnly "Ala1") <> 1
  /\ (addCrossLinks "P1:Ala1-P1:G2" Sample.w1).2 = Sample.w1.
Proof.
  assert (Hlen : String.length (getAlphaOnly "Ala1") <> 1) by (vm_compute; lia).
  split; [exact w1_reachable|]. do 3 (split; [reflexivity|]).
  split; [exact Hlen|].
  exact (symbol_of_other_length_never_links Sample.temps0 Sample.w1 "P1" "Ala1" "P1" "G2"
           w1_reachable eq_refl eq_refl eq_refl eq_refl (or_introl Hlen)).
Defined.

(** X17 at the chain "AG", before and after a cross-link. *)
Lemma cross_links_depend_on_registry_only_witness :
  peptides (addCrossLinks "P1:A1-P1:G2" Sample.w1).2 = peptides Sample.w1
  /\ (addCrossLinks "P1:A1-P1:G2;P1:A1"
        (addCrossLinks "P1:A1-P1:G2" Sample.w1).2).1
     = (addCrossLinks "P1:A1-P1:G2;P1:A1" Sample.w1).1.
Proof.
  assert (Hp : peptides (addCrossLinks "P1:A1-P1:G2" Sample.w1).2 = peptides Sample.w1)
    by (vm_compute; reflexivity).
  split; [exact Hp|].
  exact (proj1 (cross_links_depend_on_registry_only "P1:A1-P1:G2;P1:A1" _ _ Hp)).
Defined.

(** X18 at the two residues of the chain "AG". *)
Lemma connection_as_computed_witness :
  1 < String.length "AG"
  /\ exists b m3,
       AddBall b m3 ∈ threeWorld (addPeptide "P1" "AG" Sample.origin Sample.w0).2
       /\ position m3
          = mkVector3
              (residueX Sample.origin 0 + residueRadius + socketLength / nlit 2
               + socketLength / nlit 2 + ballRadius)%num
              (vy Sample.origin) (vz Sample.origin).
Proof.
  assert (Hlen : 1 < String.length "AG") by (cbn; lia).
  split; [exact Hlen|].
  destruct (connection_as_computed "P1" "AG" Sample.origin Sample.w0 0 Hlen)
    as (chain & prev & cur & pre & post & s1 & t1 & s2 & t2 & b & m3
        & _ & _ & _ & Hlog & _ & _ & Hpos).
  exists b, m3. split; [|exact Hpos].
  rewrite Hlog. apply elem_of_app. right. apply elem_of_app. right.
  do 3 right. left.
Defined.

(** X19 at the first socket of the chain "AG". *)
Lemma chain_sockets_read_last_transform_witness :
  2 <= String.length "AG"
  /\ exists s m,
       AddSocket s m ∈ threeWorld (addPeptide "P1" "AG" Sample.origin Sample.w0).2
       /\ socket_matrix s = tempMultiMatrix1
       /\ last (chain_socket_transforms (threeWorld (addPeptide "P1" "AG" Sample.origin Sample.w0).2))
          = Some (deref (temps (addPeptide "P1" "AG" Sample.origin Sample.w0).2) (socket_matrix s))
       /\ at_tempMatrix2 (temps (addPeptide "P1" "AG" Sample.origin Sample.w0).2) = quarter_turn.
Proof.
  assert (Hlen : 2 <= String.length "AG") by (cbn; lia).
  split; [exact Hlen|].
  assert (H : exists s m, threeWorld (addPeptide "P1" "AG" Sample.origin Sample.w0).2 !! 2 = Some (AddSocket s m)
                          /\ socket_matrix s = tempMultiMatrix1)
    by (vm_compute; eexists _, _; split; reflexivity).
  destruct H as (s & m & Hl & Href).
  assert (Hin : AddSocket s m ∈ threeWorld (addPeptide "P1" "AG" Sample.origin Sample.w0).2)
    by exact (list_elem_of_lookup_2 _ _ _ Hl).
  exists s, m. split; [exact Hin|]. split; [exact Href|].
  exact (chain_sockets_read_last_transform "P1" "AG" Sample.origin Sample.w0 s m
           Hlen Hin Href).
Defined.

(** X20 at the chain "AG" from the origin. *)
Lemma first_residue_binary64_witness :
  exists chain r,
    peptides (addPeptide "P1" "AG" Sample.origin Sample.w0).2 !! "P1" = Some chain
    /\ chain !! 0 = Some r
    /\ is_finite ((socketLength + residueRadius + ballRadius) * nlit 2)%num = true
    /\ is_nan (vx Sample.origin) = false
    /\ SFeqb (vx (residue_pos r)) (vx Sample.origin) = true.
Proof.
  destruct (peptides (addPeptide "P1" "AG" Sample.origin Sample.w0).2 !! "P1")
    as [[|r chain]|] eqn:Hchain;
    [vm_compute in Hchain; discriminate Hchain | | vm_compute in Hchain; discriminate Hchain].
  assert (Hfin : is_finite ((socketLength + residueRadius + ballRadius) * nlit 2)%num = true)
    by (vm_compute; reflexivity).
  exists (r :: chain), r. split; [reflexivity|]. split; [reflexivity|].
  split; [exact Hfin|]. split; [reflexivity|].
  exact (proj1 (first_residue_binary64 "P1" "AG" Sample.origin Sample.w0 (r :: chain) r
                  Hchain eq_refl) Hfin eq_refl).
Defined.
